(** * OptionDAX: portfolio analytics engine

    A shallow embedding of the valuation, aggregation, payoff-sampling and
    equity/drawdown code of the OptionDAX front end, with the properties of
    its specification stated and proved over that embedding.

    Conventions of the embedding.
    - A JavaScript [number] is an exact rational ([Q]); equalities between
      computed numbers are stated with [==] ([Qeq]).  The price grid of the
      payoff chart, whose content depends on how the operations round, is
      computed in an arithmetic that rounds every operation ([fl]); its
      instance for the program is IEEE 754 binary64.
    - A calendar date is the millisecond timestamp [new Date(d).getTime()]
      it parses to ([Z]).
    - An optional field ([undefined] or [null]) is an [option].
    - The pricing kernel ([services/blackScholes]: the [BlackScholes] class,
      [getTimeToExpiry], [getYearFraction]) is an interface the engine is
      parameterised over; every [new BlackScholes(...)] is recorded in a
      trace, so that "the kernel is not contacted" is a statement about the
      trace. *)

From Stdlib Require Import QArith Qminmax Qabs Qround Qpower ZArith List String Ascii Bool Lia Lqa.
From Stdlib Require Import Permutation Sorted DecimalString.
Import ListNotations.

Local Open Scope Q_scope.

(* ------------------------------------------------------------------ *)
(** ** Numbers *)

(** [a < b] on numbers, as a boolean. *)
Definition Qltb (a b : Q) : bool := negb (Qle_bool b a).

(** [x || 0] on an optional number. *)
Definition orZero (o : option Q) : Q :=
  match o with
  | Some x => x
  | None => 0
  end.

(** Sum of a list of numbers, left to right from [0]. *)
Definition Qsum (l : list Q) : Q := fold_left Qplus l 0.

(* ------------------------------------------------------------------ *)
(** ** Data model ([types.ts]) *)

Inductive OptionType := Call | Put.

Record OptionLeg := {
  id : string;
  optionType : OptionType;
  strike : Q;
  expiryDate : Z;
  quantity : Q;
  tradePrice : Q;
  closingPrice : option Q;
  closingDate : option Z;
  impliedVolatility : Q;
  openingCommission : option Q;
  closingCommission : option Q;
  enabled : option bool;
  currentPrice : option Q;
  currentIv : option Q
}.

Record MarketData := {
  daxSpot : Q;
  daxVolatility : Q;
  riskFreeRate : Q
}.

Inductive Status := Active | Closed.

Record Structure := {
  structure_id : string;
  tag : string;
  legs : list OptionLeg;
  status : Status;
  multiplier : Q;
  structure_closingDate : option Z;
  realizedPnl : option Q
}.

Record CalculatedGreeks := {
  delta : Q;
  gamma : Q;
  theta : Q;
  vega : Q
}.

(* ------------------------------------------------------------------ *)
(** ** The pricing kernel and the clock, as interfaces *)

(** The five constructor arguments of [new BlackScholes(S, K, T, r, sigma)]. *)
Record BlackScholes := new_BlackScholes {
  bs_S : Q;
  bs_K : Q;
  bs_T : Q;
  bs_r : Q;
  bs_sigma : Q
}.

Class PricingKernel := {
  callPrice : BlackScholes -> Q;
  putPrice : BlackScholes -> Q;
  callGreeks : BlackScholes -> CalculatedGreeks;
  putGreeks : BlackScholes -> CalculatedGreeks
}.

(** [getTimeToExpiry] reads the system clock; [now] is [new Date()]. *)
Class Clock := {
  now : Z;
  getTimeToExpiry : Z -> Q;
  getYearFraction : Z -> Z -> Q
}.

(* ------------------------------------------------------------------ *)
(** ** Kernel trace: a writer monad over the constructed [BlackScholes] *)

Definition Traced (A : Type) : Type := (A * list BlackScholes)%type.

Definition ret {A} (a : A) : Traced A := (a, []).

Definition bind {A B} (m : Traced A) (f : A -> Traced B) : Traced B :=
  let r := f (fst m) in (fst r, snd m ++ snd r).

Notation "x <- m ;; k" := (bind m (fun x => k))
  (at level 61, m at next level, right associativity).

(** [new BlackScholes(...)]: builds the object and records the contact. *)
Definition construct (S K T r sigma : Q) : Traced BlackScholes :=
  let bs := new_BlackScholes S K T r sigma in (bs, [bs]).

Definition value {A} (m : Traced A) : A := fst m.
Definition calls {A} (m : Traced A) : list BlackScholes := snd m.

(** [arr.reduce(step, init)] with a traced step. *)
Fixpoint reduceM {A B} (step : B -> A -> Traced B) (l : list A) (acc : B)
  : Traced B :=
  match l with
  | [] => ret acc
  | x :: t => acc' <- step acc x ;; reduceM step t acc'
  end.

(** [arr.map(f)] with a traced [f]. *)
Fixpoint mapM {A B} (f : A -> Traced B) (l : list A) : Traced (list B) :=
  match l with
  | [] => ret []
  | x :: t => y <- f x ;; ys <- mapM f t ;; ret (y :: ys)
  end.

(* ------------------------------------------------------------------ *)
(** ** Shared leg predicates *)

(** [leg.closingPrice !== null && leg.closingPrice !== undefined &&
    Number(leg.closingPrice) !== 0] *)
Definition isLegClosed (leg : OptionLeg) : bool :=
  match closingPrice leg with
  | Some p => negb (Qeq_bool p 0)
  | None => false
  end.

(** [leg.enabled === false] *)
Definition isDisabled (leg : OptionLeg) : bool :=
  match enabled leg with
  | Some false => true
  | _ => false
  end.

(** [Math.max(0, spot - strike)] for a call, [Math.max(0, strike - spot)]
    for a put. *)
Definition intrinsicValue (ty : OptionType) (spot k : Q) : Q :=
  match ty with
  | Call => Qmax 0 (spot - k)
  | Put => Qmax 0 (k - spot)
  end.

Section Engine.

Context {kernel : PricingKernel} {clock : Clock}.

Definition price (ty : OptionType) (bs : BlackScholes) : Q :=
  match ty with
  | Call => callPrice bs
  | Put => putPrice bs
  end.

Definition greeksOf (ty : OptionType) (bs : BlackScholes) : CalculatedGreeks :=
  match ty with
  | Call => callGreeks bs
  | Put => putGreeks bs
  end.

(* ------------------------------------------------------------------ *)
(** ** List view ([StructureListView]): Greeks and PnL aggregators *)

Definition initialGreeks : CalculatedGreeks :=
  {| delta := 0; gamma := 0; theta := 0; vega := 0 |}.

Definition greeksStep (marketData : MarketData) (acc : CalculatedGreeks)
  (leg : OptionLeg) : Traced CalculatedGreeks :=
  if isDisabled leg then ret acc
  else if isLegClosed leg then ret acc
  else
    let timeToExpiry := getTimeToExpiry (expiryDate leg) in
    bs <- construct (daxSpot marketData) (strike leg) timeToExpiry
            (riskFreeRate marketData) (impliedVolatility leg) ;;
    let greeks := greeksOf (optionType leg) bs in
    ret {| delta := delta acc + delta greeks * quantity leg;
           gamma := gamma acc + gamma greeks * quantity leg;
           theta := theta acc + theta greeks * quantity leg;
           vega := vega acc + vega greeks * quantity leg |}.

Definition calculateTotalGreeks (structure : Structure) (marketData : MarketData)
  : Traced CalculatedGreeks :=
  match legs structure with
  | [] => ret initialGreeks
  | _ => reduceM (greeksStep marketData) (legs structure) initialGreeks
  end.

Record PnlInfo := {
  netPnl : Q;
  totalPoints : Q
}.

(** The [currentPrice] of a leg in [calculatePnlInfoForStructure]. *)
Definition listCurrentPrice (marketData : MarketData) (leg : OptionLeg)
  : Traced Q :=
  if isLegClosed leg then ret (orZero (closingPrice leg))
  else
    let timeToExpiry := getTimeToExpiry (expiryDate leg) in
    if Qltb 0 timeToExpiry then
      bs <- construct (daxSpot marketData) (strike leg) timeToExpiry
              (riskFreeRate marketData) (impliedVolatility leg) ;;
      ret (price (optionType leg) bs)
    else
      ret (intrinsicValue (optionType leg) (daxSpot marketData) (strike leg)).

Definition pnlStep (structure : Structure) (marketData : MarketData)
  (acc : PnlInfo) (leg : OptionLeg) : Traced PnlInfo :=
  if isDisabled leg then ret acc
  else
    currentPrice <- listCurrentPrice marketData leg ;;
    let priceDiff := currentPrice - tradePrice leg in
    let pnlPoints := priceDiff * quantity leg in
    let grossPnl := pnlPoints * multiplier structure in
    let commissions :=
      (orZero (openingCommission leg) + orZero (closingCommission leg))
      * Qabs (quantity leg) in
    let netPnl' := grossPnl - commissions in
    ret {| netPnl := netPnl acc + netPnl';
           totalPoints := totalPoints acc + pnlPoints |}.

(** The leg-level reduce, bound to [calculated] in the source. *)
Definition calculated (structure : Structure) (marketData : MarketData)
  : Traced PnlInfo :=
  reduceM (pnlStep structure marketData) (legs structure)
    {| netPnl := 0; totalPoints := 0 |}.

Definition calculatePnlInfoForStructure (structure : Structure)
  (marketData : MarketData) : Traced PnlInfo :=
  calculated <- calculated structure marketData ;;
  match status structure, realizedPnl structure with
  | Closed, Some r => ret {| netPnl := r; totalPoints := totalPoints calculated |}
  | _, _ => ret calculated
  end.

Definition calculateUnrealizedPnlForStructure (structure : Structure)
  (marketData : MarketData) : Traced Q :=
  info <- calculatePnlInfoForStructure structure marketData ;;
  ret (netPnl info).

(** [totalPortfolioGreeks]: the reduce over [activeStructures]. *)
Record PortfolioGreeks := {
  pf_delta : Q;
  pf_gamma : Q;
  pf_theta : Q;
  pf_vega : Q;
  pf_thetaPoints : Q;
  pf_vegaPoints : Q
}.

Definition isActive (s : Structure) : bool :=
  match status s with
  | Active => true
  | Closed => false
  end.

Definition isClosedStructure (s : Structure) : bool := negb (isActive s).

Definition portfolioGreeksStep (marketData : MarketData) (acc : PortfolioGreeks)
  (structure : Structure) : Traced PortfolioGreeks :=
  structureGreeks <- calculateTotalGreeks structure marketData ;;
  ret {| pf_delta := pf_delta acc + delta structureGreeks;
         pf_gamma := pf_gamma acc + gamma structureGreeks;
         pf_theta := pf_theta acc + theta structureGreeks * multiplier structure;
         pf_vega := pf_vega acc + vega structureGreeks * multiplier structure;
         pf_thetaPoints := pf_thetaPoints acc + theta structureGreeks;
         pf_vegaPoints := pf_vegaPoints acc + vega structureGreeks |}.

Definition totalPortfolioGreeks (structures : list Structure)
  (marketData : MarketData) : Traced PortfolioGreeks :=
  let activeStructures := filter isActive structures in
  reduceM (portfolioGreeksStep marketData) activeStructures
    {| pf_delta := 0; pf_gamma := 0; pf_theta := 0; pf_vega := 0;
       pf_thetaPoints := 0; pf_vegaPoints := 0 |}.

(* ------------------------------------------------------------------ *)
(** ** Detail view ([StructureDetailView]): the [analysis] memo *)

Record LegAnalysis := {
  la_id : string;
  fairValue : Q;
  la_currentPrice : Q;
  pnlPoints : Q;
  grossPnl : Q;
  commissions : Q;
  la_netPnl : Q;
  isClosed : bool;
  la_delta : Q;
  la_gamma : Q;
  la_theta : Q;
  la_vega : Q;
  thetaPoints : Q;
  vegaPoints : Q;
  volatilityUsed : Q
}.

Record Totals := {
  pnl : Q;
  t_pnlPoints : Q;
  gross : Q;
  comm : Q;
  t_delta : Q;
  t_gamma : Q;
  t_theta : Q;
  t_vega : Q;
  t_thetaPoints : Q;
  t_vegaPoints : Q
}.

(** The state the memo closes over. *)
Record DetailView := {
  localStructure : Structure;
  structures : list Structure;
  isLiveMode : bool;
  simulatedSpot : Q
}.

Definition findLeg (ident : string) (ls : list OptionLeg) : option OptionLeg :=
  find (fun l => String.eqb (id l) ident) ls.

(** [isLiveMode && storeLeg?.currentIv ? storeLeg.currentIv
    : leg.impliedVolatility] *)
Definition volatilityToUse (view : DetailView) (leg : OptionLeg) : Q :=
  let storeStructure :=
    find (fun s => String.eqb (structure_id s)
                     (structure_id (localStructure view)))
         (structures view) in
  let storeLeg :=
    match storeStructure with
    | Some s => findLeg (id leg) (legs s)
    | None => None
    end in
  match storeLeg with
  | Some sl =>
      match currentIv sl with
      | Some iv => if isLiveMode view && negb (Qeq_bool iv 0) then iv
                   else impliedVolatility leg
      | None => impliedVolatility leg
      end
  | None => impliedVolatility leg
  end.

Definition analyseLeg (view : DetailView) (marketData : MarketData)
  (leg : OptionLeg) : Traced LegAnalysis :=
  let timeToExpiry := getTimeToExpiry (expiryDate leg) in
  let vol := volatilityToUse view leg in
  bs <- construct (simulatedSpot view) (strike leg) timeToExpiry
          (riskFreeRate marketData) vol ;;
  let fairValue' := price (optionType leg) bs in
  let greeks := greeksOf (optionType leg) bs in
  let isLegClosed' := isLegClosed leg in
  let currentPrice' :=
    if isLegClosed' then orZero (closingPrice leg) else fairValue' in
  let priceDiff := currentPrice' - tradePrice leg in
  let pnlPoints' := priceDiff * quantity leg in
  let grossPnl' := pnlPoints' * multiplier (localStructure view) in
  let commissions' :=
    (orZero (openingCommission leg) + orZero (closingCommission leg))
    * Qabs (quantity leg) in
  let netPnl' := grossPnl' - commissions' in
  let thetaPoints' := theta greeks * quantity leg in
  let vegaPoints' := vega greeks * quantity leg in
  ret {| la_id := id leg;
         fairValue := fairValue';
         la_currentPrice := currentPrice';
         pnlPoints := pnlPoints';
         grossPnl := grossPnl';
         commissions := commissions';
         la_netPnl := netPnl';
         isClosed := isLegClosed';
         la_delta := delta greeks * quantity leg * 100;
         la_gamma := gamma greeks * quantity leg;
         la_theta := thetaPoints' * multiplier (localStructure view);
         la_vega := vegaPoints' * multiplier (localStructure view);
         thetaPoints := thetaPoints';
         vegaPoints := vegaPoints';
         volatilityUsed := vol |}.

(** [leg?.enabled === false] for the leg found by the row's id. *)
Definition rowDisabled (view : DetailView) (curr : LegAnalysis) : bool :=
  match findLeg (la_id curr) (legs (localStructure view)) with
  | Some leg => isDisabled leg
  | None => false
  end.

Definition initialTotals : Totals :=
  {| pnl := 0; t_pnlPoints := 0; gross := 0; comm := 0; t_delta := 0;
     t_gamma := 0; t_theta := 0; t_vega := 0; t_thetaPoints := 0;
     t_vegaPoints := 0 |}.

Definition totalsStep (view : DetailView) (acc : Totals) (curr : LegAnalysis)
  : Totals :=
  if rowDisabled view curr then acc
  else
    let acc1 :=
      {| pnl := pnl acc + la_netPnl curr;
         t_pnlPoints := t_pnlPoints acc + pnlPoints curr;
         gross := gross acc + grossPnl curr;
         comm := comm acc + commissions curr;
         t_delta := t_delta acc;
         t_gamma := t_gamma acc;
         t_theta := t_theta acc;
         t_vega := t_vega acc;
         t_thetaPoints := t_thetaPoints acc;
         t_vegaPoints := t_vegaPoints acc |} in
    if negb (isClosed curr) then
      {| pnl := pnl acc1;
         t_pnlPoints := t_pnlPoints acc1;
         gross := gross acc1;
         comm := comm acc1;
         t_delta := t_delta acc1 + la_delta curr;
         t_gamma := t_gamma acc1 + la_gamma curr;
         t_theta := t_theta acc1 + la_theta curr;
         t_vega := t_vega acc1 + la_vega curr;
         t_thetaPoints := t_thetaPoints acc1 + thetaPoints curr;
         t_vegaPoints := t_vegaPoints acc1 + vegaPoints curr |}
    else acc1.

Record Analysis := {
  legAnalysis : list LegAnalysis;
  totals : Totals;
  an_realizedPnl : Q;
  realizedPoints : Q;
  unrealizedPnl : Q;
  unrealizedPoints : Q
}.

Definition analysis (view : DetailView) (marketData : MarketData)
  : Traced Analysis :=
  rows <- mapM (analyseLeg view marketData) (legs (localStructure view)) ;;
  let closedRows :=
    filter (fun l => isClosed l && negb (rowDisabled view l)) rows in
  let openRows :=
    filter (fun l => negb (isClosed l) && negb (rowDisabled view l)) rows in
  ret {| legAnalysis := rows;
         totals := fold_left (totalsStep view) rows initialTotals;
         an_realizedPnl := Qsum (map la_netPnl closedRows);
         realizedPoints := Qsum (map pnlPoints closedRows);
         unrealizedPnl := Qsum (map la_netPnl openRows);
         unrealizedPoints := Qsum (map pnlPoints openRows) |}.

(* ------------------------------------------------------------------ *)
(** ** Live refresh ([portfolioStore.refreshDaxSpot]): the state update *)

Definition refreshLeg (spot vol : Q) (rate : Q) (leg : OptionLeg)
  : Traced OptionLeg :=
  match closingDate leg with
  | Some _ => ret leg
  | None =>
      let timeToExpiry := getYearFraction now (expiryDate leg) in
      let currentIv' := if Qltb 0 vol then vol else impliedVolatility leg in
      currentPrice' <-
        (if Qle_bool timeToExpiry 0 then
           ret (intrinsicValue (optionType leg) spot (strike leg))
         else
           bs <- construct spot (strike leg) timeToExpiry rate currentIv' ;;
           ret (price (optionType leg) bs)) ;;
      ret {| id := id leg;
             optionType := optionType leg;
             strike := strike leg;
             expiryDate := expiryDate leg;
             quantity := quantity leg;
             tradePrice := tradePrice leg;
             closingPrice := closingPrice leg;
             closingDate := closingDate leg;
             impliedVolatility := impliedVolatility leg;
             openingCommission := openingCommission leg;
             closingCommission := closingCommission leg;
             enabled := enabled leg;
             currentPrice := Some currentPrice';
             currentIv := Some currentIv' |}
  end.

Definition refreshStructure (spot vol rate : Q) (structure : Structure)
  : Traced Structure :=
  match status structure with
  | Closed => ret structure
  | Active =>
      updatedLegs <- mapM (refreshLeg spot vol rate) (legs structure) ;;
      ret {| structure_id := structure_id structure;
             tag := tag structure;
             legs := updatedLegs;
             status := status structure;
             multiplier := multiplier structure;
             structure_closingDate := structure_closingDate structure;
             realizedPnl := realizedPnl structure |}
  end.

(** The [structures] component of the state after a successful fetch of
    [{ daxSpot, daxVolatility }]; the risk-free rate is the one already in
    the store. *)
Definition refreshDaxSpot (fetched : MarketData) (storeRate : Q)
  (structures : list Structure) : Traced (list Structure) :=
  mapM (refreshStructure (daxSpot fetched) (daxVolatility fetched) storeRate)
       structures.

End Engine.

(* ------------------------------------------------------------------ *)
(** ** JavaScript library functions used by the charts *)

(** [Math.min(x, ...rest)] and [Math.max(x, ...rest)] on a non-empty
    argument list. *)
Definition Math_min (x : Q) (rest : list Q) : Q := fold_left Qmin rest x.
Definition Math_max (x : Q) (rest : list Q) : Q := fold_left Qmax rest x.

(** [Array.prototype.sort(compareFn)], as a stable insertion sort; [gt a b]
    is [compareFn(a, b) > 0].  ECMAScript requires the sort to be stable, and
    for a comparator that is a total preorder on the elements every stable
    sort returns this list. *)
Fixpoint insertSorted {A} (gt : A -> A -> bool) (x : A) (l : list A) : list A :=
  match l with
  | [] => [x]
  | y :: t => if gt x y then y :: insertSorted gt x t else x :: y :: t
  end.

Definition Array_sort {A} (gt : A -> A -> bool) (l : list A) : list A :=
  fold_right (insertSorted gt) [] l.

(* ------------------------------------------------------------------ *)
(** ** Rounded arithmetic *)

(** [fl x] is the number that stands for the exact result [x] of an
    operation, or for a decimal literal [x]. *)
Class Arithmetic := { fl : Q -> Q }.

Section Numbers.

Context {arith : Arithmetic}.

Definition num_add (a b : Q) : Q := fl (a + b).
Definition num_sub (a b : Q) : Q := fl (a - b).
Definition num_mul (a b : Q) : Q := fl (a * b).
Definition num_div (a b : Q) : Q := fl (a / b).

(** A decimal literal of the source. *)
Definition literal (q : Q) : Q := fl q.

End Numbers.

(** What the grid needs of the rounding: it is monotone, keeps the sign,
    leaves its own values and the integers up to [2^53] unchanged, and
    [Math.floor] and [Math.ceil] of a number are numbers. *)
Class ArithmeticLaws (arith : Arithmetic) : Prop := {
  fl_monotone : forall a b, a <= b -> fl a <= fl b;
  fl_positive : forall a, 0 < a -> 0 < fl a;
  fl_idempotent : forall a, fl (fl a) == fl a;
  fl_int : forall n : Z, (Z.abs n <= 2 ^ 53)%Z -> fl (inject_Z n) == inject_Z n;
  fl_floor : forall a,
      fl (inject_Z (Qfloor (fl a))) == inject_Z (Qfloor (fl a));
  fl_ceiling : forall a,
      fl (inject_Z (Qceiling (fl a))) == inject_Z (Qceiling (fl a))
}.

(** Real arithmetic: no operation rounds. *)
Definition exactArithmetic : Arithmetic := {| fl := fun x => x |}.

(** IEEE 754 binary64, the [number] of JavaScript: the exact result is
    rounded to the nearest number with a 53-bit significand, a tie going to
    the even significand.  The exponent is not bounded: overflow, underflow
    and the non-finite values are not modelled (the prices and strikes at
    hand are far from both ends of the range). *)

(** For [0 < q], the exponent [e] with [2^e <= q < 2^(e+1)]. *)
Definition ilog2 (q : Q) : Z :=
  let k := (Z.log2 (Qnum q) - Z.log2 (Zpos (Qden q)))%Z in
  if Qle_bool (2 ^ k) q then k else (k - 1)%Z.

(** The nearest integer, a tie going to the even one. *)
Definition roundHalfEven (x : Q) : Z :=
  let f := Qfloor x in
  let r := x - inject_Z f in
  if Qltb r (1 # 2) then f
  else if Qltb (1 # 2) r then (f + 1)%Z
  else if Z.even f then f else (f + 1)%Z.

(** For [0 < q]: [q] scaled to a significand in [[2^52, 2^53)], rounded,
    and scaled back. *)
Definition nearest53 (q : Q) : Q :=
  let e := (ilog2 q - 52)%Z in
  inject_Z (roundHalfEven (q * 2 ^ (- e))) * 2 ^ e.

Definition binary64 (q : Q) : Q :=
  if Qltb 0 q then Qred (nearest53 q)
  else if Qltb q 0 then Qred (- nearest53 (- q))
  else 0.

#[local] Instance doubleArithmetic : Arithmetic := {| fl := binary64 |}.

(** The numbers with a 53-bit significand. *)
Definition hasSignificand (v : Q) : Prop :=
  exists M e : Z, (2 ^ 52 <= M <= 2 ^ 53)%Z /\ v == inject_Z M * 2 ^ e.

(* ------------------------------------------------------------------ *)
(** ** Payoff chart ([PayoffChart]): the [chartPoints] and [data] memos *)

(** The local constants of [chartPoints]. *)
Record ChartDomain := {
  minStrike : Q;
  maxStrike : Q;
  spread : Q;
  expansionFactor : Q;
  minPadding : Q;
  maxPadding : Q;
  padding : Q;
  xMin : Q;
  xMax : Q;
  step : Q
}.

Definition pointCount : nat := 150.

Section ChartGrid.

Context {arith : Arithmetic}.

(** [strike0 :: strikes'] are the strikes of the (non-empty) leg list. *)
Definition chartDomain (strike0 : Q) (strikes' : list Q)
  (currentSpot viewRange : Q) : ChartDomain :=
  let minStrike' := Math_min strike0 (strikes' ++ [currentSpot]) in
  let maxStrike' := Math_max strike0 (strikes' ++ [currentSpot]) in
  let spread0 := num_sub maxStrike' minStrike' in
  let spread' :=
    if Qltb spread0 (num_mul currentSpot (literal (1 # 100)))
    then num_mul currentSpot (literal (1 # 100))
    else spread0 in
  let expansionFactor' := num_div viewRange (literal 100) in
  let minPadding' := num_mul spread' (literal (1 # 10)) in
  let maxPadding' :=
    Qmax (num_mul spread' (literal 5)) (num_mul currentSpot (literal (3 # 10))) in
  let padding' :=
    num_add minPadding'
      (num_mul (num_sub maxPadding' minPadding') expansionFactor') in
  let xMin' := inject_Z (Qfloor (num_sub minStrike' padding')) in
  let xMax' := inject_Z (Qceiling (num_add maxStrike' padding')) in
  {| minStrike := minStrike';
     maxStrike := maxStrike';
     spread := spread';
     expansionFactor := expansionFactor';
     minPadding := minPadding';
     maxPadding := maxPadding';
     padding := padding';
     xMin := xMin';
     xMax := xMax';
     step := num_div (num_sub xMax' xMin') (inject_Z (Z.of_nat pointCount)) |}.

Definition basePoints (d : ChartDomain) : list Q :=
  map (fun i => num_add (xMin d) (num_mul (inject_Z (Z.of_nat i)) (step d)))
      (seq 0 (pointCount + 1)).

Definition criticalPoints (strikes : list Q) (currentSpot : Q) : list Q :=
  currentSpot
  :: flat_map (fun s => [s; num_sub s (literal (1 # 2));
                         num_add s (literal (1 # 2))]) strikes.

Definition allPoints (d : ChartDomain) (strikes : list Q) (currentSpot : Q)
  : list Q :=
  Array_sort (fun a b => Qltb 0 (num_sub a b))
    (filter (fun p => Qle_bool (xMin d) p && Qle_bool p (xMax d))
            (basePoints d ++ criticalPoints strikes currentSpot)).

(** The loop [for (i = 1; ...)]: [prev] is [allPoints[i-1]]. *)
Fixpoint collapseFrom (prev : Q) (l : list Q) : list Q :=
  match l with
  | [] => []
  | x :: t =>
      if Qltb (literal (1 # 10)) (num_sub x prev) then x :: collapseFrom x t
      else collapseFrom x t
  end.

Definition uniquePoints (all : list Q) : list Q :=
  match all with
  | [] => []
  | x :: t => x :: collapseFrom x t
  end.

Definition chartPoints (legs : list OptionLeg) (currentSpot viewRange : Q)
  : list Q :=
  match legs with
  | [] => []
  | leg0 :: legs' =>
      let d := chartDomain (strike leg0) (map strike legs') currentSpot viewRange in
      uniquePoints (allPoints d (map strike legs) currentSpot)
  end.

End ChartGrid.

Record PayoffChartProps := {
  p_legs : list OptionLeg;
  p_marketData : MarketData;
  p_multiplier : Q;
  structureStatus : option Status;
  p_realizedPnl : option Q
}.

Record PayoffPoint := {
  spot : Q;
  pnlExpiry : Q;
  pnlSim : Q
}.

Definition dayMs : Z := 24 * 3600 * 1000.

Section Charts.

Context {kernel : PricingKernel} {clock : Clock} {arith : Arithmetic}.

Definition earliestExpiryDate (legs : list OptionLeg) : Z :=
  match map expiryDate legs with
  | [] => now
  | d :: ds => fold_left Z.min ds d
  end.

(** [valAtExpiry] of a leg at a sampled price. *)
Definition valAtExpiry (marketData : MarketData) (earliest : Z) (spot : Q)
  (leg : OptionLeg) : Traced Q :=
  let isExpiringLeg := (Z.abs (expiryDate leg - earliest) <? dayMs)%Z in
  if isExpiringLeg then
    ret (intrinsicValue (optionType leg) spot (strike leg))
  else
    let t_remaining := getYearFraction earliest (expiryDate leg) in
    bs <- construct spot (strike leg) t_remaining (riskFreeRate marketData)
            (impliedVolatility leg) ;;
    ret (price (optionType leg) bs).

(** [valSimulated] of a leg at a sampled price. *)
Definition valSimulated (marketData : MarketData) (t_elapsed : Q) (spot : Q)
  (leg : OptionLeg) : Traced Q :=
  let t_total_leg := getYearFraction now (expiryDate leg) in
  let t_remaining_sim := Qmax 0 (t_total_leg - t_elapsed) in
  if Qltb t_remaining_sim (1 # 1000) then
    ret (intrinsicValue (optionType leg) spot (strike leg))
  else
    bsSim <- construct spot (strike leg) t_remaining_sim
               (riskFreeRate marketData) (impliedVolatility leg) ;;
    ret (price (optionType leg) bsSim).

(** The body of [legs.forEach] in [data]; the accumulator is
    [(pnlAtFirstExpiry, pnlSimulated)]. *)
Definition payoffStep (marketData : MarketData) (earliest : Z) (t_elapsed : Q)
  (spot : Q) (acc : Q * Q) (leg : OptionLeg) : Traced (Q * Q) :=
  atExpiry <- valAtExpiry marketData earliest spot leg ;;
  simulated <- valSimulated marketData t_elapsed spot leg ;;
  if Qltb 0 (quantity leg) then
    ret (fst acc + (atExpiry - tradePrice leg) * quantity leg,
         snd acc + (simulated - tradePrice leg) * quantity leg)
  else
    ret (fst acc + (tradePrice leg - atExpiry) * Qabs (quantity leg),
         snd acc + (tradePrice leg - simulated) * Qabs (quantity leg)).

Definition data (props : PayoffChartProps) (viewRange simTimePercent : Q)
  : Traced (list PayoffPoint) :=
  let legs := p_legs props in
  let marketData := p_marketData props in
  let points := chartPoints legs (daxSpot marketData) viewRange in
  match points with
  | [] => ret []
  | _ =>
      match structureStatus props, p_realizedPnl props with
      | Some Closed, Some r =>
          ret (map (fun spot => {| spot := spot; pnlExpiry := r; pnlSim := r |})
                   points)
      | _, _ =>
          let earliest := earliestExpiryDate legs in
          let t_now_to_expiry := getYearFraction now earliest in
          let t_elapsed := t_now_to_expiry * (simTimePercent / 100) in
          mapM (fun spot =>
                  pnls <- reduceM (payoffStep marketData earliest t_elapsed spot)
                            legs (0, 0) ;;
                  ret {| spot := spot;
                         pnlExpiry := fst pnls * p_multiplier props;
                         pnlSim := snd pnls * p_multiplier props |})
               points
      end
  end.

End Charts.

(* ------------------------------------------------------------------ *)
(** ** Portfolio analysis ([PortfolioAnalysis]): equity and drawdown *)

(** [Math.max(...dates)] on a non-empty list of timestamps. *)
Definition maxTimestamp (d : Z) (ds : list Z) : Z := fold_left Z.max ds d.

Definition isSome {A} (o : option A) : bool :=
  match o with
  | Some _ => true
  | None => false
  end.

Definition getTime (o : option Z) : Z :=
  match o with
  | Some d => d
  | None => 0%Z
  end.

Definition getEffectiveClosingDate (structure : Structure) : Z :=
  let legClosingDates :=
    map getTime (filter isSome (map closingDate (legs structure))) in
  match legClosingDates with
  | d :: ds => maxTimestamp d ds
  | [] =>
      match structure_closingDate structure with
      | Some d => d
      | None => 0%Z
      end
  end.

(** [\d] *)
Definition isDigit (c : ascii) : bool :=
  (48 <=? nat_of_ascii c)%nat && (nat_of_ascii c <=? 57)%nat.

Fixpoint takeWhile {A} (p : A -> bool) (l : list A) : list A :=
  match l with
  | [] => []
  | x :: t => if p x then x :: takeWhile p t else []
  end.

(** [parseInt] of a string of decimal digits. *)
Definition parseInt (digits : list ascii) : Z :=
  fold_left (fun acc c => (acc * 10 + (Z.of_nat (nat_of_ascii c) - 48))%Z)
            digits 0%Z.

(** [tag.match(/(\d+)$/)]: the longest run of digits that ends the tag. *)
Definition getSerial (tag : string) : Z :=
  match rev (takeWhile isDigit (rev (list_ascii_of_string tag))) with
  | [] => (-1)%Z
  | digits => parseInt digits
  end.

(** The comparator passed to [sort] in [equityChartData]. *)
Definition compareStructures (a b : Structure) : Z :=
  let serialA := getSerial (tag a) in
  let serialB := getSerial (tag b) in
  if negb (serialA =? -1)%Z && negb (serialB =? -1)%Z then
    (serialA - serialB)%Z
  else
    (getEffectiveClosingDate a - getEffectiveClosingDate b)%Z.

Definition sortedStructures (closedStructures : list Structure)
  : list Structure :=
  Array_sort (fun a b => (0 <? compareStructures a b)%Z) closedStructures.

Record EquityPoint := {
  uniqueId : string;
  name : string;
  ep_tag : string;
  equity : Q;
  drawdown : Q;
  date : Z
}.

Record KeyMetrics := {
  totalNetPnl : Q;
  profitFactor : option Q;
  winRate : Q;
  avgWin : Q;
  avgLoss : Q;
  maxDrawdown : Q
}.

Section PortfolioAnalysis.

(** [toLocaleDateString('it-IT', { day: '2-digit', month: 'short' })] *)
Variable formatDate : Z -> string.

Definition startPoint (safeInitialCapital : Q) : EquityPoint :=
  {| uniqueId := "start";
     name := "Inizio";
     ep_tag := "Capitale Iniziale";
     equity := safeInitialCapital;
     drawdown := 0;
     date := 0%Z |}.

(** The body of [sortedStructures.forEach]; the state is
    [(cumulativePnl, dataPoints)]. *)
Definition equityStep (safeInitialCapital : Q) (st : Q * list EquityPoint)
  (entry : nat * Structure) : Q * list EquityPoint :=
  let index := fst entry in
  let structure := snd entry in
  let cumulativePnl := fst st + orZero (realizedPnl structure) in
  let dataPoints := snd st in
  let currentEquity := safeInitialCapital + cumulativePnl in
  let peakEquity :=
    Math_max safeInitialCapital (map equity dataPoints ++ [currentEquity]) in
  let drawdown' := currentEquity - peakEquity in
  let effectiveDateTimestamp := getEffectiveClosingDate structure in
  (cumulativePnl,
   dataPoints ++
   [{| uniqueId :=
         (NilZero.string_of_uint (Nat.to_uint index) ++ "-"
          ++ structure_id structure)%string;
       name := formatDate effectiveDateTimestamp;
       ep_tag := tag structure;
       equity := currentEquity;
       drawdown := drawdown';
       date := effectiveDateTimestamp |}]).

Definition equityChartData (structures : list Structure)
  (safeInitialCapital : Q) : list EquityPoint :=
  let closedStructures := filter isClosedStructure structures in
  match closedStructures with
  | [] => []
  | _ =>
      let sorted := sortedStructures closedStructures in
      snd (fold_left (equityStep safeInitialCapital)
                     (combine (seq 0 (List.length sorted)) sorted)
                     (0, [startPoint safeInitialCapital]))
  end.

Definition keyMetrics (structures : list Structure) (safeInitialCapital : Q)
  : KeyMetrics :=
  let closedStructures := filter isClosedStructure structures in
  let equityChartData' := equityChartData structures safeInitialCapital in
  let pnlOf := fun s => orZero (realizedPnl s) in
  let totalNetPnl' := Qsum (map pnlOf closedStructures) in
  let winningTrades := filter (fun s => Qltb 0 (pnlOf s)) closedStructures in
  let losingTrades := filter (fun s => Qltb (pnlOf s) 0) closedStructures in
  let grossProfit := Qsum (map pnlOf winningTrades) in
  let grossLoss := Qabs (Qsum (map pnlOf losingTrades)) in
  let count := fun {A} (l : list A) => inject_Z (Z.of_nat (List.length l)) in
  {| totalNetPnl := totalNetPnl';
     profitFactor :=
       if Qltb 0 grossLoss then Some (grossProfit / grossLoss) else None;
     winRate :=
       if (0 <? List.length closedStructures)%nat
       then count winningTrades / count closedStructures * 100
       else 0;
     avgWin :=
       if (0 <? List.length winningTrades)%nat
       then grossProfit / count winningTrades else 0;
     avgLoss :=
       if (0 <? List.length losingTrades)%nat
       then grossLoss / count losingTrades else 0;
     maxDrawdown :=
       if (1 <? List.length equityChartData')%nat
       then Math_min 0 (map drawdown equityChartData')
       else 0 |}.

End PortfolioAnalysis.

(* ------------------------------------------------------------------ *)
(** ** Reference quantities of the specification *)

(** The deduplication spacing of the payoff grid (the number the literal
    [0.1] stands for), and "more than the spacing apart". *)
Definition minSpacing {arith : Arithmetic} : Q := literal (1 # 10).

Definition spacedLt {arith : Arithmetic} (a b : Q) : Prop := a + minSpacing < b.

(** The candidate points of the grid in the words of the specification:
    the evenly spaced base points [xMin + i * step], the spot, and each
    strike with the points half a unit below and above it. *)
Definition gridCandidate {arith : Arithmetic} (d : ChartDomain)
  (strikes : list Q) (currentSpot p : Q) : Prop :=
  (exists i, (i <= 150)%nat
             /\ p = num_add (xMin d) (num_mul (inject_Z (Z.of_nat i)) (step d)))
  \/ p = currentSpot
  \/ exists s, In s strikes
               /\ (p = s \/ p = num_sub s (literal (1 # 2))
                   \/ p = num_add s (literal (1 # 2))).

(** The sampler keeps a candidate that follows [q]: the difference it
    computes exceeds the spacing. *)
Definition keptAfter {arith : Arithmetic} (q p : Q) : Prop :=
  literal (1 # 10) < num_sub p q.

Definition last_error {A} (l : list A) : option A := hd_error (rev l).

(** The grid [pts] covers the interval [[lo, hi]]: it starts at or below
    [lo] and ends at or above [hi]. *)
Definition coversDomain (pts : list Q) (lo hi : Q) : Prop :=
  exists a b, hd_error pts = Some a /\ last_error pts = Some b
              /\ a <= lo /\ hi <= b.

(** [structure.realizedPnl || 0] *)
Definition pnlOf (s : Structure) : Q := orZero (realizedPnl s).

(** The equity walk in the words of the specification: from [equity], add
    each realized PnL in turn and emit the running value. *)
Fixpoint spec_equityWalk (equity : Q) (pnls : list Q) : list Q :=
  match pnls with
  | [] => []
  | x :: t => (equity + x) :: spec_equityWalk (equity + x) t
  end.

(** The structure's label ends in a serial number. *)
Definition hasSerial (s : Structure) : Prop := getSerial (tag s) <> (-1)%Z.

Definition bySerial (a b : Structure) : Prop :=
  (getSerial (tag a) <= getSerial (tag b))%Z.

Definition byEffectiveClosingDate (a b : Structure) : Prop :=
  (getEffectiveClosingDate a <= getEffectiveClosingDate b)%Z.

(** What the walk maintains about [dataPoints]: it starts with the synthetic
    starting point, no drawdown is positive, and each drawdown is the
    point's equity minus the highest equity up to and including it,
    starting capital included. *)
Definition equityInvariant (safeInitialCapital : Q) (dataPoints : list EquityPoint)
  : Prop :=
  (exists rest, dataPoints = startPoint safeInitialCapital :: rest)
  /\ Forall (fun p => drawdown p <= 0) dataPoints
  /\ (forall pre p suf,
        dataPoints = pre ++ p :: suf ->
        drawdown p
        == equity p
           - Math_max safeInitialCapital (map equity pre ++ [equity p])).

Section Reference.

Context {kernel : PricingKernel} {clock : Clock}.

Definition isEnabled (leg : OptionLeg) : bool := negb (isDisabled leg).

Definition enabledLegs (ls : list OptionLeg) : list OptionLeg :=
  filter isEnabled ls.

(** The per-leg quantities in the words of the specification, for a given
    valuation [cp] of the legs. *)
Definition spec_pointsPnl (cp : OptionLeg -> Q) (leg : OptionLeg) : Q :=
  (cp leg - tradePrice leg) * quantity leg.

Definition spec_grossPnl (mult : Q) (cp : OptionLeg -> Q) (leg : OptionLeg) : Q :=
  spec_pointsPnl cp leg * mult.

Definition spec_commissions (leg : OptionLeg) : Q :=
  (orZero (openingCommission leg) + orZero (closingCommission leg))
  * Qabs (quantity leg).

Definition spec_netPnl (mult : Q) (cp : OptionLeg -> Q) (leg : OptionLeg) : Q :=
  spec_grossPnl mult cp leg - spec_commissions leg.

(** The valuation used by each view. *)
Definition listPrice (m : MarketData) (leg : OptionLeg) : Q :=
  value (listCurrentPrice m leg).

Definition detailPrice (view : DetailView) (m : MarketData) (leg : OptionLeg) : Q :=
  la_currentPrice (value (analyseLeg view m leg)).

(** Legs that carry forward risk: enabled and not closed. *)
Definition openEnabledLegs (ls : list OptionLeg) : list OptionLeg :=
  filter (fun l => isEnabled l && negb (isLegClosed l)) ls.

(** The kernel's Greeks for a leg as each view requests them. *)
Definition listGreeks (m : MarketData) (leg : OptionLeg) : CalculatedGreeks :=
  greeksOf (optionType leg)
    (new_BlackScholes (daxSpot m) (strike leg) (getTimeToExpiry (expiryDate leg))
       (riskFreeRate m) (impliedVolatility leg)).

Definition detailGreeks (view : DetailView) (m : MarketData) (leg : OptionLeg)
  : CalculatedGreeks :=
  greeksOf (optionType leg)
    (new_BlackScholes (simulatedSpot view) (strike leg)
       (getTimeToExpiry (expiryDate leg)) (riskFreeRate m)
       (volatilityToUse view leg)).

End Reference.

(* ------------------------------------------------------------------ *)
(** ** A concrete kernel and clock, for evaluating the engine on examples *)

(** Intrinsic value plus a time value proportional to [sigma * T]; the
    sensitivities are fixed fractions.  It stands in for the closed-form
    model wherever a statement is checked on a concrete portfolio. *)
#[local] Instance sampleKernel : PricingKernel := {
  callPrice bs := Qmax 0 (bs_S bs - bs_K bs) + bs_sigma bs * bs_T bs * 100;
  putPrice bs := Qmax 0 (bs_K bs - bs_S bs) + bs_sigma bs * bs_T bs * 100;
  callGreeks bs := {| delta := 1 # 2; gamma := 1 # 100;
                      theta := - (3 # 1); vega := 20 # 1 |};
  putGreeks bs := {| delta := - (1 # 2); gamma := 1 # 100;
                     theta := - (3 # 1); vega := 20 # 1 |}
}.

(** A clock stopped at timestamp [0], with the 365.25-day year. *)
#[local] Instance sampleClock : Clock := {
  now := 0%Z;
  getTimeToExpiry d := inject_Z d / 31557600000;
  getYearFraction a b := inject_Z (b - a) / 31557600000
}.

Definition mkLeg (ident : string) (ty : OptionType) (k : Q) (expiry : Z)
  (qty trade : Q) (closing : option Q) (closed : option Z)
  (on : option bool) : OptionLeg :=
  {| id := ident; optionType := ty; strike := k; expiryDate := expiry;
     quantity := qty; tradePrice := trade; closingPrice := closing;
     closingDate := closed; impliedVolatility := 15 # 100;
     openingCommission := Some 2; closingCommission := Some 2;
     enabled := on; currentPrice := None; currentIv := None |}.

Definition sampleMarket : MarketData :=
  {| daxSpot := 24500; daxVolatility := 18 # 100; riskFreeRate := 261 # 10000 |}.

(** Thirty days in milliseconds. *)
Definition days30 : Z := 2592000000.

(** A long call (open), a short put (closed at 80), a disabled call, and a
    call that expired a day before the sample clock's [now]. *)
Definition sampleOpenLeg : OptionLeg :=
  mkLeg "a" Call 24500 days30 2 300 None None None.

Definition sampleClosedLeg : OptionLeg :=
  mkLeg "b" Put 24000 days30 (-1) 120 (Some 80) (Some 5%Z) (Some true).

Definition sampleDisabledLeg : OptionLeg :=
  mkLeg "c" Call 25000 days30 1 90 None None (Some false).

Definition sampleExpiredLeg : OptionLeg :=
  mkLeg "e" Call 24000 (-86400000) 1 50 None None None.

Definition sampleLegs : list OptionLeg :=
  [sampleOpenLeg; sampleClosedLeg; sampleDisabledLeg].

Definition sampleStructure : Structure :=
  {| structure_id := "s1"; tag := "Condor 7"; legs := sampleLegs;
     status := Active; multiplier := 5; structure_closingDate := None;
     realizedPnl := None |}.

Definition sampleClosedStructure : Structure :=
  {| structure_id := "s2"; tag := "Condor 8"; legs := sampleLegs;
     status := Closed; multiplier := 5; structure_closingDate := Some 9%Z;
     realizedPnl := Some (- (241 # 2)) |}.

Definition sampleView : DetailView :=
  {| localStructure := sampleStructure; structures := [sampleStructure];
     isLiveMode := false; simulatedSpot := 24500 |}.

(** A kernel whose delta is the volatility it is given (minus it for a put):
    as with the closed-form model, pricing the same leg with another
    volatility gives another delta. *)
Definition sigmaKernel : PricingKernel := {|
  callPrice bs := Qmax 0 (bs_S bs - bs_K bs) + bs_sigma bs * bs_T bs * 100;
  putPrice bs := Qmax 0 (bs_K bs - bs_S bs) + bs_sigma bs * bs_T bs * 100;
  callGreeks bs := {| delta := bs_sigma bs; gamma := 1 # 100;
                      theta := - (3 # 1); vega := 20 # 1 |};
  putGreeks bs := {| delta := - bs_sigma bs; gamma := 1 # 100;
                     theta := - (3 # 1); vega := 20 # 1 |}
|}.

(** The detail view of the sample structure in live mode, at the market
    spot, once the store has been refreshed with the sample market data
    (VDAX 0.18, against 0.15 on the legs). *)
Definition sampleLiveView : DetailView :=
  {| localStructure := sampleStructure;
     structures :=
       value (refreshDaxSpot (kernel := sigmaKernel) sampleMarket
                (riskFreeRate sampleMarket) [sampleStructure]);
     isLiveMode := true;
     simulatedSpot := 24500 |}.

(** A disabled call that was closed at 40. *)
Definition sampleDisabledClosedLeg : OptionLeg :=
  mkLeg "d" Call 25000 days30 1 90 (Some 40) (Some 5%Z) (Some false).

(** A call on the next monthly expiry, thirty days after the others. *)
Definition sampleLaterLeg : OptionLeg :=
  mkLeg "f" Call 24600 (2 * days30) 1 410 None None None.

(** Three sampled points of a payoff curve around the spot 24500. *)
Definition samplePayoffCurve : list PayoffPoint :=
  [ {| spot := 24000; pnlExpiry := - (100 # 1); pnlSim := - (50 # 1) |};
    {| spot := 24510; pnlExpiry := 20; pnlSim := 35 |};
    {| spot := 25000; pnlExpiry := 400; pnlSim := 380 |} ].

(** A call struck at 100 on an underlying quoted at 100. *)
Definition sampleLowLeg : OptionLeg :=
  mkLeg "x" Call 100 days30 1 3 None None None.

(** A call struck at 24500, charted with the underlying at 20000. *)
Definition sampleFarLeg : OptionLeg :=
  mkLeg "w" Call 24500 days30 1 3 None None None.

(** The chart domains of the two, in binary64: the first at zoom 0, the
    second at zoom 32%. *)
Definition sampleLowDomain : ChartDomain :=
  chartDomain (arith := doubleArithmetic) 100 [] 100 0.

Definition sampleFarDomain : ChartDomain :=
  chartDomain (arith := doubleArithmetic) 24500 [] 20000 32.

Definition sampleClosedProps : PayoffChartProps :=
  {| p_legs := sampleLegs; p_marketData := sampleMarket; p_multiplier := 5;
     structureStatus := Some Closed; p_realizedPnl := Some (- (241 # 2)) |}.

(** Three Closed structures: two numbered ones whose serial order is the
    reverse of their closing order, and one without a serial. *)
Definition mkClosed (ident label : string) (closed : Z) (pnl : Q) : Structure :=
  {| structure_id := ident; tag := label; legs := []; status := Closed;
     multiplier := 5; structure_closingDate := Some closed;
     realizedPnl := Some pnl |}.

Definition sampleSecond : Structure := mkClosed "s-a" "Condor 2" 100 300.
Definition sampleFirst : Structure := mkClosed "s-b" "Condor 1" 200 (- (241 # 2)).
Definition sampleUnnumbered : Structure := mkClosed "s-c" "Hedge" 300 50.

Definition sampleLocale (t : Z) : string := "01 gen".

(* ------------------------------------------------------------------ *)
(** ** Portfolio analysis: chart axis, individual and monthly P&L *)

(** [minEquity] and [maxEquity]: the extremes of the emitted equities, the
    capital when nothing was emitted. *)
Definition minEquity (equityChartData : list EquityPoint)
  (safeInitialCapital : Q) : Q :=
  match map equity equityChartData with
  | [] => safeInitialCapital
  | e :: es => Math_min e es
  end.

Definition maxEquity (equityChartData : list EquityPoint)
  (safeInitialCapital : Q) : Q :=
  match map equity equityChartData with
  | [] => safeInitialCapital
  | e :: es => Math_max e es
  end.

(** The y-axis constants of the equity chart; the chart is drawn over
    [[finalYMin, yAxisMax]]. *)
Record EquityAxis := {
  yAxisMin : Q;
  yAxisMax : Q;
  finalYMin : Q
}.

Definition equityAxis (equityChartData : list EquityPoint)
  (safeInitialCapital : Q) : EquityAxis :=
  let minEquity' := minEquity equityChartData safeInitialCapital in
  let maxEquity' := maxEquity equityChartData safeInitialCapital in
  let domainPadding := (maxEquity' - minEquity') * (1 # 10) in
  let effectivePadding :=
    if Qeq_bool domainPadding 0 then safeInitialCapital * (1 # 100)
    else domainPadding in
  let yAxisMin' := inject_Z (Qfloor (minEquity' - effectivePadding)) in
  let yAxisMax' := inject_Z (Qceiling (maxEquity' + effectivePadding)) in
  {| yAxisMin := yAxisMin';
     yAxisMax := yAxisMax';
     finalYMin := Qmax 0 yAxisMin' |}.

(** A bar of the P&L bar charts: [{ name, pnl }]. *)
Record PnlBar := {
  bar_name : string;
  bar_pnl : Q
}.

(** [individualPnlData]; its comparator is the one of [equityChartData]. *)
Definition individualPnlData (structures : list Structure) : list PnlBar :=
  let closedStructures := filter isClosedStructure structures in
  map (fun structure =>
         {| bar_name := tag structure;
            bar_pnl := orZero (realizedPnl structure) |})
      (sortedStructures closedStructures).

(** [pnlByMonth[monthKey] = (pnlByMonth[monthKey] || 0) + x] on an object
    whose keys are kept in insertion order. *)
Fixpoint addToMonth (monthKey : string) (x : Q) (pnlByMonth : list (string * Q))
  : list (string * Q) :=
  match pnlByMonth with
  | [] => [(monthKey, 0 + x)]
  | (k, v) :: t =>
      if String.eqb k monthKey then (k, v + x) :: t
      else (k, v) :: addToMonth monthKey x t
  end.

Section MonthlyPnl.

(** The calendar month of a timestamp in local time, as ["YYYY-MM"]; the
    locale's string comparison; the month label of a key. *)
Variable monthKeyOf : Z -> string.
Variable localeCompare : string -> string -> Z.
Variable formatMonth : string -> string.

Definition pnlByMonth (closedStructures : list Structure) : list (string * Q) :=
  fold_left
    (fun obj structure =>
       addToMonth (monthKeyOf (getEffectiveClosingDate structure))
                  (orZero (realizedPnl structure)) obj)
    closedStructures [].

Definition monthlyPnlData (structures : list Structure) : list PnlBar :=
  let closedStructures := filter isClosedStructure structures in
  map (fun entry => {| bar_name := formatMonth (fst entry);
                       bar_pnl := snd entry |})
      (Array_sort (fun a b => (0 <? localeCompare (fst a) (fst b))%Z)
                  (pnlByMonth closedStructures)).

End MonthlyPnl.

(** Winning and losing trades, and a count as a number. *)
Definition winningTrades (structures : list Structure) : list Structure :=
  filter (fun s => Qltb 0 (pnlOf s)) (filter isClosedStructure structures).

Definition losingTrades (structures : list Structure) : list Structure :=
  filter (fun s => Qltb (pnlOf s) 0) (filter isClosedStructure structures).

Definition countOf {A} (l : list A) : Q := inject_Z (Z.of_nat (List.length l)).

(** What [pnlByMonth] maintains while the structures are processed: each key
    of the object is the month of a processed structure, occurs once, and
    holds the sum of the realized P&L of that month. *)
Definition monthsInvariant (monthKeyOf : Z -> string)
  (processed : list Structure) (obj : list (string * Q)) : Prop :=
  let keyOf := fun s => monthKeyOf (getEffectiveClosingDate s) in
  NoDup (map fst obj)
  /\ (forall k, In k (map fst obj) <-> In k (map keyOf processed))
  /\ (forall k v, In (k, v) obj ->
                  v == Qsum (map pnlOf
                               (filter (fun s => String.eqb (keyOf s) k)
                                       processed))).

(* ------------------------------------------------------------------ *)
(** ** List view: portfolio P&L, sorting and selection *)

Inductive Tab := ActiveTab | ClosedTab.
Inductive SortMethod := SortDate | SortSerial | SortCustom | SortPnl.
Inductive SortDirection := Asc | Desc.

(** The sorting state of the list view. *)
Record ListViewState := {
  activeTab : Tab;
  sortMethod : SortMethod;
  sortDirection : SortDirection;
  customOrder : list string
}.

(** [arr.indexOf(x)] *)
Fixpoint indexOfFrom (i : Z) (x : string) (l : list string) : Z :=
  match l with
  | [] => (-1)%Z
  | y :: t => if String.eqb y x then i else indexOfFrom (i + 1) x t
  end.

Definition indexOf (x : string) (l : list string) : Z := indexOfFrom 0 x l.

(** The comparator of the custom order. *)
Definition customCompare (customOrder : list string) (a b : Structure) : Q :=
  let indexA := indexOf (structure_id a) customOrder in
  let indexB := indexOf (structure_id b) customOrder in
  if (indexA =? -1)%Z then - (1)
  else if (indexB =? -1)%Z then 1
  else inject_Z (indexA - indexB).

(** [handleSelect]: a [Set] of ids is the list of its members in insertion
    order. *)
Definition handleSelect (ident : string) (prev : list string) : list string :=
  if existsb (String.eqb ident) prev
  then filter (fun x => negb (String.eqb x ident)) prev
  else prev ++ [ident].

Section ListView.

Context {kernel : PricingKernel} {clock : Clock}.

(** The [createdAt] timestamp of a structure, which the [Structure] record
    above does not carry. *)
Variable createdAt : Structure -> option Z.

Definition portfolioPnlStep (marketData : MarketData) (acc : PnlInfo)
  (structure : Structure) : Traced PnlInfo :=
  info <- calculatePnlInfoForStructure structure marketData ;;
  ret {| netPnl := netPnl acc + netPnl info;
         totalPoints := totalPoints acc + totalPoints info |}.

Definition totalPortfolioPnlInfo (structures : list Structure)
  (marketData : MarketData) : Traced PnlInfo :=
  let activeStructures := filter isActive structures in
  reduceM (portfolioPnlStep marketData) activeStructures
    {| netPnl := 0; totalPoints := 0 |}.

(** [a.createdAt ? new Date(a.createdAt).getTime() : 0] *)
Definition createdTime (s : Structure) : Z := getTime (createdAt s).

(** The comparator of the first sorting pass. *)
Definition firstPassCompare (method : SortMethod) (marketData : MarketData)
  (a b : Structure) : Q :=
  match method with
  | SortDate => inject_Z (createdTime b - createdTime a)
  | SortSerial => inject_Z (getSerial (tag b) - getSerial (tag a))
  | SortPnl =>
      value (calculateUnrealizedPnlForStructure a marketData)
      - value (calculateUnrealizedPnlForStructure b marketData)
  | SortCustom => 0
  end.

(** [comparison] in the final sorting pass. *)
Definition finalCompare (method : SortMethod) (marketData : MarketData)
  (a b : Structure) : Q :=
  match method with
  | SortDate => inject_Z (createdTime a - createdTime b)
  | SortSerial => inject_Z (getSerial (tag a) - getSerial (tag b))
  | SortPnl =>
      value (calculateUnrealizedPnlForStructure a marketData)
      - value (calculateUnrealizedPnlForStructure b marketData)
  | SortCustom => 0
  end.

(** [displayedStructures].  The comparators are evaluated for their values;
    how often the engine's sort calls them is not modelled. *)
Definition displayedStructures (st : ListViewState)
  (structures : list Structure) (marketData : MarketData) : list Structure :=
  let baseList :=
    match activeTab st with
    | ActiveTab => filter isActive structures
    | ClosedTab => filter isClosedStructure structures
    end in
  match sortMethod st with
  | SortCustom =>
      match customOrder st with
      | [] => baseList
      | _ => Array_sort (fun a b => Qltb 0 (customCompare (customOrder st) a b))
                        baseList
      end
  | method =>
      let sortedList :=
        Array_sort (fun a b => Qltb 0 (firstPassCompare method marketData a b))
                   baseList in
      Array_sort
        (fun a b =>
           Qltb 0 (match sortDirection st with
                   | Asc => finalCompare method marketData a b
                   | Desc => - finalCompare method marketData a b
                   end))
        sortedList
  end.

(** The quantity each sort method orders by. *)
Definition sortKey (st : ListViewState) (marketData : MarketData)
  (s : Structure) : Q :=
  match sortMethod st with
  | SortDate => inject_Z (createdTime s)
  | SortSerial => inject_Z (getSerial (tag s))
  | SortPnl => value (calculateUnrealizedPnlForStructure s marketData)
  | SortCustom => inject_Z (indexOf (structure_id s) (customOrder st))
  end.

Definition inDirection (st : ListViewState) (marketData : MarketData)
  (a b : Structure) : Prop :=
  match sortDirection st with
  | Asc => sortKey st marketData a <= sortKey st marketData b
  | Desc => sortKey st marketData b <= sortKey st marketData a
  end.

Definition tabList (st : ListViewState) (structures : list Structure)
  : list Structure :=
  match activeTab st with
  | ActiveTab => filter isActive structures
  | ClosedTab => filter isClosedStructure structures
  end.

End ListView.

(* ------------------------------------------------------------------ *)
(** ** Payoff chart: gradient offsets and the values at the spot *)

(** The body shared by [gradientOffsetSim] and [gradientOffsetExp]. *)
Definition gradientOffset (values : list Q) : Q :=
  match values with
  | [] => 0
  | v :: vs =>
      let max := Math_max v vs in
      let min := Math_min v vs in
      if Qle_bool max 0 then 0
      else if Qle_bool 0 min then 1
      else max / (max - min)
  end.

Definition gradientOffsetSim (data : list PayoffPoint) : Q :=
  gradientOffset (map pnlSim data).

Definition gradientOffsetExp (data : list PayoffPoint) : Q :=
  gradientOffset (map pnlExpiry data).

Record CurrentValues := {
  cv_exp : Q;
  cv_sim : Q
}.

(** The callback of [data.reduce] in [currentValues]. *)
Definition closerToSpot (daxSpot : Q) (prev curr : PayoffPoint) : PayoffPoint :=
  if Qltb (Qabs (spot curr - daxSpot)) (Qabs (spot prev - daxSpot))
  then curr else prev.

Definition currentValues (data : list PayoffPoint) (daxSpot : Q)
  : CurrentValues :=
  match data with
  | [] => {| cv_exp := 0; cv_sim := 0 |}
  | first :: rest =>
      let closest := fold_left (closerToSpot daxSpot) rest first in
      {| cv_exp := pnlExpiry closest; cv_sim := pnlSim closest |}
  end.

(* ------------------------------------------------------------------ *)
(** ** Portfolio store: the state updates of a deletion *)

(** [state.structures.filter(s => s.id !== structureId)], applied by
    [deleteStructure] once the rows are deleted. *)
Definition deleteStructure_update (structureId : string)
  (structures : list Structure) : list Structure :=
  filter (fun s => negb (String.eqb (structure_id s) structureId)) structures.

(** [state.structures.filter(s => !structureIds.includes(s.id))], applied by
    [deleteStructures]. *)
Definition deleteStructures_update (structureIds : list string)
  (structures : list Structure) : list Structure :=
  filter (fun s => negb (existsb (String.eqb (structure_id s)) structureIds))
         structures.

(** The [marketData] component of the state after a successful fetch:
    [{ ...state.marketData, daxSpot, daxVolatility, lastUpdate }]. *)
Definition refreshedMarketData (fetched storeMarket : MarketData) : MarketData :=
  {| daxSpot := daxSpot fetched;
     daxVolatility := daxVolatility fetched;
     riskFreeRate := riskFreeRate storeMarket |}.

(** Two legs that differ at most in the live fields [currentPrice] and
    [currentIv]. *)
Definition sameContract (l l' : OptionLeg) : Prop :=
  id l' = id l /\ optionType l' = optionType l /\ strike l' = strike l
  /\ expiryDate l' = expiryDate l /\ quantity l' = quantity l
  /\ tradePrice l' = tradePrice l /\ closingPrice l' = closingPrice l
  /\ closingDate l' = closingDate l
  /\ impliedVolatility l' = impliedVolatility l
  /\ openingCommission l' = openingCommission l
  /\ closingCommission l' = closingCommission l
  /\ enabled l' = enabled l.

(** Two structures with the same header and pairwise the same contracts. *)
Definition sameBook (s s' : Structure) : Prop :=
  structure_id s' = structure_id s /\ tag s' = tag s /\ status s' = status s
  /\ multiplier s' = multiplier s
  /\ structure_closingDate s' = structure_closingDate s
  /\ realizedPnl s' = realizedPnl s
  /\ Forall2 sameContract (legs s) (legs s').

(* ------------------------------------------------------------------ *)
(** ** Market data service ([services/marketData]) *)

(** How an awaited promise settles. *)
Inductive Outcome (E T : Type) : Type :=
| Rejected (error : E)
| Fulfilled (result : T).

Arguments Rejected {E T} error.
Arguments Fulfilled {E T} result.

(** What a call of [withRetry] did: how it settled (the rejection carries
    [lastError], which is [undefined] before the first failure), how many
    times it called [fn], and the delays it waited, in order. *)
Record RetryRun (E T : Type) := {
  settled : Outcome (option E) T;
  attempts : nat;
  waits : list Q
}.

Arguments settled {E T} r.
Arguments attempts {E T} r.
Arguments waits {E T} r.

(** The loop of [withRetry] from iteration [i], with [remaining] iterations
    left; [fn k] is how the [k]-th call of [fn] settles. *)
Fixpoint withRetry_loop {E T} (fn : nat -> Outcome E T) (maxRetries : nat)
  (baseDelay : Q) (remaining i : nat) (lastError : option E) (waited : list Q)
  : RetryRun E T :=
  match remaining with
  | O => {| settled := Rejected lastError; attempts := i; waits := waited |}
  | S remaining' =>
      match fn i with
      | Fulfilled result =>
          {| settled := Fulfilled result; attempts := S i; waits := waited |}
      | Rejected error =>
          let waited' :=
            if (i <? maxRetries - 1)%nat
            then waited ++ [baseDelay * inject_Z (2 ^ Z.of_nat i)]
            else waited in
          withRetry_loop fn maxRetries baseDelay remaining' (S i) (Some error)
            waited'
      end
  end.

Definition withRetry {E T} (fn : nat -> Outcome E T) (maxRetries : nat)
  (baseDelay : Q) : RetryRun E T :=
  withRetry_loop fn maxRetries baseDelay maxRetries 0 None [].

(** What the network gives one call of [fetchFromYahooViaProxy]. *)
Inductive ProxyResponse :=
| BrowserOffline
| FetchRejected
| HttpNotOk (status : Z)
| MalformedBody
| ChartBody (regularMarketPrice : option Q).

Inductive FetchError :=
| ErrOffline
| ErrFailedToFetch
| ErrProxy (status : Z)
| ErrParse
| ErrInvalidData.

Definition fetchFromYahooViaProxy (response : ProxyResponse)
  : Outcome FetchError Q :=
  match response with
  | BrowserOffline => Rejected ErrOffline
  | FetchRejected => Rejected ErrFailedToFetch
  | HttpNotOk status => Rejected (ErrProxy status)
  | MalformedBody => Rejected ErrParse
  | ChartBody (Some spot) =>
      if Qltb 0 spot then Fulfilled spot else Rejected ErrInvalidData
  | ChartBody None => Rejected ErrInvalidData
  end.

(** What the Gemini client gives [fetchDaxPriceViaGemini]. *)
Inductive GeminiResponse :=
| NoApiKey
| GeminiThrows
| GeminiAnswer (text : option string).

(** [text.replace(/[^0-9.]/g, '')] *)
Definition keepNumeric (text : string) : list ascii :=
  filter (fun c => isDigit c || Ascii.eqb c "."%char) (list_ascii_of_string text).

(** [parseFloat] on a string of digits and dots: the digits before the
    first dot and the digits between the first and the second dot; [None]
    is [NaN]. *)
Definition parseFloat (chars : list ascii) : option Q :=
  let intDigits := takeWhile isDigit chars in
  let rest := skipn (List.length intDigits) chars in
  let fracDigits :=
    match rest with
    | c :: rest' => if Ascii.eqb c "."%char then takeWhile isDigit rest' else []
    | [] => []
    end in
  match intDigits, fracDigits with
  | [], [] => None
  | _, _ =>
      Some (inject_Z (parseInt intDigits)
            + inject_Z (parseInt fracDigits)
              / inject_Z (10 ^ Z.of_nat (List.length fracDigits)))
  end.

Definition fetchDaxPriceViaGemini (response : GeminiResponse) : option Q :=
  match response with
  | NoApiKey => None
  | GeminiThrows => None
  | GeminiAnswer text =>
      let cleaned :=
        match text with
        | Some t => keepNumeric t
        | None => []
        end in
      match parseFloat cleaned with
      | Some price =>
          if Qltb 10000 price && Qltb price 40000 then Some price else None
      | None => None
      end
  end.

Record FetchedMarketData := {
  fetched_daxSpot : Q;
  fetched_daxVolatility : Q
}.

Definition corsproxy : string := "https://corsproxy.io/?url=".
Definition allorigins : string := "https://api.allorigins.win/get?url=".
Definition GDAXI : string := "%5EGDAXI".
Definition V1X : string := "%5EV1X".

Section MarketDataService.

(** The network: the response to the [k]-th request for a symbol through a
    proxy.  Each symbol and proxy is requested by one [withRetry] only. *)
Variable network : string -> string -> nat -> ProxyResponse.
Variable gemini : GeminiResponse.

Definition yahooWithRetry (symbol proxyBaseUrl : string) : RetryRun FetchError Q :=
  withRetry (fun k => fetchFromYahooViaProxy (network symbol proxyBaseUrl k))
            2 1000.

Definition fetchMarketData : option FetchedMarketData :=
  let daxSpot' :=
    match settled (yahooWithRetry GDAXI corsproxy) with
    | Fulfilled spot => Fulfilled spot
    | Rejected _ => settled (yahooWithRetry GDAXI allorigins)
    end in
  match daxSpot' with
  | Fulfilled daxSpot' =>
      let daxVolatility' :=
        match settled (yahooWithRetry V1X corsproxy) with
        | Fulfilled vol => vol
        | Rejected _ =>
            match settled (yahooWithRetry V1X allorigins) with
            | Fulfilled vol => vol
            | Rejected _ => 0
            end
        end in
      Some {| fetched_daxSpot := daxSpot';
              fetched_daxVolatility := daxVolatility' |}
  | Rejected _ =>
      match fetchDaxPriceViaGemini gemini with
      | Some spot =>
          if Qeq_bool spot 0 then None
          else Some {| fetched_daxSpot := spot; fetched_daxVolatility := 0 |}
      | None => None
      end
  end.

Definition fetchLiveDaxPrice : option Q :=
  match fetchMarketData with
  | Some data => Some (fetched_daxSpot data)
  | None => None
  end.

End MarketDataService.

(** A network on which every request fails, and one on which the first
    DAX request through the first proxy fails and the second succeeds. *)
Definition deadNetwork (symbol proxy : string) (k : nat) : ProxyResponse :=
  FetchRejected.

Definition flakyNetwork (symbol proxy : string) (k : nat) : ProxyResponse :=
  if String.eqb symbol GDAXI && String.eqb proxy corsproxy then
    match k with
    | O => HttpNotOk 503
    | _ => ChartBody (Some 24512)
    end
  else FetchRejected.

(** The delay [withRetry] waits after its [j]-th failed attempt. *)
Definition retryDelay (baseDelay : Q) (j : nat) : Q :=
  baseDelay * inject_Z (2 ^ Z.of_nat j).

(* ------------------------------------------------------------------ *)
(** ** Detail view: editing, closing and adding legs *)

(** A call [handleLegChange(id, field, value)]: the field and its value. *)
Inductive LegEdit :=
| SetOptionType (value : OptionType)
| SetStrike (value : Q)
| SetExpiryDate (value : Z)
| SetQuantity (value : Q)
| SetTradePrice (value : Q)
| SetClosingPrice (value : option Q)
| SetClosingDate (value : option Z)
| SetImpliedVolatility (value : Q)
| SetOpeningCommission (value : option Q)
| SetClosingCommission (value : option Q)
| SetEnabled (value : bool).

(** [{ ...leg, [field]: value }] *)
Definition applyEdit (edit : LegEdit) (leg : OptionLeg) : OptionLeg :=
  {| id := id leg;
     optionType :=
       match edit with SetOptionType v => v | _ => optionType leg end;
     strike := match edit with SetStrike v => v | _ => strike leg end;
     expiryDate :=
       match edit with SetExpiryDate v => v | _ => expiryDate leg end;
     quantity := match edit with SetQuantity v => v | _ => quantity leg end;
     tradePrice :=
       match edit with SetTradePrice v => v | _ => tradePrice leg end;
     closingPrice :=
       match edit with SetClosingPrice v => v | _ => closingPrice leg end;
     closingDate :=
       match edit with SetClosingDate v => v | _ => closingDate leg end;
     impliedVolatility :=
       match edit with
       | SetImpliedVolatility v => v
       | _ => impliedVolatility leg
       end;
     openingCommission :=
       match edit with
       | SetOpeningCommission v => v
       | _ => openingCommission leg
       end;
     closingCommission :=
       match edit with
       | SetClosingCommission v => v
       | _ => closingCommission leg
       end;
     enabled := match edit with SetEnabled v => Some v | _ => enabled leg end;
     currentPrice := currentPrice leg;
     currentIv := currentIv leg |}.

(** The automation of [handleLegChange]: a closing price that is entered
    stamps today's date on a leg without closing date. *)
Definition stampClosingDate (today : Z) (edit : LegEdit) (newLeg : OptionLeg)
  : OptionLeg :=
  match edit with
  | SetClosingPrice (Some _) =>
      match closingDate newLeg with
      | Some _ => newLeg
      | None =>
          {| id := id newLeg;
             optionType := optionType newLeg;
             strike := strike newLeg;
             expiryDate := expiryDate newLeg;
             quantity := quantity newLeg;
             tradePrice := tradePrice newLeg;
             closingPrice := closingPrice newLeg;
             closingDate := Some today;
             impliedVolatility := impliedVolatility newLeg;
             openingCommission := openingCommission newLeg;
             closingCommission := closingCommission newLeg;
             enabled := enabled newLeg;
             currentPrice := currentPrice newLeg;
             currentIv := currentIv newLeg |}
      end
  | _ => newLeg
  end.

Definition withLegs (s : Structure) (newLegs : list OptionLeg) : Structure :=
  {| structure_id := structure_id s;
     tag := tag s;
     legs := newLegs;
     status := status s;
     multiplier := multiplier s;
     structure_closingDate := structure_closingDate s;
     realizedPnl := realizedPnl s |}.

(** [handleLegChange]; [today] is the day [new Date()] falls on. *)
Definition handleLegChange (isReadOnly : bool) (today : Z) (ident : string)
  (edit : LegEdit) (localStructure : Structure) : Structure :=
  if isReadOnly then localStructure
  else
    withLegs localStructure
      (map (fun leg =>
              if String.eqb (id leg) ident
              then stampClosingDate today edit (applyEdit edit leg)
              else leg)
           (legs localStructure)).

(** [missingPrice] of [handleCloseAction]. *)
Definition missingPrice (localStructure : Structure) : bool :=
  existsb (fun l => negb (isLegClosed l)) (legs localStructure).

(** What [handleCloseAction] decides: to ask for the second click, to do
    nothing, to report the missing prices, or to save and close the
    structure with [finalPnl]. *)
Inductive CloseDecision :=
| AskConfirmation
| NothingToDo
| ReportMissingPrices
| SaveAndClose (finalPnl : Q).

(** [Number.prototype.toFixed(2)] read back by [parseFloat]: the nearest
    hundredth, a tie going away from zero. *)
Definition toFixed2 (x : Q) : Q :=
  if Qltb x 0
  then - (inject_Z (Qfloor (- x * 100 + (1 # 2))) / 100)
  else inject_Z (Qfloor (x * 100 + (1 # 2))) / 100.

(** [Math.round] *)
Definition Math_round (x : Q) : Q := inject_Z (Qfloor (x + (1 # 2))).

Record Settings := {
  defaultOpeningCommission : Q;
  defaultClosingCommission : Q
}.

Section DetailEditing.

Context {kernel : PricingKernel} {clock : Clock}.

(** [isStored] is ['id' in localStructure]; [analysis] is the memo. *)
Definition handleCloseAction (confirmClose isStored isSaving : bool)
  (view : DetailView) (marketData : MarketData) : CloseDecision :=
  if negb confirmClose then AskConfirmation
  else if negb isStored || isSaving then NothingToDo
  else if missingPrice (localStructure view) then ReportMissingPrices
  else SaveAndClose (pnl (totals (value (analysis view marketData)))).

Definition calculateLegFairValue (view : DetailView) (marketData : MarketData)
  (leg : OptionLeg) : Traced Q :=
  let timeToExpiry := getTimeToExpiry (expiryDate leg) in
  bs <- construct (simulatedSpot view) (strike leg) timeToExpiry
          (riskFreeRate marketData) (impliedVolatility leg) ;;
  ret (toFixed2 (price (optionType leg) bs)).

(** The leg [addLeg] appends; [newId] is the random id and [defaultExpiry]
    the third Friday of next month.  The opening date, a display field, is
    not part of the leg record. *)
Definition newLegOf (settings : Settings) (newId : string) (defaultExpiry : Z)
  (view : DetailView) (marketData : MarketData) : Traced OptionLeg :=
  let tempLeg :=
    {| id := "temp";
       optionType := Call;
       strike := Math_round (simulatedSpot view / 25) * 25;
       expiryDate := defaultExpiry;
       quantity := 1;
       tradePrice := 0;
       closingPrice := None;
       closingDate := None;
       impliedVolatility := 15;
       openingCommission := None;
       closingCommission := None;
       enabled := None;
       currentPrice := None;
       currentIv := None |} in
  initialFairValue <- calculateLegFairValue view marketData tempLeg ;;
  ret {| id := newId;
         optionType := Call;
         strike := Math_round (simulatedSpot view / 25) * 25;
         expiryDate := defaultExpiry;
         quantity := 1;
         tradePrice := initialFairValue;
         closingPrice := None;
         closingDate := None;
         impliedVolatility := 15;
         openingCommission := Some (defaultOpeningCommission settings);
         closingCommission := Some (defaultClosingCommission settings);
         enabled := Some true;
         currentPrice := None;
         currentIv := None |}.

Definition addLeg (isReadOnly : bool) (settings : Settings) (newId : string)
  (defaultExpiry : Z) (view : DetailView) (marketData : MarketData)
  : Traced Structure :=
  if isReadOnly then ret (localStructure view)
  else
    newLeg <- newLegOf settings newId defaultExpiry view marketData ;;
    ret (withLegs (localStructure view) (legs (localStructure view) ++ [newLeg])).

End DetailEditing.

(* ================================================================== *)
(** * Properties *)

(* ------------------------------------------------------------------ *)
(** ** Numbers and folds *)

Lemma Qltb_lt (a b : Q) : Qltb a b = true <-> a < b.
Proof.
  unfold Qltb. rewrite negb_true_iff.
  split; intro H.
  - apply Qnot_le_lt. intro Hle. apply Qle_bool_iff in Hle. congruence.
  - destruct (Qle_bool b a) eqn:E; [|reflexivity].
    apply Qle_bool_iff in E. exfalso. apply (Qlt_not_le _ _ H E).
Qed.

Lemma Qltb_ge (a b : Q) : Qltb a b = false <-> b <= a.
Proof.
  unfold Qltb. rewrite negb_false_iff. apply Qle_bool_iff.
Qed.

Lemma fold_left_Qplus_acc (l : list Q) (a : Q) :
  fold_left Qplus l a == a + Qsum l.
Proof.
  unfold Qsum. revert a.
  induction l as [|x l IH]; intros a; simpl.
  - ring.
  - rewrite (IH (a + x)), (IH (0 + x)). ring.
Qed.

Lemma Qsum_cons (x : Q) (l : list Q) : Qsum (x :: l) == x + Qsum l.
Proof.
  unfold Qsum at 1. simpl. rewrite fold_left_Qplus_acc. ring.
Qed.

Lemma Qsum_nil : Qsum [] == 0.
Proof. reflexivity. Qed.

(** A field of the accumulator of a reduce that grows by [contrib x] at each
    step ends as the initial field plus the sum of the contributions. *)
Lemma fold_left_field {A B} (step : B -> A -> B) (field : B -> Q)
  (contrib : A -> Q) :
  (forall acc x, field (step acc x) == field acc + contrib x) ->
  forall l acc,
    field (fold_left step l acc) == field acc + Qsum (map contrib l).
Proof.
  intros Hstep l.
  induction l as [|x l IH]; intros acc; simpl.
  - rewrite Qsum_nil. ring.
  - rewrite IH, Hstep, Qsum_cons. ring.
Qed.

(** Contributions that are zero outside [keep] can be dropped from the sum. *)
Lemma Qsum_map_filter {A} (keep : A -> bool) (f : A -> Q) (l : list A) :
  Qsum (map (fun x => if keep x then f x else 0) l)
  == Qsum (map f (filter keep l)).
Proof.
  induction l as [|x l IH]; simpl.
  - reflexivity.
  - rewrite Qsum_cons. destruct (keep x); simpl.
    + rewrite Qsum_cons, IH. reflexivity.
    + rewrite IH. ring.
Qed.

Lemma Qsum_map_ext_in {A} (f g : A -> Q) (l : list A) :
  (forall x, In x l -> f x == g x) -> Qsum (map f l) == Qsum (map g l).
Proof.
  induction l as [|x l IH]; intros H; simpl.
  - reflexivity.
  - rewrite !Qsum_cons, IH, (H x).
    + reflexivity.
    + now left.
    + intros y Hy. apply H. now right.
Qed.

Lemma Qsum_map_scale {A} (f : A -> Q) (c : Q) (l : list A) :
  Qsum (map (fun x => f x * c) l) == Qsum (map f l) * c.
Proof.
  induction l as [|x l IH]; simpl.
  - rewrite !Qsum_nil. ring.
  - rewrite !Qsum_cons, IH. ring.
Qed.

(* ------------------------------------------------------------------ *)
(** ** The trace monad *)

Lemma value_bind {A B} (m : Traced A) (f : A -> Traced B) :
  value (bind m f) = value (f (value m)).
Proof. reflexivity. Qed.

Lemma calls_bind {A B} (m : Traced A) (f : A -> Traced B) :
  calls (bind m f) = calls m ++ calls (f (value m)).
Proof. reflexivity. Qed.

Lemma value_reduceM {A B} (step : B -> A -> Traced B) (l : list A) (acc : B) :
  value (reduceM step l acc) = fold_left (fun a x => value (step a x)) l acc.
Proof.
  revert acc. induction l as [|x l IH]; intros acc; cbn [reduceM fold_left].
  - reflexivity.
  - rewrite value_bind. apply IH.
Qed.

Lemma value_mapM {A B} (f : A -> Traced B) (l : list A) :
  value (mapM f l) = map (fun x => value (f x)) l.
Proof.
  induction l as [|x l IH]; cbn [mapM map].
  - reflexivity.
  - rewrite !value_bind. cbn [value ret fst]. f_equal. apply IH.
Qed.

Lemma calls_mapM {A B} (f : A -> Traced B) (l : list A) :
  calls (mapM f l) = flat_map (fun x => calls (f x)) l.
Proof.
  induction l as [|x l IH]; cbn [mapM flat_map].
  - reflexivity.
  - rewrite !calls_bind, IH. cbn [calls ret snd]. now rewrite app_nil_r.
Qed.

(* ------------------------------------------------------------------ *)
(** ** PnL aggregation *)

Section PnlProperties.

Context {kernel : PricingKernel} {clock : Clock}.

Lemma value_pnlStep (s : Structure) (m : MarketData) (acc : PnlInfo)
  (leg : OptionLeg) :
  value (pnlStep s m acc leg) =
  if isEnabled leg then
    {| netPnl := netPnl acc + spec_netPnl (multiplier s) (listPrice m) leg;
       totalPoints := totalPoints acc + spec_pointsPnl (listPrice m) leg |}
  else acc.
Proof.
  unfold pnlStep, isEnabled. destruct (isDisabled leg); reflexivity.
Qed.

Lemma calculated_totalPoints (s : Structure) (m : MarketData) :
  totalPoints (value (calculated s m))
  == Qsum (map (spec_pointsPnl (listPrice m)) (enabledLegs (legs s))).
Proof.
  unfold calculated, enabledLegs. rewrite value_reduceM.
  rewrite (fold_left_field _ totalPoints
             (fun l => if isEnabled l then spec_pointsPnl (listPrice m) l else 0)).
  - rewrite Qsum_map_filter. simpl. ring.
  - intros acc x. rewrite value_pnlStep.
    destruct (isEnabled x); simpl; ring.
Qed.

Lemma calculated_netPnl (s : Structure) (m : MarketData) :
  netPnl (value (calculated s m))
  == Qsum (map (spec_netPnl (multiplier s) (listPrice m)) (enabledLegs (legs s))).
Proof.
  unfold calculated, enabledLegs. rewrite value_reduceM.
  rewrite (fold_left_field _ netPnl
             (fun l => if isEnabled l
                       then spec_netPnl (multiplier s) (listPrice m) l else 0)).
  - rewrite Qsum_map_filter. simpl. ring.
  - intros acc x. rewrite value_pnlStep.
    destruct (isEnabled x); simpl; ring.
Qed.

Lemma value_calculatePnlInfoForStructure (s : Structure) (m : MarketData) :
  value (calculatePnlInfoForStructure s m) =
  match status s, realizedPnl s with
  | Closed, Some r =>
      {| netPnl := r; totalPoints := totalPoints (value (calculated s m)) |}
  | _, _ => value (calculated s m)
  end.
Proof.
  unfold calculatePnlInfoForStructure. rewrite value_bind.
  destruct (status s); [reflexivity|].
  destruct (realizedPnl s); reflexivity.
Qed.

(** With distinct leg ids, the lookup of a row's leg finds the leg the row
    was computed from. *)
Lemma findLeg_self (ls : list OptionLeg) (l : OptionLeg) :
  NoDup (map id ls) -> In l ls -> findLeg (id l) ls = Some l.
Proof.
  unfold findLeg.
  induction ls as [|x ls IH]; intros Hnd Hin; simpl in *.
  - contradiction.
  - inversion Hnd as [|? ? Hnotin Hnd']; subst.
    destruct Hin as [->|Hin].
    + now rewrite String.eqb_refl.
    + destruct (String.eqb (id x) (id l)) eqn:E.
      * apply String.eqb_eq in E. exfalso. apply Hnotin.
        rewrite E. now apply in_map.
      * now apply IH.
Qed.

Lemma rowDisabled_analyseLeg (view : DetailView) (m : MarketData)
  (l : OptionLeg) :
  NoDup (map id (legs (localStructure view))) ->
  In l (legs (localStructure view)) ->
  rowDisabled view (value (analyseLeg view m l)) = isDisabled l.
Proof.
  intros Hnd Hin. unfold rowDisabled.
  change (la_id (value (analyseLeg view m l))) with (id l).
  now rewrite findLeg_self.
Qed.

(** A field of the detail-view totals that every enabled row feeds. *)
Lemma totals_field (view : DetailView) (m : MarketData)
  (field : Totals -> Q) (row : LegAnalysis -> Q) :
  field initialTotals == 0 ->
  (forall acc curr,
      field (totalsStep view acc curr)
      == field acc + (if negb (rowDisabled view curr) then row curr else 0)) ->
  NoDup (map id (legs (localStructure view))) ->
  field (totals (value (analysis view m)))
  == Qsum (map (fun l => row (value (analyseLeg view m l)))
               (enabledLegs (legs (localStructure view)))).
Proof.
  intros Hinit Hstep Hnd.
  unfold analysis. rewrite value_bind. cbn [value ret fst totals].
  fold (value (mapM (analyseLeg view m) (legs (localStructure view)))).
  rewrite value_mapM.
  rewrite (fold_left_field _ field _ Hstep), Hinit, map_map.
  unfold enabledLegs.
  rewrite <- (Qsum_map_filter isEnabled).
  rewrite Qplus_0_l.
  apply Qsum_map_ext_in. intros l Hl.
  rewrite (rowDisabled_analyseLeg view m l Hnd Hl).
  reflexivity.
Qed.

End PnlProperties.

Section PnlTheorems.

Context {kernel : PricingKernel} {clock : Clock}.

(** C1.  For every structure and market snapshot the PnL aggregators compute,
    per enabled leg, priceDiff = currentPrice - tradePrice, pointsPnl =
    priceDiff * quantity, grossPnl = pointsPnl * multiplier, commissions =
    (openingCommission + closingCommission) * |quantity| and netPnl =
    grossPnl - commissions, and sum them over the enabled legs only: the
    leg-level reduce of the list view (which is its result for an Active
    structure) and, for legs with distinct ids, the totals of the detail
    view.  Disabled legs do not occur in any of the sums. *)
Theorem pnl_aggregator_sums_enabled_legs
  (s : Structure) (m : MarketData) (view : DetailView) :
  totalPoints (value (calculated s m))
    == Qsum (map (spec_pointsPnl (listPrice m)) (enabledLegs (legs s)))
  /\ netPnl (value (calculated s m))
    == Qsum (map (spec_netPnl (multiplier s) (listPrice m)) (enabledLegs (legs s)))
  /\ (status s = Active ->
      value (calculatePnlInfoForStructure s m) = value (calculated s m))
  /\ (NoDup (map id (legs (localStructure view))) ->
      let t := totals (value (analysis view m)) in
      let ls := enabledLegs (legs (localStructure view)) in
      let mult := multiplier (localStructure view) in
      let cp := detailPrice view m in
      t_pnlPoints t == Qsum (map (spec_pointsPnl cp) ls)
      /\ gross t == Qsum (map (spec_grossPnl mult cp) ls)
      /\ comm t == Qsum (map spec_commissions ls)
      /\ pnl t == Qsum (map (spec_netPnl mult cp) ls)).
Proof.
  split; [apply calculated_totalPoints|].
  split; [apply calculated_netPnl|].
  split.
  - intros Hs. rewrite value_calculatePnlInfoForStructure, Hs. reflexivity.
  - intros Hnd. cbv zeta.
    assert (Hstep : forall (field : Totals -> Q) (row : LegAnalysis -> Q),
               field initialTotals == 0 ->
               (forall acc curr,
                   field (totalsStep view acc curr)
                   == field acc
                      + (if negb (rowDisabled view curr) then row curr else 0)) ->
               field (totals (value (analysis view m)))
               == Qsum (map (fun l => row (value (analyseLeg view m l)))
                            (enabledLegs (legs (localStructure view))))).
    { intros field row H0 H1. now apply totals_field. }
    repeat split.
    + apply (Hstep t_pnlPoints pnlPoints); [reflexivity|].
      intros acc curr. unfold totalsStep.
      destruct (rowDisabled view curr), (isClosed curr); simpl; ring.
    + apply (Hstep gross grossPnl); [reflexivity|].
      intros acc curr. unfold totalsStep.
      destruct (rowDisabled view curr), (isClosed curr); simpl; ring.
    + apply (Hstep comm commissions); [reflexivity|].
      intros acc curr. unfold totalsStep.
      destruct (rowDisabled view curr), (isClosed curr); simpl; ring.
    + apply (Hstep pnl la_netPnl); [reflexivity|].
      intros acc curr. unfold totalsStep.
      destruct (rowDisabled view curr), (isClosed curr); simpl; ring.
Qed.

(** C3.  For a structure whose status is Closed and whose realizedPnl is
    present, the list-view PnL aggregator returns the frozen realizedPnl as
    netPnl, and totalPoints from the leg-level recomputation (the sum of the
    points PnL of the enabled legs). *)
Theorem closed_structure_reports_realizedPnl
  (s : Structure) (m : MarketData) (r : Q) :
  status s = Closed ->
  realizedPnl s = Some r ->
  netPnl (value (calculatePnlInfoForStructure s m)) = r
  /\ totalPoints (value (calculatePnlInfoForStructure s m))
     = totalPoints (value (calculated s m))
  /\ totalPoints (value (calculatePnlInfoForStructure s m))
     == Qsum (map (spec_pointsPnl (listPrice m)) (enabledLegs (legs s))).
Proof.
  intros Hs Hr.
  rewrite value_calculatePnlInfoForStructure, Hs, Hr. cbn [netPnl totalPoints].
  repeat split. apply calculated_totalPoints.
Qed.

End PnlTheorems.

Lemma sampleLegs_distinct_ids : NoDup (map id sampleLegs).
Proof.
  repeat constructor; simpl; intuition discriminate.
Qed.

Lemma pnl_aggregator_sums_enabled_legs_witness :
  value (calculatePnlInfoForStructure sampleStructure sampleMarket)
  = value (calculated sampleStructure sampleMarket)
  /\ pnl (totals (value (analysis sampleView sampleMarket)))
     == Qsum (map (spec_netPnl 5 (detailPrice sampleView sampleMarket))
                  (enabledLegs sampleLegs)).
Proof.
  destruct (pnl_aggregator_sums_enabled_legs sampleStructure sampleMarket
              sampleView) as (_ & _ & Hactive & Hdetail).
  split.
  - apply Hactive. reflexivity.
  - apply Hdetail. exact sampleLegs_distinct_ids.
Defined.

Lemma closed_structure_reports_realizedPnl_witness :
  netPnl (value (calculatePnlInfoForStructure sampleClosedStructure sampleMarket))
  = - (241 # 2).
Proof.
  apply (closed_structure_reports_realizedPnl sampleClosedStructure sampleMarket
           (- (241 # 2))); reflexivity.
Defined.

(* ------------------------------------------------------------------ *)
(** ** Greeks aggregation *)

Lemma filter_filter_andb {A} (p q : A -> bool) (l : list A) :
  filter q (filter p l) = filter (fun x => p x && q x) l.
Proof.
  induction l as [|x l IH]; simpl.
  - reflexivity.
  - destruct (p x); simpl.
    + destruct (q x); now rewrite IH.
    + apply IH.
Qed.

Section GreeksProperties.

Context {kernel : PricingKernel} {clock : Clock}.

Lemma greeksStep_skips (m : MarketData) (acc : CalculatedGreeks)
  (leg : OptionLeg) :
  isEnabled leg && negb (isLegClosed leg) = false ->
  greeksStep m acc leg = ret acc.
Proof.
  unfold greeksStep, isEnabled.
  destruct (isDisabled leg), (isLegClosed leg); simpl; intros H;
    try reflexivity; discriminate.
Qed.

Lemma value_greeksStep (m : MarketData) (acc : CalculatedGreeks)
  (leg : OptionLeg) :
  value (greeksStep m acc leg) =
  if isEnabled leg && negb (isLegClosed leg) then
    {| delta := delta acc + delta (listGreeks m leg) * quantity leg;
       gamma := gamma acc + gamma (listGreeks m leg) * quantity leg;
       theta := theta acc + theta (listGreeks m leg) * quantity leg;
       vega := vega acc + vega (listGreeks m leg) * quantity leg |}
  else acc.
Proof.
  unfold greeksStep, isEnabled.
  destruct (isDisabled leg), (isLegClosed leg); reflexivity.
Qed.

Lemma value_calculateTotalGreeks (s : Structure) (m : MarketData) :
  value (calculateTotalGreeks s m)
  = fold_left (fun a x => value (greeksStep m a x)) (legs s) initialGreeks.
Proof.
  unfold calculateTotalGreeks. rewrite <- value_reduceM.
  destruct (legs s); reflexivity.
Qed.

(** A Greek of the list view is the sum of [greek * quantity] over the open,
    enabled legs. *)
Lemma list_greek_field (s : Structure) (m : MarketData)
  (field : CalculatedGreeks -> Q) :
  field initialGreeks == 0 ->
  (forall acc leg,
      field (value (greeksStep m acc leg))
      == field acc
         + (if isEnabled leg && negb (isLegClosed leg)
            then field (listGreeks m leg) * quantity leg else 0)) ->
  field (value (calculateTotalGreeks s m))
  == Qsum (map (fun l => field (listGreeks m l) * quantity l)
               (openEnabledLegs (legs s))).
Proof.
  intros H0 Hstep.
  rewrite value_calculateTotalGreeks.
  rewrite (fold_left_field _ field _ Hstep), H0, Qplus_0_l.
  unfold openEnabledLegs.
  now rewrite (Qsum_map_filter (fun l => isEnabled l && negb (isLegClosed l))).
Qed.

Lemma list_greeks_sums (s : Structure) (m : MarketData) :
  let g := value (calculateTotalGreeks s m) in
  let ls := openEnabledLegs (legs s) in
  delta g == Qsum (map (fun l => delta (listGreeks m l) * quantity l) ls)
  /\ gamma g == Qsum (map (fun l => gamma (listGreeks m l) * quantity l) ls)
  /\ theta g == Qsum (map (fun l => theta (listGreeks m l) * quantity l) ls)
  /\ vega g == Qsum (map (fun l => vega (listGreeks m l) * quantity l) ls).
Proof.
  cbv zeta.
  repeat split; apply list_greek_field; try reflexivity;
    intros acc leg; rewrite value_greeksStep;
    destruct (isEnabled leg && negb (isLegClosed leg)); simpl; ring.
Qed.

(** A Greek of the detail view: every row that is enabled and open feeds it. *)
Lemma detail_greek_field (view : DetailView) (m : MarketData)
  (field : Totals -> Q) (row : LegAnalysis -> Q) :
  field initialTotals == 0 ->
  (forall acc curr,
      field (totalsStep view acc curr)
      == field acc
         + (if negb (rowDisabled view curr)
            then (if negb (isClosed curr) then row curr else 0) else 0)) ->
  NoDup (map id (legs (localStructure view))) ->
  field (totals (value (analysis view m)))
  == Qsum (map (fun l => row (value (analyseLeg view m l)))
               (openEnabledLegs (legs (localStructure view)))).
Proof.
  intros H0 Hstep Hnd.
  rewrite (totals_field view m field
             (fun curr => if negb (isClosed curr) then row curr else 0) H0 Hstep Hnd).
  unfold openEnabledLegs, enabledLegs.
  rewrite <- filter_filter_andb.
  rewrite <- (Qsum_map_filter (fun l => negb (isLegClosed l))).
  reflexivity.
Qed.

Lemma detail_greeks_sums (view : DetailView) (m : MarketData) :
  NoDup (map id (legs (localStructure view))) ->
  let t := totals (value (analysis view m)) in
  let ls := openEnabledLegs (legs (localStructure view)) in
  let mult := multiplier (localStructure view) in
  let g := detailGreeks view m in
  t_delta t == Qsum (map (fun l => delta (g l) * quantity l * 100) ls)
  /\ t_gamma t == Qsum (map (fun l => gamma (g l) * quantity l) ls)
  /\ t_theta t == Qsum (map (fun l => theta (g l) * quantity l * mult) ls)
  /\ t_vega t == Qsum (map (fun l => vega (g l) * quantity l * mult) ls)
  /\ t_thetaPoints t == Qsum (map (fun l => theta (g l) * quantity l) ls)
  /\ t_vegaPoints t == Qsum (map (fun l => vega (g l) * quantity l) ls).
Proof.
  intros Hnd. cbv zeta.
  assert (Hstep : forall field row,
             field initialTotals == 0 ->
             (forall acc curr,
                 field (totalsStep view acc curr)
                 == field acc
                    + (if negb (rowDisabled view curr)
                       then (if negb (isClosed curr) then row curr else 0)
                       else 0)) ->
             field (totals (value (analysis view m)))
             == Qsum (map (fun l => row (value (analyseLeg view m l)))
                          (openEnabledLegs (legs (localStructure view))))).
  { intros field row H0 H1. now apply detail_greek_field. }
  repeat split.
  - apply (Hstep t_delta la_delta); [reflexivity|].
    intros acc curr. unfold totalsStep.
    destruct (rowDisabled view curr), (isClosed curr); simpl; ring.
  - apply (Hstep t_gamma la_gamma); [reflexivity|].
    intros acc curr. unfold totalsStep.
    destruct (rowDisabled view curr), (isClosed curr); simpl; ring.
  - apply (Hstep t_theta la_theta); [reflexivity|].
    intros acc curr. unfold totalsStep.
    destruct (rowDisabled view curr), (isClosed curr); simpl; ring.
  - apply (Hstep t_vega la_vega); [reflexivity|].
    intros acc curr. unfold totalsStep.
    destruct (rowDisabled view curr), (isClosed curr); simpl; ring.
  - apply (Hstep t_thetaPoints thetaPoints); [reflexivity|].
    intros acc curr. unfold totalsStep.
    destruct (rowDisabled view curr), (isClosed curr); simpl; ring.
  - apply (Hstep t_vegaPoints vegaPoints); [reflexivity|].
    intros acc curr. unfold totalsStep.
    destruct (rowDisabled view curr), (isClosed curr); simpl; ring.
Qed.

Lemma portfolio_greek_field (ss : list Structure) (m : MarketData)
  (field : PortfolioGreeks -> Q) (contrib : Structure -> Q) :
  (forall acc s,
      field (value (portfolioGreeksStep m acc s)) == field acc + contrib s) ->
  field {| pf_delta := 0; pf_gamma := 0; pf_theta := 0; pf_vega := 0;
           pf_thetaPoints := 0; pf_vegaPoints := 0 |} == 0 ->
  field (value (totalPortfolioGreeks ss m))
  == Qsum (map contrib (filter isActive ss)).
Proof.
  intros Hstep H0. unfold totalPortfolioGreeks.
  rewrite value_reduceM.
  rewrite (fold_left_field _ field contrib Hstep), H0. ring.
Qed.

End GreeksProperties.

Section GreeksTheorems.

Context {kernel : PricingKernel} {clock : Clock}.

(** C4 (as the code has it).  In the list view the aggregated Greeks are the
    sums of the per-leg delta, gamma, theta and vega times quantity over the
    open, enabled legs only, the per-leg Greeks being the kernel's call or
    put Greeks by the leg's type.  A leg that is disabled or closed leaves
    every accumulator of the list-view aggregator unchanged (and the kernel
    is not contacted for it).  The portfolio totals add the structure Greeks
    of the Active structures, theta and vega scaled by each structure's
    multiplier (currency) next to the unscaled points totals.  In the detail
    view, for legs with distinct ids, the sums run over the same open,
    enabled legs, but only gamma and the theta and vega points are the plain
    sums: the total delta is 100 times the sum of delta times quantity, and
    theta and vega are the points totals times the structure's multiplier. *)
Theorem greeks_sum_over_open_enabled_legs
  (s : Structure) (ss : list Structure) (m : MarketData) (view : DetailView) :
  (let g := value (calculateTotalGreeks s m) in
   let ls := openEnabledLegs (legs s) in
   delta g == Qsum (map (fun l => delta (listGreeks m l) * quantity l) ls)
   /\ gamma g == Qsum (map (fun l => gamma (listGreeks m l) * quantity l) ls)
   /\ theta g == Qsum (map (fun l => theta (listGreeks m l) * quantity l) ls)
   /\ vega g == Qsum (map (fun l => vega (listGreeks m l) * quantity l) ls))
  /\ (forall l,
        let bs := new_BlackScholes (daxSpot m) (strike l)
                    (getTimeToExpiry (expiryDate l)) (riskFreeRate m)
                    (impliedVolatility l) in
        let bs' := new_BlackScholes (simulatedSpot view) (strike l)
                     (getTimeToExpiry (expiryDate l)) (riskFreeRate m)
                     (volatilityToUse view l) in
        listGreeks m l
        = match optionType l with Call => callGreeks bs | Put => putGreeks bs end
        /\ detailGreeks view m l
           = match optionType l with
             | Call => callGreeks bs'
             | Put => putGreeks bs'
             end)
  /\ (forall acc leg,
        isDisabled leg = true \/ isLegClosed leg = true ->
        greeksStep m acc leg = ret acc)
  /\ (let p := value (totalPortfolioGreeks ss m) in
      let g := fun s' => value (calculateTotalGreeks s' m) in
      let active := filter isActive ss in
      pf_delta p == Qsum (map (fun s' => delta (g s')) active)
      /\ pf_gamma p == Qsum (map (fun s' => gamma (g s')) active)
      /\ pf_theta p == Qsum (map (fun s' => theta (g s') * multiplier s') active)
      /\ pf_vega p == Qsum (map (fun s' => vega (g s') * multiplier s') active)
      /\ pf_thetaPoints p == Qsum (map (fun s' => theta (g s')) active)
      /\ pf_vegaPoints p == Qsum (map (fun s' => vega (g s')) active))
  /\ (NoDup (map id (legs (localStructure view))) ->
      let t := totals (value (analysis view m)) in
      let ls := openEnabledLegs (legs (localStructure view)) in
      let mult := multiplier (localStructure view) in
      let g := detailGreeks view m in
      t_delta t == 100 * Qsum (map (fun l => delta (g l) * quantity l) ls)
      /\ t_gamma t == Qsum (map (fun l => gamma (g l) * quantity l) ls)
      /\ t_thetaPoints t == Qsum (map (fun l => theta (g l) * quantity l) ls)
      /\ t_vegaPoints t == Qsum (map (fun l => vega (g l) * quantity l) ls)
      /\ t_theta t == t_thetaPoints t * mult
      /\ t_vega t == t_vegaPoints t * mult).
Proof.
  split; [apply list_greeks_sums|].
  split.
  { intros l. cbv zeta. unfold listGreeks, detailGreeks, greeksOf.
    split; destruct (optionType l); reflexivity. }
  split.
  { intros acc leg H. apply greeksStep_skips. unfold isEnabled.
    destruct H as [-> | ->]; [reflexivity | apply andb_false_r]. }
  split.
  { cbv zeta.
    repeat split;
      (apply portfolio_greek_field; [|reflexivity]);
      intros acc s'; unfold portfolioGreeksStep; rewrite value_bind;
      simpl; ring. }
  intros Hnd. cbv zeta.
  destruct (detail_greeks_sums view m Hnd) as (Hd & Hg & Ht & Hv & Htp & Hvp).
  cbv zeta in Hd, Hg, Ht, Hv, Htp, Hvp.
  repeat split; try assumption.
  - rewrite Hd, (Qmult_comm 100). apply Qsum_map_scale.
  - rewrite Ht, Htp. apply Qsum_map_scale.
  - rewrite Hv, Hvp. apply Qsum_map_scale.
Qed.

(** With live mode off the detail view prices with the leg's own IV. *)
Lemma volatilityToUse_not_live (view : DetailView) (leg : OptionLeg) :
  isLiveMode view = false -> volatilityToUse view leg = impliedVolatility leg.
Proof.
  intros Hlive. unfold volatilityToUse. rewrite Hlive.
  destruct (find _ (structures view)) as [s|]; [|reflexivity].
  destruct (findLeg (id leg) (legs s)) as [sl|]; [|reflexivity].
  destruct (currentIv sl); reflexivity.
Qed.

(** C10 (as the code has it).  For the same structure and market snapshot
    and legs with distinct ids, the total delta of the detail view is
    exactly 100 times the total delta of the list view when the detail view
    prices at the market spot (simulated spot = market spot) and with each
    leg's own implied volatility (live mode off, or no live volatility in
    the store for the leg). *)
Theorem detail_delta_is_100_times_list_delta
  (view : DetailView) (m : MarketData) :
  NoDup (map id (legs (localStructure view))) ->
  simulatedSpot view = daxSpot m ->
  (forall l, In l (legs (localStructure view)) ->
             volatilityToUse view l = impliedVolatility l) ->
  t_delta (totals (value (analysis view m)))
  == 100 * delta (value (calculateTotalGreeks (localStructure view) m)).
Proof.
  intros Hnd Hspot Hvol.
  destruct (detail_greeks_sums view m Hnd) as (Hd & _).
  destruct (list_greeks_sums (localStructure view) m) as (Hl & _).
  cbv zeta in Hd, Hl. rewrite Hd, Hl.
  rewrite (Qmult_comm 100), <- Qsum_map_scale.
  apply Qsum_map_ext_in. intros l Hin.
  unfold detailGreeks, listGreeks.
  rewrite Hspot, Hvol.
  - reflexivity.
  - unfold openEnabledLegs in Hin. apply filter_In in Hin. tauto.
Qed.

End GreeksTheorems.

(** C4, as stated, fails for the delta of the detail view: on the sample
    structure the only open, enabled leg is two long calls of delta 1/2, so
    the sum of delta times quantity is 1, while the detail view totals 100. *)
Lemma detail_delta_is_not_the_plain_sum :
  Qsum (map (fun l => delta (detailGreeks sampleView sampleMarket l) * quantity l)
            (openEnabledLegs (legs (localStructure sampleView))))
  == 1
  /\ t_delta (totals (value (analysis sampleView sampleMarket))) == 100
  /\ ~ t_delta (totals (value (analysis sampleView sampleMarket)))
       == Qsum (map (fun l => delta (detailGreeks sampleView sampleMarket l)
                              * quantity l)
                    (openEnabledLegs (legs (localStructure sampleView)))).
Proof.
  split; [vm_compute; reflexivity|].
  split; [vm_compute; reflexivity|].
  intros H. vm_compute in H. discriminate H.
Qed.

Lemma greeks_sum_over_open_enabled_legs_witness :
  greeksStep sampleMarket initialGreeks sampleClosedLeg = ret initialGreeks
  /\ t_delta (totals (value (analysis sampleView sampleMarket)))
     == 100 * Qsum (map (fun l => delta (detailGreeks sampleView sampleMarket l)
                                  * quantity l)
                        (openEnabledLegs (legs (localStructure sampleView))))
  /\ t_theta (totals (value (analysis sampleView sampleMarket)))
     == t_thetaPoints (totals (value (analysis sampleView sampleMarket))) * 5.
Proof.
  destruct (greeks_sum_over_open_enabled_legs sampleStructure [sampleStructure]
              sampleMarket sampleView) as (_ & _ & Hskip & _ & Hdetail).
  split; [|split].
  - apply Hskip. right. reflexivity.
  - apply Hdetail. exact sampleLegs_distinct_ids.
  - apply Hdetail. exact sampleLegs_distinct_ids.
Defined.

(** C10, as stated, fails in live mode: for the same structure, market
    snapshot and legs, at the market spot, the detail view prices the open
    leg with the refreshed volatility of the store (0.18) while the list
    view prices it with the leg's own (0.15).  With a kernel whose delta
    follows the volatility the detail view totals 36, the list view 0.30. *)
Lemma live_detail_delta_is_not_100_times_list_delta :
  simulatedSpot sampleLiveView = daxSpot sampleMarket
  /\ volatilityToUse sampleLiveView sampleOpenLeg == 18 # 100
  /\ impliedVolatility sampleOpenLeg == 15 # 100
  /\ t_delta (totals (value (analysis (kernel := sigmaKernel)
                               sampleLiveView sampleMarket))) == 36
  /\ 100 * delta (value (calculateTotalGreeks (kernel := sigmaKernel)
                           (localStructure sampleLiveView) sampleMarket)) == 30
  /\ ~ t_delta (totals (value (analysis (kernel := sigmaKernel)
                                 sampleLiveView sampleMarket)))
       == 100 * delta (value (calculateTotalGreeks (kernel := sigmaKernel)
                                (localStructure sampleLiveView) sampleMarket)).
Proof.
  split; [reflexivity|].
  split; [vm_compute; reflexivity|].
  split; [vm_compute; reflexivity|].
  split; [vm_compute; reflexivity|].
  split; [vm_compute; reflexivity|].
  intros H. vm_compute in H. discriminate H.
Qed.

Lemma detail_delta_is_100_times_list_delta_witness :
  t_delta (totals (value (analysis sampleView sampleMarket)))
  == 100 * delta (value (calculateTotalGreeks sampleStructure sampleMarket)).
Proof.
  apply (detail_delta_is_100_times_list_delta sampleView sampleMarket).
  - exact sampleLegs_distinct_ids.
  - reflexivity.
  - intros l _. apply volatilityToUse_not_live. reflexivity.
Defined.

(* ------------------------------------------------------------------ *)
(** ** Closed and expired legs *)

Lemma calls_reduceM {A B} (step : B -> A -> Traced B)
  (c : A -> list BlackScholes) :
  (forall acc x, calls (step acc x) = c x) ->
  forall l acc, calls (reduceM step l acc) = flat_map c l.
Proof.
  intros Hstep l.
  induction l as [|x l IH]; intros acc; cbn [reduceM flat_map].
  - reflexivity.
  - now rewrite calls_bind, Hstep, IH.
Qed.

Section ValuationTheorems.

Context {kernel : PricingKernel} {clock : Clock}.

Lemma isLegClosed_closingPrice (leg : OptionLeg) (p : Q) :
  closingPrice leg = Some p -> ~ p == 0 -> isLegClosed leg = true.
Proof.
  intros Hp Hnz. unfold isLegClosed. rewrite Hp.
  destruct (Qeq_bool p 0) eqn:E; [|reflexivity].
  apply Qeq_bool_iff in E. contradiction.
Qed.

(** The kernel objects built by the list-view PnL aggregator are those of
    its enabled legs, in order. *)
Lemma calls_calculatePnlInfoForStructure (s : Structure) (m : MarketData) :
  calls (calculatePnlInfoForStructure s m)
  = flat_map (fun l => calls (listCurrentPrice m l)) (enabledLegs (legs s)).
Proof.
  unfold calculatePnlInfoForStructure. rewrite calls_bind.
  replace (calls (match status s with
                  | Active => ret (value (calculated s m))
                  | Closed =>
                      match realizedPnl s with
                      | Some r =>
                          ret {| netPnl := r;
                                 totalPoints := totalPoints (value (calculated s m)) |}
                      | None => ret (value (calculated s m))
                      end
                  end)) with (@nil BlackScholes)
    by (destruct (status s); [|destruct (realizedPnl s)]; reflexivity).
  rewrite app_nil_r. unfold calculated.
  rewrite (calls_reduceM _
             (fun l => if isEnabled l then calls (listCurrentPrice m l) else [])).
  - unfold enabledLegs.
    induction (legs s) as [|x l IH]; simpl; [reflexivity|].
    destruct (isEnabled x); simpl; now rewrite IH.
  - intros acc x. unfold pnlStep, isEnabled.
    destruct (isDisabled x); cbn [negb]; [reflexivity|].
    rewrite calls_bind. apply app_nil_r.
Qed.

(** C2 (as the code has it).  For a leg whose closingPrice is set and
    non-zero: the list-view PnL aggregation takes the frozen closingPrice as
    currentPrice and builds no kernel object for the leg (the kernel objects
    of an aggregation are those of the current prices of its enabled legs);
    the list-view Greeks aggregation skips the leg without contacting the
    kernel; the detail view marks the row closed and takes the frozen
    closingPrice as currentPrice; the live refresh returns unchanged, with
    no kernel contact, a leg that carries a closing date, and a Closed
    structure. *)
Theorem closed_leg_valuation_is_frozen (leg : OptionLeg) (p : Q) :
  closingPrice leg = Some p ->
  ~ p == 0 ->
  (forall m, listCurrentPrice m leg = ret p)
  /\ (forall s m,
        calls (calculatePnlInfoForStructure s m)
        = flat_map (fun l => calls (listCurrentPrice m l)) (enabledLegs (legs s)))
  /\ (forall m acc, greeksStep m acc leg = ret acc)
  /\ (forall view m,
        isClosed (value (analyseLeg view m leg)) = true
        /\ la_currentPrice (value (analyseLeg view m leg)) = p)
  /\ (forall spot vol rate d,
        closingDate leg = Some d -> refreshLeg spot vol rate leg = ret leg)
  /\ (forall spot vol rate s,
        status s = Closed -> refreshStructure spot vol rate s = ret s).
Proof.
  intros Hp Hnz.
  pose proof (isLegClosed_closingPrice leg p Hp Hnz) as Hclosed.
  split.
  { intros m. unfold listCurrentPrice. now rewrite Hclosed, Hp. }
  split; [intros s m; apply calls_calculatePnlInfoForStructure|].
  split.
  { intros m acc. apply greeksStep_skips. rewrite Hclosed. apply andb_false_r. }
  split.
  { intros view m. unfold analyseLeg. rewrite value_bind.
    cbn [value ret fst isClosed la_currentPrice].
    now rewrite Hclosed, Hp. }
  split.
  { intros spot vol rate d Hd. unfold refreshLeg. now rewrite Hd. }
  intros spot vol rate s Hs. unfold refreshStructure. now rewrite Hs.
Qed.

(** C5.  An open leg whose time to expiry is not positive is valued at its
    intrinsic value, max(0, spot - strike) for a call and max(0, strike -
    spot) for a put, without the closed-form kernel being contacted: by the
    list-view valuation when [getTimeToExpiry] is at most 0, by the payoff
    simulation when the remaining simulated time is below the epsilon 0.001,
    and by the live refresh (for a leg without closing date) when the year
    fraction to expiry is at most 0. *)
Theorem expired_open_leg_is_valued_at_intrinsic
  (m : MarketData) (leg : OptionLeg) :
  isLegClosed leg = false ->
  (getTimeToExpiry (expiryDate leg) <= 0 ->
   listCurrentPrice m leg
   = ret (match optionType leg with
          | Call => Qmax 0 (daxSpot m - strike leg)
          | Put => Qmax 0 (strike leg - daxSpot m)
          end))
  /\ (forall t_elapsed spot,
        Qmax 0 (getYearFraction now (expiryDate leg) - t_elapsed) < 1 # 1000 ->
        valSimulated m t_elapsed spot leg
        = ret (match optionType leg with
               | Call => Qmax 0 (spot - strike leg)
               | Put => Qmax 0 (strike leg - spot)
               end))
  /\ (forall spot vol rate,
        closingDate leg = None ->
        getYearFraction now (expiryDate leg) <= 0 ->
        calls (refreshLeg spot vol rate leg) = []
        /\ currentPrice (value (refreshLeg spot vol rate leg))
           = Some (match optionType leg with
                   | Call => Qmax 0 (spot - strike leg)
                   | Put => Qmax 0 (strike leg - spot)
                   end)).
Proof.
  intros Hopen.
  split.
  { intros Ht. unfold listCurrentPrice. rewrite Hopen.
    apply Qltb_ge in Ht. rewrite Ht.
    destruct (optionType leg); reflexivity. }
  split.
  { intros t_elapsed spot Ht. unfold valSimulated.
    apply Qltb_lt in Ht. rewrite Ht.
    destruct (optionType leg); reflexivity. }
  intros spot vol rate Hdate Ht. unfold refreshLeg. rewrite Hdate.
  apply Qle_bool_iff in Ht. rewrite Ht.
  destruct (optionType leg); split; reflexivity.
Qed.

End ValuationTheorems.

(** C2, as stated, fails in the detail view: [analysis] builds a
    [BlackScholes] object for the closed sample leg as for any other. *)
Lemma detail_view_contacts_kernel_for_closed_leg :
  closingPrice sampleClosedLeg = Some 80
  /\ ~ 80 == 0
  /\ calls (analyseLeg sampleView sampleMarket sampleClosedLeg)
     = [new_BlackScholes 24500 24000 (getTimeToExpiry days30)
          (riskFreeRate sampleMarket) (15 # 100)]
  /\ calls (analyseLeg sampleView sampleMarket sampleClosedLeg) <> [].
Proof.
  repeat split; try reflexivity; discriminate.
Qed.

Lemma closed_leg_valuation_is_frozen_witness :
  listCurrentPrice sampleMarket sampleClosedLeg = ret 80
  /\ refreshLeg 24500 (18 # 100) (261 # 10000) sampleClosedLeg = ret sampleClosedLeg.
Proof.
  assert (Hp : closingPrice sampleClosedLeg = Some 80) by reflexivity.
  assert (Hnz : ~ 80 == 0) by discriminate.
  destruct (closed_leg_valuation_is_frozen sampleClosedLeg 80 Hp Hnz)
    as (Hlist & _ & _ & _ & Hrefresh & _).
  split.
  - apply Hlist.
  - apply (Hrefresh _ _ _ 5%Z). reflexivity.
Defined.

Lemma expired_open_leg_is_valued_at_intrinsic_witness :
  listCurrentPrice sampleMarket sampleExpiredLeg = ret (Qmax 0 (24500 - 24000))
  /\ valSimulated sampleMarket 0 24100 sampleExpiredLeg
     = ret (Qmax 0 (24100 - 24000))
  /\ currentPrice (value (refreshLeg 24500 (18 # 100) (261 # 10000)
                            sampleExpiredLeg))
     = Some (Qmax 0 (24500 - 24000)).
Proof.
  assert (Hopen : isLegClosed sampleExpiredLeg = false) by reflexivity.
  destruct (expired_open_leg_is_valued_at_intrinsic sampleMarket
              sampleExpiredLeg Hopen) as (Hlist & Hsim & Hrefresh).
  split; [|split].
  - apply Hlist. vm_compute. discriminate.
  - apply Hsim. vm_compute. reflexivity.
  - apply Hrefresh; [reflexivity | vm_compute; discriminate].
Defined.

(* ------------------------------------------------------------------ *)
(** ** [Array_sort] *)

Section SortProperties.

Context {A : Type} (gt : A -> A -> bool).

Lemma insertSorted_perm (x : A) (l : list A) :
  Permutation (insertSorted gt x l) (x :: l).
Proof.
  induction l as [|y l IH]; simpl.
  - reflexivity.
  - destruct (gt x y).
    + rewrite IH. apply perm_swap.
    + reflexivity.
Qed.

Lemma Array_sort_perm (l : list A) : Permutation (Array_sort gt l) l.
Proof.
  induction l as [|x l IH]; simpl.
  - reflexivity.
  - rewrite insertSorted_perm. now constructor.
Qed.

(** [R] is an order the comparator decides on the elements at hand. *)
Variable R : A -> A -> Prop.
Hypothesis R_trans : forall a b c, R a b -> R b c -> R a c.

Lemma insertSorted_sorted (x : A) (l : list A) :
  (forall y, In y l -> gt x y = true -> R y x) ->
  (forall y, In y l -> gt x y = false -> R x y) ->
  StronglySorted R l ->
  StronglySorted R (insertSorted gt x l).
Proof.
  intros Hgt Hle Hs.
  induction Hs as [|y l Hs IH Hall]; simpl.
  - repeat constructor.
  - destruct (gt x y) eqn:E.
    + constructor.
      * apply IH; intros z Hz; [apply Hgt | apply Hle]; now right.
      * apply (Permutation_Forall (Permutation_sym (insertSorted_perm x l))).
        constructor; [|assumption].
        apply Hgt; [now left | assumption].
    + assert (Hxy : R x y) by (apply Hle; [now left | assumption]).
      constructor; [now constructor|].
      constructor; [assumption|].
      eapply Forall_impl; [|exact Hall].
      intros z Hz. now apply (R_trans x y z).
Qed.

Lemma Array_sort_sorted (l : list A) :
  (forall x y, In x l -> In y l -> gt x y = true -> R y x) ->
  (forall x y, In x l -> In y l -> gt x y = false -> R x y) ->
  StronglySorted R (Array_sort gt l).
Proof.
  induction l as [|x l IH]; intros Hgt Hle; simpl.
  - constructor.
  - apply insertSorted_sorted.
    + intros y Hy. apply Hgt; [now left | right].
      apply (Permutation_in _ (Array_sort_perm l) Hy).
    + intros y Hy. apply Hle; [now left | right].
      apply (Permutation_in _ (Array_sort_perm l) Hy).
    + apply IH; intros a b Ha Hb; [apply Hgt | apply Hle]; now right.
Qed.

End SortProperties.

(** Stability: elements the comparator never orders keep their input order,
    so sorting by a key that is already ascending changes nothing. *)
Lemma Array_sort_stable {A} (gt : A -> A -> bool) (l : list A) :
  StronglySorted (fun a b => gt a b = false) l -> Array_sort gt l = l.
Proof.
  induction 1 as [|x l Hs IH Hall]; simpl.
  - reflexivity.
  - rewrite IH. destruct l as [|y l']; simpl; [reflexivity|].
    inversion Hall as [|? ? Hxy _]; subst. now rewrite Hxy.
Qed.

Lemma Array_sort_numbers_sorted (l : list Q) :
  StronglySorted Qle (Array_sort (fun a b => Qltb 0 (a - b)) l).
Proof.
  apply Array_sort_sorted.
  - intros a b c. apply Qle_trans.
  - intros x y _ _ H. apply Qltb_lt in H. lra.
  - intros x y _ _ H. apply Qltb_ge in H. lra.
Qed.

(* ------------------------------------------------------------------ *)
(** ** The payoff grid *)

Lemma Math_min_le (x : Q) (l : list Q) :
  Math_min x l <= x /\ Forall (fun y => Math_min x l <= y) l.
Proof.
  unfold Math_min. revert x.
  induction l as [|y l IH]; intros x; simpl.
  - split; [apply Qle_refl | constructor].
  - destruct (IH (Qmin x y)) as [H1 H2].
    pose proof (Q.le_min_l x y). pose proof (Q.le_min_r x y).
    split; [lra|]. constructor; [lra | assumption].
Qed.

Lemma Math_max_ge (x : Q) (l : list Q) :
  x <= Math_max x l /\ Forall (fun y => y <= Math_max x l) l.
Proof.
  unfold Math_max. revert x.
  induction l as [|y l IH]; intros x; simpl.
  - split; [apply Qle_refl | constructor].
  - destruct (IH (Qmax x y)) as [H1 H2].
    pose proof (Q.le_max_l x y). pose proof (Q.le_max_r x y).
    split; [lra|]. constructor; [lra | assumption].
Qed.

(** [Math.min] returns one of its arguments. *)
Lemma Math_min_attained (x : Q) (l : list Q) :
  Exists (fun y => Math_min x l == y) (x :: l).
Proof.
  unfold Math_min. revert x.
  induction l as [|y l IH]; intros x; simpl.
  - left. reflexivity.
  - specialize (IH (Qmin x y)).
    inversion IH as [? ? H | ? ? H]; subst.
    + destruct (Q.min_spec x y) as [[_ E] | [_ E]].
      * left. now rewrite H.
      * right. left. now rewrite H.
    + right. now right.
Qed.

Lemma Math_max_attained (x : Q) (l : list Q) :
  Exists (fun y => Math_max x l == y) (x :: l).
Proof.
  unfold Math_max. revert x.
  induction l as [|y l IH]; intros x; simpl.
  - left. reflexivity.
  - specialize (IH (Qmax x y)).
    inversion IH as [? ? H | ? ? H]; subst.
    + destruct (Q.max_spec x y) as [[_ E] | [_ E]].
      * right. left. now rewrite H.
      * left. now rewrite H.
    + right. now right.
Qed.

(** *** Rounded arithmetic *)

(** *** Powers of two *)

Lemma pow2_pos (e : Z) : 0 < 2 ^ e.
Proof. apply Qpower_0_lt. reflexivity. Qed.

Lemma pow2_le (a b : Z) : (a <= b)%Z -> 2 ^ a <= 2 ^ b.
Proof. intros H. apply Qpower_le_compat_l; [assumption | discriminate]. Qed.

Lemma pow2_lt (a b : Z) : (a < b)%Z -> 2 ^ a < 2 ^ b.
Proof. intros H. apply Qpower_lt_compat_l; [assumption | reflexivity]. Qed.

Lemma pow2_plus (a b : Z) : 2 ^ (a + b) == 2 ^ a * 2 ^ b.
Proof. apply Qpower_plus. discriminate. Qed.

Lemma pow2_succ (a : Z) : 2 ^ (a + 1) == 2 ^ a * 2.
Proof. rewrite pow2_plus. reflexivity. Qed.

Lemma pow2_cancel (e : Z) : 2 ^ e * 2 ^ (- e) == 1.
Proof. rewrite <- pow2_plus. now replace (e + - e)%Z with 0%Z by lia. Qed.

Lemma pow2_inject (n : Z) : (0 <= n)%Z -> inject_Z (2 ^ n) == 2 ^ n.
Proof. intros H. now rewrite Zpower_Qpower. Qed.

(** *** The binary exponent of a positive rational *)

Lemma ilog2_spec (q : Q) :
  0 < q -> 2 ^ ilog2 q <= q /\ q < 2 ^ (ilog2 q + 1).
Proof.
  intros Hq. unfold ilog2.
  destruct q as [n d]. cbn [Qnum Qden].
  assert (Hn : (0 < n)%Z).
  { unfold Qlt in Hq. simpl in Hq. lia. }
  destruct (Z.log2_spec n Hn) as [Ha1 Ha2].
  destruct (Z.log2_spec (Zpos d) (Pos2Z.is_pos d)) as [Hb1 Hb2].
  pose proof (Z.log2_nonneg n) as Ha0.
  pose proof (Z.log2_nonneg (Zpos d)) as Hb0.
  set (a := Z.log2 n) in *. set (b := Z.log2 (Zpos d)) in *.
  assert (Eq : n # d == inject_Z n / inject_Z (Zpos d)) by apply Qmake_Qdiv.
  assert (Hd : 0 < inject_Z (Zpos d)) by reflexivity.
  assert (Qa1 : 2 ^ a <= inject_Z n).
  { rewrite <- pow2_inject by assumption. now rewrite <- Zle_Qle. }
  assert (Qa2 : inject_Z n < 2 ^ (a + 1)).
  { rewrite <- pow2_inject by lia. rewrite <- Zlt_Qlt.
    now replace (a + 1)%Z with (Z.succ a) by lia. }
  assert (Qb1 : 2 ^ b <= inject_Z (Zpos d)).
  { rewrite <- pow2_inject by assumption. now rewrite <- Zle_Qle. }
  assert (Qb2 : inject_Z (Zpos d) < 2 ^ (b + 1)).
  { rewrite <- pow2_inject by lia. rewrite <- Zlt_Qlt.
    now replace (b + 1)%Z with (Z.succ b) by lia. }
  assert (Hup : n # d < 2 ^ (a - b + 1)).
  { rewrite Eq. apply Qlt_shift_div_r; [assumption|].
    replace (a - b + 1)%Z with ((a + 1) + - b)%Z by lia.
    rewrite pow2_plus.
    pose proof (pow2_cancel b) as Hc. pose proof (pow2_pos (- b)) as Hnb.
    pose proof (pow2_pos (a + 1)) as Hpa.
    apply Qlt_le_trans with (2 ^ (a + 1)); [assumption|].
    rewrite <- (Qmult_1_r (2 ^ (a + 1))) at 1. rewrite <- Hc.
    rewrite (Qmult_comm (2 ^ b)), Qmult_assoc.
    apply Qmult_le_l; [|assumption].
    apply Qmult_lt_0_compat; assumption. }
  assert (Hlo : 2 ^ (a - b - 1) <= n # d).
  { rewrite Eq. apply Qle_shift_div_l; [assumption|].
    apply Qle_trans with (2 ^ (a - b - 1) * 2 ^ (b + 1)).
    - apply Qmult_le_l; [apply pow2_pos|]. now apply Qlt_le_weak.
    - rewrite <- pow2_plus.
      now replace (a - b - 1 + (b + 1))%Z with a by lia. }
  destruct (Qle_bool (2 ^ (a - b)) (n # d)) eqn:E.
  - apply Qle_bool_iff in E. now split.
  - split; [assumption|].
    replace (a - b - 1 + 1)%Z with (a - b)%Z by lia.
    apply Qnot_le_lt. intros H. apply Qle_bool_iff in H. congruence.
Qed.

Lemma ilog2_unique (q : Q) (e : Z) :
  2 ^ e <= q -> q < 2 ^ (e + 1) -> ilog2 q = e.
Proof.
  intros Hlo Hhi.
  assert (Hq : 0 < q) by (pose proof (pow2_pos e); lra).
  destruct (ilog2_spec q Hq) as [Slo Shi].
  destruct (Z.lt_trichotomy (ilog2 q) e) as [H | [H | H]]; [|assumption|].
  - pose proof (pow2_le (ilog2 q + 1) e ltac:(lia)). lra.
  - pose proof (pow2_le (e + 1) (ilog2 q) ltac:(lia)). lra.
Qed.

Lemma ilog2_monotone (a b : Q) : 0 < a -> a <= b -> (ilog2 a <= ilog2 b)%Z.
Proof.
  intros Ha Hab.
  destruct (ilog2_spec a Ha) as [Alo Ahi].
  destruct (ilog2_spec b ltac:(lra)) as [Blo Bhi].
  destruct (Z_le_gt_dec (ilog2 a) (ilog2 b)) as [H | H]; [assumption|].
  pose proof (pow2_le (ilog2 b + 1) (ilog2 a) ltac:(lia)). lra.
Qed.

(** *** Rounding to the nearest integer, ties to even *)

Lemma roundHalfEven_cases (x : Q) :
  roundHalfEven x = Qfloor x \/ roundHalfEven x = (Qfloor x + 1)%Z.
Proof.
  unfold roundHalfEven.
  destruct (Qltb _ _); [now left|].
  destruct (Qltb _ _); [now right|].
  destruct (Z.even _); [now left | now right].
Qed.

Lemma roundHalfEven_Z (n : Z) : roundHalfEven (inject_Z n) = n.
Proof.
  unfold roundHalfEven. rewrite Qfloor_Z.
  assert (E : Qltb (inject_Z n - inject_Z n) (1 # 2) = true)
    by (apply Qltb_lt; lra).
  now rewrite E.
Qed.

Lemma roundHalfEven_comp (x y : Q) : x == y -> roundHalfEven x = roundHalfEven y.
Proof.
  intros H. unfold roundHalfEven.
  rewrite (Qfloor_comp _ _ H).
  set (f := Qfloor y).
  assert (E1 : Qltb (x - inject_Z f) (1 # 2) = Qltb (y - inject_Z f) (1 # 2)).
  { destruct (Qltb (y - inject_Z f) (1 # 2)) eqn:E.
    - apply Qltb_lt in E. apply Qltb_lt. lra.
    - apply Qltb_ge in E. apply Qltb_ge. lra. }
  assert (E2 : Qltb (1 # 2) (x - inject_Z f) = Qltb (1 # 2) (y - inject_Z f)).
  { destruct (Qltb (1 # 2) (y - inject_Z f)) eqn:E.
    - apply Qltb_lt in E. apply Qltb_lt. lra.
    - apply Qltb_ge in E. apply Qltb_ge. lra. }
  now rewrite E1, E2.
Qed.

Lemma roundHalfEven_monotone (x y : Q) :
  x <= y -> (roundHalfEven x <= roundHalfEven y)%Z.
Proof.
  intros Hxy.
  pose proof (Qfloor_resp_le _ _ Hxy) as Hf.
  destruct (Z.eq_dec (Qfloor x) (Qfloor y)) as [E | NE].
  - unfold roundHalfEven. rewrite E. set (f := Qfloor y).
    destruct (Qltb (x - inject_Z f) (1 # 2)) eqn:X1.
    + destruct (Qltb (y - inject_Z f) (1 # 2)); [lia|].
      destruct (Qltb (1 # 2) (y - inject_Z f)); [lia|].
      destruct (Z.even f); lia.
    + apply Qltb_ge in X1.
      assert (Y1 : Qltb (y - inject_Z f) (1 # 2) = false)
        by (apply Qltb_ge; lra).
      rewrite Y1.
      destruct (Qltb (1 # 2) (x - inject_Z f)) eqn:X2.
      * apply Qltb_lt in X2.
        assert (Y2 : Qltb (1 # 2) (y - inject_Z f) = true)
          by (apply Qltb_lt; lra).
        rewrite Y2. lia.
      * destruct (Qltb (1 # 2) (y - inject_Z f)); [destruct (Z.even f); lia|].
        lia.
  - destruct (roundHalfEven_cases x) as [-> | ->];
      destruct (roundHalfEven_cases y) as [-> | ->]; lia.
Qed.

(** *** Rounding a positive rational to 53 significant bits *)

Lemma nearest53_form (q : Q) :
  0 < q ->
  exists M : Z,
    nearest53 q == inject_Z M * 2 ^ (ilog2 q - 52)
    /\ (2 ^ 52 <= M <= 2 ^ 53)%Z.
Proof.
  intros Hq. destruct (ilog2_spec q Hq) as [Hlo Hhi].
  set (E := ilog2 q) in *. unfold nearest53. fold E.
  set (e := (E - 52)%Z).
  set (s := q * 2 ^ (- e)).
  exists (roundHalfEven s). split; [reflexivity|].
  pose proof (pow2_pos (- e)) as Hpe.
  assert (Hs1 : inject_Z (2 ^ 52) <= s).
  { unfold s. rewrite pow2_inject by lia.
    replace 52%Z with (E + - e)%Z by (unfold e; lia).
    rewrite pow2_plus. apply Qmult_le_compat_r; lra. }
  assert (Hs2 : s <= inject_Z (2 ^ 53)).
  { unfold s. rewrite pow2_inject by lia.
    replace 53%Z with ((E + 1) + - e)%Z by (unfold e; lia).
    rewrite pow2_plus. apply Qmult_le_compat_r; lra. }
  apply roundHalfEven_monotone in Hs1. apply roundHalfEven_monotone in Hs2.
  rewrite roundHalfEven_Z in Hs1, Hs2. lia.
Qed.

Lemma nearest53_bounds (q : Q) :
  0 < q -> 2 ^ ilog2 q <= nearest53 q /\ nearest53 q <= 2 ^ (ilog2 q + 1).
Proof.
  intros Hq. destruct (nearest53_form q Hq) as (M & EM & HM1 & HM2).
  rewrite EM. set (E := ilog2 q).
  pose proof (pow2_pos (E - 52)) as Hp.
  split.
  - replace E with (52 + (E - 52))%Z at 1 by lia.
    rewrite pow2_plus, <- (pow2_inject 52) by lia.
    apply Qmult_le_compat_r; [|lra]. now rewrite <- Zle_Qle.
  - replace (E + 1)%Z with (53 + (E - 52))%Z by lia.
    rewrite pow2_plus, <- (pow2_inject 53) by lia.
    apply Qmult_le_compat_r; [|lra]. now rewrite <- Zle_Qle.
Qed.

Lemma nearest53_positive (q : Q) : 0 < q -> 0 < nearest53 q.
Proof.
  intros Hq. destruct (nearest53_bounds q Hq) as [H _].
  pose proof (pow2_pos (ilog2 q)). lra.
Qed.

Lemma nearest53_monotone (a b : Q) :
  0 < a -> a <= b -> nearest53 a <= nearest53 b.
Proof.
  intros Ha Hab.
  assert (Hb : 0 < b) by lra.
  pose proof (ilog2_monotone a b Ha Hab) as He.
  destruct (Z.eq_dec (ilog2 a) (ilog2 b)) as [E | NE].
  - unfold nearest53. rewrite E.
    apply Qmult_le_compat_r; [|apply Qlt_le_weak, pow2_pos].
    rewrite <- Zle_Qle. apply roundHalfEven_monotone.
    apply Qmult_le_compat_r; [assumption | apply Qlt_le_weak, pow2_pos].
  - destruct (nearest53_bounds a Ha) as [_ H1].
    destruct (nearest53_bounds b Hb) as [H2 _].
    pose proof (pow2_le (ilog2 a + 1) (ilog2 b) ltac:(lia)). lra.
Qed.

(** A number [M * 2^e] with a significand [2^52 <= M <= 2^53] is not
    changed. *)
Lemma nearest53_fixed (M e : Z) :
  (2 ^ 52 <= M <= 2 ^ 53)%Z ->
  nearest53 (inject_Z M * 2 ^ e) == inject_Z M * 2 ^ e.
Proof.
  intros [HM1 HM2].
  pose proof (pow2_pos e) as Hpe.
  assert (QM1 : 2 ^ 52 <= inject_Z M).
  { rewrite <- pow2_inject by lia. now rewrite <- Zle_Qle. }
  assert (QM2 : inject_Z M <= 2 ^ 53).
  { rewrite <- pow2_inject by lia. now rewrite <- Zle_Qle. }
  destruct (Z.eq_dec M (2 ^ 53)) as [-> | NE].
  - assert (El : ilog2 (inject_Z (2 ^ 53) * 2 ^ e) = (53 + e)%Z).
    { apply ilog2_unique.
      - rewrite pow2_plus, pow2_inject by lia. apply Qle_refl.
      - rewrite pow2_inject by lia. rewrite <- pow2_plus. apply pow2_lt. lia. }
    unfold nearest53. rewrite El.
    replace (53 + e - 52)%Z with (e + 1)%Z by lia.
    assert (Es : inject_Z (2 ^ 53) * 2 ^ e * 2 ^ (- (e + 1)) == inject_Z (2 ^ 52)).
    { rewrite !pow2_inject by lia.
      rewrite <- !pow2_plus. now replace (53 + e + - (e + 1))%Z with 52%Z by lia. }
    rewrite (roundHalfEven_comp _ _ Es), roundHalfEven_Z.
    rewrite !pow2_inject by lia. rewrite <- !pow2_plus.
    now replace (52 + (e + 1))%Z with (53 + e)%Z by lia.
  - assert (QM3 : inject_Z M < 2 ^ 53).
    { rewrite <- pow2_inject by lia. rewrite <- Zlt_Qlt. lia. }
    assert (El : ilog2 (inject_Z M * 2 ^ e) = (52 + e)%Z).
    { apply ilog2_unique.
      - rewrite pow2_plus. apply Qmult_le_compat_r; lra.
      - replace (52 + e + 1)%Z with (53 + e)%Z by lia.
        rewrite pow2_plus. apply Qmult_lt_compat_r; lra. }
    unfold nearest53. rewrite El.
    replace (52 + e - 52)%Z with e by lia.
    assert (Es : inject_Z M * 2 ^ e * 2 ^ (- e) == inject_Z M).
    { rewrite <- Qmult_assoc, pow2_cancel. ring. }
    now rewrite (roundHalfEven_comp _ _ Es), roundHalfEven_Z.
Qed.

(** *** binary64 rounding *)

Lemma binary64_pos (q : Q) : 0 < q -> binary64 q == nearest53 q.
Proof.
  intros H. unfold binary64. apply Qltb_lt in H. rewrite H. apply Qred_correct.
Qed.

Lemma binary64_neg (q : Q) : q < 0 -> binary64 q == - nearest53 (- q).
Proof.
  intros H. unfold binary64.
  assert (E : Qltb 0 q = false) by (apply Qltb_ge; lra).
  apply Qltb_lt in H. rewrite E, H. apply Qred_correct.
Qed.

Lemma binary64_zero (q : Q) : q == 0 -> binary64 q = 0.
Proof.
  intros H. unfold binary64.
  assert (E1 : Qltb 0 q = false) by (apply Qltb_ge; lra).
  assert (E2 : Qltb q 0 = false) by (apply Qltb_ge; lra).
  now rewrite E1, E2.
Qed.

Lemma binary64_monotone (a b : Q) : a <= b -> binary64 a <= binary64 b.
Proof.
  intros Hab.
  destruct (Q_dec a 0) as [[Ha | Ha] | Ha], (Q_dec b 0) as [[Hb | Hb] | Hb];
    try lra.
  - rewrite (binary64_neg a Ha), (binary64_neg b Hb).
    pose proof (nearest53_monotone (- b) (- a) ltac:(lra) ltac:(lra)). lra.
  - rewrite (binary64_neg a Ha), (binary64_pos b Hb).
    pose proof (nearest53_positive (- a) ltac:(lra)).
    pose proof (nearest53_positive b Hb). lra.
  - rewrite (binary64_neg a Ha), (binary64_zero b Hb).
    pose proof (nearest53_positive (- a) ltac:(lra)). lra.
  - rewrite (binary64_pos a Ha), (binary64_pos b Hb).
    now apply nearest53_monotone.
  - rewrite (binary64_zero a Ha), (binary64_pos b Hb).
    pose proof (nearest53_positive b Hb). lra.
  - rewrite (binary64_zero a Ha), (binary64_zero b Hb). lra.
Qed.

Lemma binary64_comp (a b : Q) : a == b -> binary64 a == binary64 b.
Proof.
  intros H. apply Qle_antisym; apply binary64_monotone; lra.
Qed.

Lemma binary64_positive (a : Q) : 0 < a -> 0 < binary64 a.
Proof.
  intros H. rewrite (binary64_pos a H). now apply nearest53_positive.
Qed.

Lemma binary64_opp (a : Q) : binary64 (- a) == - binary64 a.
Proof.
  destruct (Q_dec a 0) as [[Ha | Ha] | Ha].
  - rewrite (binary64_pos (- a)) by lra. rewrite (binary64_neg a Ha). ring.
  - rewrite (binary64_neg (- a)) by lra. rewrite (binary64_pos a Ha).
    assert (E : nearest53 (- - a) == nearest53 a).
    { rewrite <- (binary64_pos (- - a)) by lra. rewrite <- (binary64_pos a Ha).
      apply binary64_comp. ring. }
    now rewrite E.
  - rewrite (binary64_zero a Ha), (binary64_zero (- a)) by lra. reflexivity.
Qed.

Lemma hasSignificand_positive (v : Q) : hasSignificand v -> 0 < v.
Proof.
  intros (M & e & [HM _] & ->).
  apply Qmult_lt_0_compat; [|apply pow2_pos].
  change 0 with (inject_Z 0). rewrite <- Zlt_Qlt. lia.
Qed.

Lemma binary64_fixed (v : Q) : hasSignificand v -> binary64 v == v.
Proof.
  intros Hv. pose proof (hasSignificand_positive v Hv) as Hpos.
  destruct Hv as (M & e & HM & Ev).
  apply Qeq_trans with (binary64 (inject_Z M * 2 ^ e));
    [now apply binary64_comp|].
  apply Qeq_trans with (nearest53 (inject_Z M * 2 ^ e));
    [apply binary64_pos; lra|].
  apply Qeq_trans with (inject_Z M * 2 ^ e);
    [now apply nearest53_fixed | now symmetry].
Qed.

(** Every value of the rounding is zero or, up to its sign, a number with a
    53-bit significand. *)
Lemma binary64_value (a : Q) :
  binary64 a == 0
  \/ hasSignificand (binary64 a)
  \/ hasSignificand (- binary64 a).
Proof.
  destruct (Q_dec a 0) as [[Ha | Ha] | Ha].
  - right. right.
    destruct (nearest53_form (- a) ltac:(lra)) as (M & EM & HM).
    exists M, (ilog2 (- a) - 52)%Z. split; [assumption|].
    rewrite (binary64_neg a Ha), <- EM. ring.
  - right. left.
    destruct (nearest53_form a Ha) as (M & EM & HM).
    exists M, (ilog2 a - 52)%Z. split; [assumption|].
    now rewrite (binary64_pos a Ha).
  - left. now rewrite (binary64_zero a Ha).
Qed.

Lemma binary64_idempotent (a : Q) : binary64 (binary64 a) == binary64 a.
Proof.
  destruct (binary64_value a) as [H | [H | H]].
  - rewrite (binary64_comp _ _ H), H. reflexivity.
  - now apply binary64_fixed.
  - apply binary64_fixed in H. rewrite binary64_opp in H. lra.
Qed.

(** Integers of magnitude up to [2^53] are not changed. *)
Lemma hasSignificand_int (n : Z) :
  (0 < n <= 2 ^ 53)%Z -> hasSignificand (inject_Z n).
Proof.
  intros [Hn1 Hn2].
  destruct (Z.eq_dec n (2 ^ 53)) as [-> | NE].
  - exists (2 ^ 53)%Z, 0%Z. split; [lia|]. change (2 ^ 0) with 1. ring.
  - destruct (Z.log2_spec n Hn1) as [H1 H2].
    pose proof (Z.log2_nonneg n) as H0.
    set (E := Z.log2 n) in *.
    assert (HE : (E <= 52)%Z).
    { destruct (Z_le_gt_dec E 52) as [H | H]; [assumption|].
      pose proof (Z.pow_le_mono_r 2 53 E ltac:(lia) ltac:(lia)). lia. }
    exists (n * 2 ^ (52 - E))%Z, (E - 52)%Z.
    assert (Hp : (2 ^ 52 = 2 ^ E * 2 ^ (52 - E))%Z).
    { rewrite <- Z.pow_add_r by lia. f_equal. lia. }
    assert (Hp' : (2 ^ 53 = 2 ^ Z.succ E * 2 ^ (52 - E))%Z).
    { rewrite <- Z.pow_add_r by lia. f_equal. lia. }
    assert (Hpos : (0 < 2 ^ (52 - E))%Z) by (apply Z.pow_pos_nonneg; lia).
    split.
    + split.
      * rewrite Hp. apply Z.mul_le_mono_nonneg_r; lia.
      * rewrite Hp'. apply Z.mul_le_mono_nonneg_r; lia.
    + rewrite inject_Z_mult, pow2_inject by lia.
      rewrite <- Qmult_assoc, <- pow2_plus.
      replace (52 - E + (E - 52))%Z with 0%Z by lia.
      change (2 ^ 0) with 1. ring.
Qed.

Lemma binary64_int (n : Z) :
  (Z.abs n <= 2 ^ 53)%Z -> binary64 (inject_Z n) == inject_Z n.
Proof.
  intros Hn.
  destruct (Z.lt_trichotomy n 0) as [H | [-> | H]].
  - assert (E : inject_Z n == - inject_Z (- n)) by (rewrite inject_Z_opp; ring).
    rewrite (binary64_comp _ _ E), binary64_opp.
    rewrite (binary64_fixed (inject_Z (- n))); [now symmetry|].
    apply hasSignificand_int. lia.
  - reflexivity.
  - apply binary64_fixed, hasSignificand_int. lia.
Qed.

(** A number with a 53-bit significand is an integer or lies below [2^52]. *)
Lemma hasSignificand_int_or_small (v : Q) :
  hasSignificand v -> (exists z : Z, v == inject_Z z) \/ v <= inject_Z (2 ^ 52).
Proof.
  intros (M & e & [HM1 HM2] & Ev).
  destruct (Z_le_gt_dec 0 e) as [He | He].
  - left. exists (M * 2 ^ e)%Z.
    now rewrite Ev, inject_Z_mult, pow2_inject.
  - right. rewrite Ev.
    apply Qle_trans with (inject_Z (2 ^ 53) * 2 ^ (- 1)%Z).
    + apply Qle_trans with (inject_Z (2 ^ 53) * 2 ^ e).
      * apply Qmult_le_compat_r; [|apply Qlt_le_weak, pow2_pos].
        now rewrite <- Zle_Qle.
      * apply Qmult_le_l; [reflexivity|]. apply pow2_le. lia.
    + vm_compute. discriminate.
Qed.

Lemma binary64_floor_ceiling (a : Q) :
  binary64 (inject_Z (Qfloor (binary64 a))) == inject_Z (Qfloor (binary64 a))
  /\ binary64 (inject_Z (Qceiling (binary64 a)))
     == inject_Z (Qceiling (binary64 a)).
Proof.
  set (v := binary64 a).
  assert (Hint : forall z : Z, v == inject_Z z ->
             binary64 (inject_Z (Qfloor v)) == inject_Z (Qfloor v)
             /\ binary64 (inject_Z (Qceiling v)) == inject_Z (Qceiling v)).
  { intros z Ez.
    rewrite (Qfloor_comp _ _ Ez), (Qceiling_comp _ _ Ez), Qfloor_Z, Qceiling_Z.
    assert (E : binary64 (inject_Z z) == inject_Z z).
    { apply Qeq_trans with (binary64 v);
        [apply binary64_comp; now symmetry|].
      apply Qeq_trans with v; [apply binary64_idempotent | exact Ez]. }
    now split. }
  assert (Hsmall : - inject_Z (2 ^ 52) <= v -> v <= inject_Z (2 ^ 52) ->
             binary64 (inject_Z (Qfloor v)) == inject_Z (Qfloor v)
             /\ binary64 (inject_Z (Qceiling v)) == inject_Z (Qceiling v)).
  { intros Hlo Hhi.
    assert (H1 : (- 2 ^ 52 <= Qfloor v)%Z).
    { rewrite <- inject_Z_opp in Hlo. apply Qfloor_resp_le in Hlo.
      now rewrite Qfloor_Z in Hlo. }
    assert (H2 : (Qceiling v <= 2 ^ 52)%Z).
    { apply Qceiling_resp_le in Hhi. now rewrite Qceiling_Z in Hhi. }
    assert (H3 : (Qfloor v <= Qceiling v)%Z).
    { pose proof (Qfloor_le v). pose proof (Qle_ceiling v).
      rewrite Zle_Qle. lra. }
    split; apply binary64_int; lia. }
  destruct (binary64_value a) as [H | [H | H]]; fold v in H.
  - apply (Hint 0%Z). exact H.
  - pose proof (hasSignificand_positive _ H) as Hpos.
    destruct (hasSignificand_int_or_small _ H) as [[z Ez] | Hs].
    + now apply (Hint z).
    + apply Hsmall; [|assumption].
      assert (0 <= inject_Z (2 ^ 52)) by (vm_compute; discriminate). lra.
  - pose proof (hasSignificand_positive _ H) as Hpos.
    destruct (hasSignificand_int_or_small _ H) as [[z Ez] | Hs].
    + apply (Hint (- z)%Z). rewrite inject_Z_opp. lra.
    + apply Hsmall; [lra|].
      assert (0 <= inject_Z (2 ^ 52)) by (vm_compute; discriminate). lra.
Qed.

Lemma binary64_laws : ArithmeticLaws doubleArithmetic.
Proof.
  constructor; cbn [fl doubleArithmetic].
  - apply binary64_monotone.
  - apply binary64_positive.
  - apply binary64_idempotent.
  - apply binary64_int.
  - intros a. apply binary64_floor_ceiling.
  - intros a. apply binary64_floor_ceiling.
Qed.

Lemma exact_laws : ArithmeticLaws exactArithmetic.
Proof.
  constructor; cbn [fl exactArithmetic]; intros; try assumption; reflexivity.
Qed.

Section NumberProperties.

Context {arith : Arithmetic} {laws : ArithmeticLaws arith}.

Lemma fl_comp (a b : Q) : a == b -> fl a == fl b.
Proof.
  intros H. apply Qle_antisym; apply fl_monotone; lra.
Qed.

Lemma fl_zero : fl 0 == 0.
Proof. apply (fl_int 0%Z). vm_compute. discriminate. Qed.

Lemma fl_nonneg (a : Q) : 0 <= a -> 0 <= fl a.
Proof.
  intros H. pose proof fl_zero. pose proof (fl_monotone 0 a H). lra.
Qed.

Lemma fl_nonpos (a : Q) : a <= 0 -> fl a <= 0.
Proof.
  intros H. pose proof fl_zero. pose proof (fl_monotone a 0 H). lra.
Qed.

(** The sign of a computed difference is the sign of the difference. *)
Lemma num_sub_pos (a b : Q) : Qltb 0 (num_sub a b) = true <-> b < a.
Proof.
  unfold num_sub. rewrite Qltb_lt. split.
  - intros H. apply Qnot_le_lt. intros Hle.
    pose proof (fl_nonpos (a - b) ltac:(lra)). lra.
  - intros H. apply fl_positive. lra.
Qed.

Lemma num_sub_nonpos (a b : Q) : Qltb 0 (num_sub a b) = false <-> a <= b.
Proof.
  destruct (Qltb 0 (num_sub a b)) eqn:E.
  - apply num_sub_pos in E. split; [discriminate | lra].
  - split; [|reflexivity]. intros _.
    apply Qnot_lt_le. intros H. apply num_sub_pos in H. congruence.
Qed.

Lemma literal_pos (c : Q) : 0 < c -> 0 < literal c.
Proof. apply fl_positive. Qed.

(** A computed result above a literal comes from an exact result above it. *)
Lemma above_literal (c x : Q) : literal c < fl x -> literal c < x.
Proof.
  unfold literal. intros H. apply Qnot_le_lt. intros Hle.
  pose proof (fl_monotone _ _ Hle). pose proof (fl_idempotent c). lra.
Qed.

End NumberProperties.

Section ChartDomain.

Context {arith : Arithmetic} {laws : ArithmeticLaws arith}.

Variables (strike0 : Q) (strikes' : list Q) (currentSpot viewRange : Q).

Local Abbreviation d := (chartDomain strike0 strikes' currentSpot viewRange).

Lemma minStrike_lower_bound :
  Forall (fun s => minStrike d <= s) (strike0 :: strikes')
  /\ minStrike d <= currentSpot.
Proof.
  destruct (Math_min_le strike0 (strikes' ++ [currentSpot])) as [H0 Hall].
  apply Forall_app in Hall. destruct Hall as [Hs Hspot].
  split.
  - constructor; assumption.
  - now inversion Hspot.
Qed.

Lemma maxStrike_upper_bound :
  Forall (fun s => s <= maxStrike d) (strike0 :: strikes')
  /\ currentSpot <= maxStrike d.
Proof.
  destruct (Math_max_ge strike0 (strikes' ++ [currentSpot])) as [H0 Hall].
  apply Forall_app in Hall. destruct Hall as [Hs Hspot].
  split.
  - constructor; assumption.
  - now inversion Hspot.
Qed.

Lemma strike_range_attained :
  (exists s, In s (currentSpot :: strike0 :: strikes') /\ minStrike d == s)
  /\ (exists s, In s (currentSpot :: strike0 :: strikes') /\ maxStrike d == s).
Proof.
  assert (Hin : forall s, In s (strike0 :: strikes' ++ [currentSpot]) ->
                          In s (currentSpot :: strike0 :: strikes')).
  { intros s [<- | H]; [right; now left|].
    apply in_app_or in H. destruct H as [H | [<- | []]];
      [right; now right | now left]. }
  split.
  - pose proof (Math_min_attained strike0 (strikes' ++ [currentSpot])) as H.
    apply Exists_exists in H. destruct H as (s & Hs & E).
    exists s. split; [now apply Hin | exact E].
  - pose proof (Math_max_attained strike0 (strikes' ++ [currentSpot])) as H.
    apply Exists_exists in H. destruct H as (s & Hs & E).
    exists s. split; [now apply Hin | exact E].
Qed.

Lemma minStrike_le_maxStrike : minStrike d <= maxStrike d.
Proof.
  destruct minStrike_lower_bound as [_ H1].
  destruct maxStrike_upper_bound as [_ H2]. lra.
Qed.

Lemma spread_bounds :
  0 <= spread d
  /\ num_mul currentSpot (literal (1 # 100)) <= spread d
  /\ num_sub (maxStrike d) (minStrike d) <= spread d.
Proof.
  pose proof minStrike_le_maxStrike as Hmm.
  unfold chartDomain in *. cbn [spread minStrike maxStrike] in *.
  set (lo := Math_min strike0 (strikes' ++ [currentSpot])) in *.
  set (hi := Math_max strike0 (strikes' ++ [currentSpot])) in *.
  assert (H0 : 0 <= num_sub hi lo) by (apply fl_nonneg; lra).
  destruct (Qltb (num_sub hi lo) (num_mul currentSpot (literal (1 # 100)))) eqn:E.
  - apply Qltb_lt in E. repeat split; lra.
  - apply Qltb_ge in E. repeat split; lra.
Qed.

Lemma spread_is_max :
  spread d
  == Qmax (num_sub (maxStrike d) (minStrike d))
          (num_mul currentSpot (literal (1 # 100))).
Proof.
  unfold chartDomain. cbn [spread minStrike maxStrike].
  set (s0 := num_sub _ _). set (t := num_mul _ _).
  destruct (Qltb s0 t) eqn:E.
  - apply Qltb_lt in E. symmetry. apply Q.max_r. lra.
  - apply Qltb_ge in E. symmetry. now apply Q.max_l.
Qed.

(** The padding as the source computes it. *)
Lemma padding_formula :
  minPadding d = num_mul (spread d) (literal (1 # 10))
  /\ maxPadding d
     = Qmax (num_mul (spread d) (literal 5))
            (num_mul currentSpot (literal (3 # 10)))
  /\ expansionFactor d = num_div viewRange (literal 100)
  /\ padding d
     = num_add (minPadding d)
         (num_mul (num_sub (maxPadding d) (minPadding d)) (expansionFactor d)).
Proof. repeat split. Qed.

Lemma minPadding_fixed : fl (minPadding d) == minPadding d.
Proof. apply fl_idempotent. Qed.

Lemma padding_at_zoom_0 : viewRange == 0 -> padding d == minPadding d.
Proof.
  intros H. destruct padding_formula as (_ & _ & Ef & Ep).
  rewrite Ep, Ef. clear Ep Ef.
  set (t := num_sub (maxPadding d) (minPadding d)).
  assert (E1 : num_div viewRange (literal 100) == 0).
  { unfold num_div. apply Qeq_trans with (fl 0); [|apply fl_zero].
    apply fl_comp. unfold Qdiv. rewrite H. ring. }
  assert (E2 : num_mul t (num_div viewRange (literal 100)) == 0).
  { unfold num_mul. apply Qeq_trans with (fl 0); [|apply fl_zero].
    apply fl_comp. rewrite E1. ring. }
  unfold num_add. apply Qeq_trans with (fl (minPadding d));
    [|apply minPadding_fixed].
  apply fl_comp. rewrite E2. ring.
Qed.

Lemma padding_at_zoom_100 :
  viewRange == 100 ->
  padding d == num_add (minPadding d) (num_sub (maxPadding d) (minPadding d)).
Proof.
  intros H. destruct padding_formula as (_ & _ & Ef & Ep).
  rewrite Ep, Ef. clear Ep Ef.
  set (t := num_sub (maxPadding d) (minPadding d)).
  assert (E100 : literal 100 == 100).
  { apply (fl_int 100%Z). vm_compute. discriminate. }
  assert (E1 : num_div viewRange (literal 100) == 1).
  { unfold num_div. apply Qeq_trans with (fl 1).
    - apply fl_comp. rewrite H, E100. reflexivity.
    - apply (fl_int 1%Z). vm_compute. discriminate. }
  assert (E2 : num_mul t (num_div viewRange (literal 100)) == t).
  { unfold num_mul. apply Qeq_trans with (fl t).
    - apply fl_comp. rewrite E1. ring.
    - apply fl_idempotent. }
  unfold num_add. apply fl_comp. rewrite E2. reflexivity.
Qed.

Lemma padding_lower :
  0 <= viewRange -> 0 <= minPadding d /\ minPadding d <= padding d.
Proof.
  intros Hv. destruct spread_bounds as (Hs & _ & _).
  destruct padding_formula as (Emin & Emax & Ef & Ep).
  assert (H10 : 0 < literal (1 # 10)) by (apply literal_pos; reflexivity).
  assert (H100 : 0 < literal 100) by (apply literal_pos; reflexivity).
  assert (Hlit : literal (1 # 10) <= literal 5)
    by (apply fl_monotone; discriminate).
  assert (Hmin : 0 <= minPadding d).
  { rewrite Emin. apply fl_nonneg. apply Qmult_le_0_compat; lra. }
  assert (Hminmax : minPadding d <= maxPadding d).
  { rewrite Emin, Emax.
    apply Qle_trans with (num_mul (spread d) (literal 5)); [|apply Q.le_max_l].
    apply fl_monotone. rewrite !(Qmult_comm (spread d)).
    now apply Qmult_le_compat_r. }
  assert (Ht : 0 <= num_sub (maxPadding d) (minPadding d))
    by (apply fl_nonneg; lra).
  assert (Hf : 0 <= expansionFactor d).
  { rewrite Ef. apply fl_nonneg. apply Qle_shift_div_l; [assumption | lra]. }
  assert (Hu : 0 <= num_mul (num_sub (maxPadding d) (minPadding d))
                      (expansionFactor d)).
  { apply fl_nonneg. now apply Qmult_le_0_compat. }
  split; [assumption|].
  rewrite Ep. unfold num_add.
  apply Qle_trans with (fl (minPadding d)).
  - pose proof minPadding_fixed. lra.
  - apply fl_monotone. lra.
Qed.

(** [Math.max] of two numbers is a number. *)
Lemma maxPadding_fixed : fl (maxPadding d) == maxPadding d.
Proof.
  destruct padding_formula as (_ & -> & _).
  set (x := num_mul (spread d) (literal 5)).
  set (y := num_mul currentSpot (literal (3 # 10))).
  destruct (Q.max_spec x y) as [[_ E] | [_ E]].
  - apply Qeq_trans with (fl y); [now apply fl_comp|].
    apply Qeq_trans with y; [apply fl_idempotent | now symmetry].
  - apply Qeq_trans with (fl x); [now apply fl_comp|].
    apply Qeq_trans with x; [apply fl_idempotent | now symmetry].
Qed.

(** At full zoom the padding is [maxPadding] when the difference
    [maxPadding - minPadding] is computed without rounding. *)
Lemma padding_at_zoom_100_exact :
  viewRange == 100 ->
  num_sub (maxPadding d) (minPadding d) == maxPadding d - minPadding d ->
  padding d == maxPadding d.
Proof.
  intros H Hexact.
  apply Qeq_trans with
    (num_add (minPadding d) (num_sub (maxPadding d) (minPadding d)));
    [now apply padding_at_zoom_100|].
  unfold num_add.
  apply Qeq_trans with (fl (maxPadding d)); [|apply maxPadding_fixed].
  apply fl_comp. rewrite Hexact. ring.
Qed.

Lemma xMin_below : xMin d <= num_sub (minStrike d) (padding d).
Proof. apply Qfloor_le. Qed.

Lemma xMax_above : num_add (maxStrike d) (padding d) <= xMax d.
Proof. apply Qle_ceiling. Qed.

Lemma xMin_le_xMax : 0 <= viewRange -> xMin d <= xMax d.
Proof.
  intros Hv. destruct (padding_lower Hv) as [H0 H1].
  pose proof xMin_below. pose proof xMax_above.
  pose proof minStrike_le_maxStrike.
  assert (num_sub (minStrike d) (padding d) <= num_add (maxStrike d) (padding d))
    by (apply fl_monotone; lra).
  lra.
Qed.

(** [Math.floor] gives a number. *)
Lemma xMin_fixed : fl (xMin d) == xMin d.
Proof. apply fl_floor. Qed.

End ChartDomain.

(** *** Deduplication *)

Section Collapse.

Context {arith : Arithmetic} {laws : ArithmeticLaws arith}.

Lemma minSpacing_pos : 0 < minSpacing.
Proof. apply literal_pos. reflexivity. Qed.

Lemma collapseFrom_spaced (l : list Q) (prev : Q) :
  StronglySorted Qle (prev :: l) ->
  StronglySorted spacedLt (collapseFrom prev l)
  /\ Forall (spacedLt prev) (collapseFrom prev l).
Proof.
  revert prev.
  induction l as [|x t IH]; intros prev Hs; simpl.
  - split; constructor.
  - apply StronglySorted_inv in Hs. destruct Hs as [Hs Hall].
    destruct (IH x Hs) as [IH1 IH2].
    assert (Hpx : prev <= x) by now inversion Hall.
    assert (Hrest : Forall (spacedLt prev) (collapseFrom x t)).
    { eapply Forall_impl; [|exact IH2].
      unfold spacedLt. intros y Hy. lra. }
    destruct (Qltb (literal (1 # 10)) (num_sub x prev)) eqn:E.
    + apply Qltb_lt in E. apply above_literal in E. split.
      * now constructor.
      * constructor; [|assumption]. unfold spacedLt, minSpacing. lra.
    + now split.
Qed.

Lemma uniquePoints_spaced (l : list Q) :
  StronglySorted Qle l -> StronglySorted spacedLt (uniquePoints l).
Proof.
  destruct l as [|x t]; intros Hs; simpl.
  - constructor.
  - destruct (collapseFrom_spaced t x Hs). now constructor.
Qed.

Lemma collapseFrom_incl (l : list Q) (prev : Q) : incl (collapseFrom prev l) l.
Proof.
  revert prev.
  induction l as [|x t IH]; intros prev; simpl.
  - apply incl_refl.
  - destruct (Qltb (literal (1 # 10)) (num_sub x prev)).
    + apply incl_cons; [now left|]. apply incl_tl, IH.
    + apply incl_tl, IH.
Qed.

Lemma uniquePoints_incl (l : list Q) : incl (uniquePoints l) l.
Proof.
  destruct l as [|x t]; simpl.
  - apply incl_refl.
  - apply incl_cons; [now left|]. apply incl_tl, collapseFrom_incl.
Qed.

Lemma uniquePoints_head (l : list Q) : hd_error (uniquePoints l) = hd_error l.
Proof. destruct l; reflexivity. Qed.

(** A candidate is kept when the sampler finds it more than the spacing
    above every candidate below it. *)
Lemma collapseFrom_keeps (l : list Q) (prev p : Q) :
  StronglySorted Qle (prev :: l) ->
  In p l ->
  prev < p ->
  (forall q, In q (prev :: l) -> q < p -> keptAfter q p) ->
  Exists (fun x => x == p) (collapseFrom prev l).
Proof.
  revert prev.
  induction l as [|a t IH]; intros prev Hs Hin Hprev Hkept; [inversion Hin|].
  apply StronglySorted_inv in Hs. destruct Hs as [Hs Hge].
  assert (Hrest : a < p -> Exists (fun x => x == p) (collapseFrom a t)).
  { intros Hap. apply IH; try assumption.
    - destruct Hin as [-> | Hin]; [lra | assumption].
    - intros q Hq. apply Hkept. now right. }
  cbn [collapseFrom].
  destruct (Qlt_le_dec a p) as [Hap | Hpa].
  - destruct (Qltb (literal (1 # 10)) (num_sub a prev));
      [apply Exists_cons_tl|]; now apply Hrest.
  - assert (Eap : a == p).
    { apply Qle_antisym; [|assumption].
      destruct Hin as [-> | Hin]; [apply Qle_refl|].
      apply StronglySorted_inv in Hs. destruct Hs as [_ Hall].
      rewrite Forall_forall in Hall. now apply Hall. }
    assert (E : Qltb (literal (1 # 10)) (num_sub a prev) = true).
    { apply Qltb_lt.
      assert (Hk : keptAfter prev p) by (apply Hkept; [now left | assumption]).
      unfold keptAfter in Hk.
      assert (num_sub a prev == num_sub p prev)
        by (apply fl_comp; rewrite Eap; reflexivity).
      lra. }
    rewrite E. now apply Exists_cons_hd.
Qed.

Lemma uniquePoints_keeps (l : list Q) (p : Q) :
  StronglySorted Qle l ->
  In p l ->
  (forall q, In q l -> q < p -> keptAfter q p) ->
  Exists (fun x => x == p) (uniquePoints l).
Proof.
  intros Hs Hin Hkept.
  destruct l as [|a t]; [inversion Hin|].
  cbn [uniquePoints].
  destruct (Qlt_le_dec a p) as [Hap | Hpa].
  - apply Exists_cons_tl. apply collapseFrom_keeps; try assumption.
    destruct Hin as [-> | Hin]; [lra | assumption].
  - apply Exists_cons_hd. apply Qle_antisym; [|assumption].
    destruct Hin as [-> | Hin]; [apply Qle_refl|].
    apply StronglySorted_inv in Hs. destruct Hs as [_ Hall].
    rewrite Forall_forall in Hall. now apply Hall.
Qed.

End Collapse.

Lemma last_error_snoc {A} (pre : list A) (y : A) :
  last_error (pre ++ [y]) = Some y.
Proof.
  unfold last_error. now rewrite rev_app_distr.
Qed.

(** The head of an ascending list is its least element. *)
Lemma sorted_head_least (m : Q) (l : list Q) :
  StronglySorted Qle l ->
  Forall (fun p => m <= p) l ->
  Exists (fun p => p == m) l ->
  exists a, hd_error l = Some a /\ a == m.
Proof.
  intros Hs Hall Hex.
  destruct l as [|x t]; [inversion Hex|].
  exists x. split; [reflexivity|].
  inversion Hall as [|? ? Hx _]; subst.
  apply StronglySorted_inv in Hs. destruct Hs as [_ Hge].
  inversion Hex as [? ? H | ? ? H]; subst; [assumption|].
  apply Exists_exists in H. destruct H as (p & Hp & Hpm).
  rewrite Forall_forall in Hge. specialize (Hge p Hp). lra.
Qed.

(** *** The merged, sorted candidate points *)

Section Grid.

Context {arith : Arithmetic} {laws : ArithmeticLaws arith}.

Variables (strike0 : Q) (strikes' : list Q) (currentSpot viewRange : Q).

Local Abbreviation d := (chartDomain strike0 strikes' currentSpot viewRange).
Local Abbreviation strikes := (strike0 :: strikes').
Local Abbreviation candidates :=
  (basePoints d ++ criticalPoints strikes currentSpot).
Local Abbreviation all := (allPoints d strikes currentSpot).

Lemma allPoints_sorted : StronglySorted Qle all.
Proof.
  apply Array_sort_sorted.
  - intros a b c. apply Qle_trans.
  - intros x y _ _ H. apply num_sub_pos in H. lra.
  - intros x y _ _ H. now apply num_sub_nonpos in H.
Qed.

Lemma allPoints_in (p : Q) :
  In p all <-> In p candidates /\ xMin d <= p /\ p <= xMax d.
Proof.
  unfold allPoints. split.
  - intros H. apply (Permutation_in _ (Array_sort_perm _ _)) in H.
    apply filter_In in H. destruct H as [Hin Hb].
    apply andb_true_iff in Hb. rewrite !Qle_bool_iff in Hb. tauto.
  - intros (Hin & Hlo & Hhi).
    apply (Permutation_in _ (Permutation_sym (Array_sort_perm _ _))).
    apply filter_In. split; [assumption|].
    apply andb_true_iff. now rewrite !Qle_bool_iff.
Qed.

Lemma basePoints_in (p : Q) :
  In p (basePoints d) <->
  exists i, (i <= 150)%nat
            /\ p = num_add (xMin d) (num_mul (inject_Z (Z.of_nat i)) (step d)).
Proof.
  unfold basePoints. rewrite in_map_iff. unfold pointCount.
  split.
  - intros (i & Hp & Hi). apply in_seq in Hi. exists i. split; [lia | now symmetry].
  - intros (i & Hi & Hp). exists i. split; [now symmetry|]. apply in_seq. lia.
Qed.

Lemma candidates_spec (p : Q) :
  In p candidates <-> gridCandidate d strikes currentSpot p.
Proof.
  unfold gridCandidate. rewrite in_app_iff, basePoints_in.
  unfold criticalPoints. cbn [In]. rewrite in_flat_map.
  split.
  - intros [H | [H | (s & Hs & H)]]; [now left | right; left; now symmetry|].
    right. right. exists s. split; [assumption|].
    cbn [In] in H. destruct H as [H | [H | [H | []]]]; auto.
  - intros [H | [H | (s & Hs & H)]]; [now left | right; left; now symmetry|].
    right. right. exists s. split; [assumption|].
    cbn [In]. destruct H as [H | [H | H]]; auto.
Qed.

Lemma basePoints_length : List.length (basePoints d) = 151%nat.
Proof. unfold basePoints. now rewrite length_map, length_seq. Qed.

(** The first base point, [xMin + 0 * step], is [xMin]. *)
Lemma first_basePoint :
  num_add (xMin d) (num_mul (inject_Z (Z.of_nat 0)) (step d)) == xMin d.
Proof.
  change (inject_Z (Z.of_nat 0)) with 0.
  assert (E : num_mul 0 (step d) == 0).
  { unfold num_mul. apply Qeq_trans with (fl 0); [|apply fl_zero].
    apply fl_comp. ring. }
  unfold num_add.
  apply Qeq_trans with (fl (xMin d)); [|apply xMin_fixed].
  apply fl_comp. rewrite E. ring.
Qed.

Lemma xMin_in_allPoints :
  xMin d <= xMax d -> Exists (fun p => p == xMin d) all.
Proof.
  intros Hle. apply Exists_exists.
  exists (num_add (xMin d) (num_mul (inject_Z (Z.of_nat 0)) (step d))).
  pose proof first_basePoint as E.
  split; [|exact E].
  apply allPoints_in. split; [|split].
  - apply in_or_app. left. apply basePoints_in. exists 0%nat. split; [lia | reflexivity].
  - rewrite E. apply Qle_refl.
  - rewrite E. exact Hle.
Qed.

End Grid.

Lemma StronglySorted_weaken {A} (R R' : A -> A -> Prop) (l : list A) :
  (forall a b, R a b -> R' a b) -> StronglySorted R l -> StronglySorted R' l.
Proof.
  intros Himp. induction 1 as [|x l Hs IH Hall]; constructor.
  - assumption.
  - eapply Forall_impl; [|exact Hall]. intros y. apply Himp.
Qed.

(** C6 (as the code has it).  The grid is computed in an arithmetic that
    rounds every operation (monotonically, keeping the sign, and leaving
    numbers and small integers unchanged), as IEEE 754 binary64 does.  For a
    non-empty leg list the payoff grid is strictly increasing, with
    consecutive points more than 0.1 (the number the literal stands for)
    apart; every point lies in [xMin, xMax] = [floor(minStrike - padding),
    ceil(maxStrike + padding)] and is one of the 151 base points xMin + i *
    step, step = (xMax - xMin) / 150, or a critical point (the spot, a
    strike, a strike -/+ 0.5); conversely such a point of [xMin, xMax] is in
    the grid whenever the sampler finds it more than 0.1 above every
    candidate of the domain below it.  minStrike and maxStrike are the least
    and the greatest of the strikes and the spot, the spread is the larger
    of maxStrike - minStrike and 1% of the spot, and the padding is
    minPadding + (maxPadding - minPadding) * zoom / 100 with minPadding =
    spread * 0.1 and maxPadding = max(spread * 5, spot * 0.3): minPadding at
    zoom 0 and minPadding + (maxPadding - minPadding) at zoom 100%, which is
    maxPadding when that difference is computed without rounding.  For a
    zoom that is not negative the padding is at least minPadding and the
    grid starts at xMin, at or below minStrike - padding.  No point lies
    above xMax; that the grid reaches xMax is not claimed. *)
Theorem payoff_grid_increasing_within_domain
  {arith : Arithmetic} (laws : ArithmeticLaws arith)
  (leg0 : OptionLeg) (legs' : list OptionLeg) (currentSpot viewRange : Q) :
  let legs := leg0 :: legs' in
  let d := chartDomain (strike leg0) (map strike legs') currentSpot viewRange in
  let candidate := gridCandidate d (map strike legs) currentSpot in
  let pts := chartPoints legs currentSpot viewRange in
  StronglySorted Qlt pts
  /\ StronglySorted spacedLt pts
  /\ Forall (fun p => xMin d <= p /\ p <= xMax d /\ candidate p) pts
  /\ (forall p,
        candidate p -> xMin d <= p -> p <= xMax d ->
        (forall q, candidate q -> xMin d <= q -> q < p -> keptAfter q p) ->
        Exists (fun x => x == p) pts)
  /\ List.length (basePoints d) = 151%nat
  /\ (xMin d = inject_Z (Qfloor (num_sub (minStrike d) (padding d)))
      /\ xMax d = inject_Z (Qceiling (num_add (maxStrike d) (padding d)))
      /\ step d = num_div (num_sub (xMax d) (xMin d)) 150)
  /\ Forall (fun s => minStrike d <= s /\ s <= maxStrike d)
            (currentSpot :: map strike legs)
  /\ ((exists s, In s (currentSpot :: map strike legs) /\ minStrike d == s)
      /\ (exists s, In s (currentSpot :: map strike legs) /\ maxStrike d == s))
  /\ (spread d
      == Qmax (num_sub (maxStrike d) (minStrike d))
              (num_mul currentSpot (literal (1 # 100)))
      /\ num_mul currentSpot (literal (1 # 100)) <= spread d)
  /\ (minPadding d = num_mul (spread d) (literal (1 # 10))
      /\ maxPadding d
         = Qmax (num_mul (spread d) (literal 5))
                (num_mul currentSpot (literal (3 # 10)))
      /\ padding d
         = num_add (minPadding d)
             (num_mul (num_sub (maxPadding d) (minPadding d))
                (num_div viewRange (literal 100))))
  /\ (viewRange == 0 -> padding d == minPadding d)
  /\ (viewRange == 100 ->
      padding d
      == num_add (minPadding d) (num_sub (maxPadding d) (minPadding d))
      /\ (num_sub (maxPadding d) (minPadding d)
          == maxPadding d - minPadding d ->
          padding d == maxPadding d))
  /\ (0 <= viewRange ->
      minPadding d <= padding d
      /\ exists a, hd_error pts = Some a /\ a == xMin d
                   /\ a <= num_sub (minStrike d) (padding d)).
Proof.
  cbv zeta. cbn [chartPoints map].
  set (k0 := strike leg0). set (ks := map strike legs').
  pose proof (allPoints_sorted k0 ks currentSpot viewRange) as Hsorted.
  pose proof (uniquePoints_spaced _ Hsorted) as Hspaced.
  pose proof (xMin_below k0 ks currentSpot viewRange) as Hlo.
  destruct (minStrike_lower_bound k0 ks currentSpot viewRange) as [Hmin Hmin'].
  destruct (maxStrike_upper_bound k0 ks currentSpot viewRange) as [Hmax Hmax'].
  split.
  { eapply StronglySorted_weaken; [|exact Hspaced].
    unfold spacedLt. pose proof minSpacing_pos as Hpos. intros a b H. lra. }
  split; [exact Hspaced|].
  split.
  { apply Forall_forall. intros p Hp.
    apply uniquePoints_incl, allPoints_in in Hp.
    rewrite <- candidates_spec. tauto. }
  split.
  { intros p Hin Hplo Hphi Hkept.
    apply uniquePoints_keeps; [assumption | |].
    - apply allPoints_in. rewrite candidates_spec. tauto.
    - intros q Hq Hqp. apply allPoints_in in Hq.
      rewrite candidates_spec in Hq. apply Hkept; tauto. }
  split; [apply basePoints_length|].
  split; [repeat split|].
  split.
  { constructor; [now split|].
    rewrite Forall_forall in *. intros s Hs.
    split; [apply Hmin | apply Hmax]; exact Hs. }
  split; [apply strike_range_attained|].
  split; [split; [apply spread_is_max | apply spread_bounds]|].
  split; [repeat split|].
  split; [apply padding_at_zoom_0|].
  split.
  { intros H100. split; [now apply padding_at_zoom_100|].
    now apply padding_at_zoom_100_exact. }
  intros Hv.
  split; [now apply padding_lower|].
  rewrite uniquePoints_head.
  destruct (sorted_head_least
              (xMin (chartDomain k0 ks currentSpot viewRange))
              (allPoints (chartDomain k0 ks currentSpot viewRange)
                 (k0 :: ks) currentSpot)) as (a & Ha & Ea).
  - assumption.
  - apply Forall_forall. intros p Hp. now apply allPoints_in in Hp.
  - apply xMin_in_allPoints. now apply xMin_le_xMax.
  - exists a. repeat split; [assumption | assumption | lra].
Qed.

(** C6, as stated, fails: the grid need not reach the upper end of the
    padded domain.  In binary64, with a strike of 24500, the spot at 20000
    and zoom 32%, the domain is [12494, 32006] and maxStrike + padding is
    32006; the base step (about 130.08) exceeds 0.1 and the padding (7506)
    is wide, but the last base point 12494 + 150 * step is computed as
    32006.000000000004, above xMax, and is filtered out: the grid ends at
    the base point before it, about 31875.92.  On a narrow domain the grid
    falls short in any arithmetic: with strike and spot at 100 and zoom 0
    every candidate is within 0.1 of its predecessor and the grid is [99],
    short of maxStrike + padding, about 100.1. *)
Lemma payoff_grid_misses_upper_domain :
  (xMin sampleFarDomain == 12494
   /\ xMax sampleFarDomain == 32006
   /\ num_add (maxStrike sampleFarDomain) (padding sampleFarDomain) == 32006
   /\ 130 < step sampleFarDomain
   /\ padding sampleFarDomain == 7506
   /\ nth 150 (basePoints sampleFarDomain) 0 == 32006 + (1 # 274877906944)
   /\ last_error (chartPoints (arith := doubleArithmetic) [sampleFarLeg] 20000 32)
      = Some (8761986171514389 # 274877906944)
   /\ 8761986171514389 # 274877906944 < 31876
   /\ ~ coversDomain
         (chartPoints (arith := doubleArithmetic) [sampleFarLeg] 20000 32)
         (num_sub (minStrike sampleFarDomain) (padding sampleFarDomain))
         (num_add (maxStrike sampleFarDomain) (padding sampleFarDomain)))
  /\ (chartPoints (arith := doubleArithmetic) [sampleLowLeg] 100 0 = [99]
      /\ map Qred (chartPoints (arith := exactArithmetic) [sampleLowLeg] 100 0)
         = [99]
      /\ 100 < num_add (maxStrike sampleLowDomain) (padding sampleLowDomain)
      /\ ~ coversDomain
            (chartPoints (arith := doubleArithmetic) [sampleLowLeg] 100 0)
            (num_sub (minStrike sampleLowDomain) (padding sampleLowDomain))
            (num_add (maxStrike sampleLowDomain) (padding sampleLowDomain))).
Proof.
  split.
  - repeat (split; [vm_compute; reflexivity|]).
    intros (a & b & _ & Hb & _ & Hhi).
    vm_compute in Hb. injection Hb as <-.
    vm_compute in Hhi. apply Hhi. reflexivity.
  - repeat (split; [vm_compute; reflexivity|]).
    intros (a & b & _ & Hb & _ & Hhi).
    vm_compute in Hb. injection Hb as <-.
    vm_compute in Hhi. apply Hhi. reflexivity.
Qed.

Lemma payoff_grid_increasing_within_domain_witness :
  (exists a, hd_error (chartPoints (arith := doubleArithmetic)
                         [sampleOpenLeg] 24500 20) = Some a
             /\ a == 23010)
  /\ Exists (fun x => x == 49001 # 2)
            (chartPoints (arith := doubleArithmetic) [sampleOpenLeg] 24500 20).
Proof.
  destruct (payoff_grid_increasing_within_domain binary64_laws
              sampleOpenLeg [] 24500 20)
    as (_ & _ & _ & Hkept & _ & _ & _ & _ & _ & _ & _ & _ & Hfirst).
  split.
  - destruct Hfirst as (_ & a & Ha & Ea & _); [discriminate|].
    exists a. split; [exact Ha|]. rewrite Ea. vm_compute. reflexivity.
  - assert (Ep : num_add (arith := doubleArithmetic) 24500 (literal (1 # 2))
                 == 49001 # 2) by (vm_compute; reflexivity).
    eapply Exists_impl; [|apply (Hkept (num_add 24500 (literal (1 # 2))))].
    + intros x Hx. cbv beta in Hx. rewrite Hx. exact Ep.
    + right. right. exists 24500. split; [now left|]. right. right. reflexivity.
    + vm_compute. discriminate.
    + vm_compute. discriminate.
    + assert (Hall : forallb
                       (fun q =>
                          Qle_bool (num_add 24500 (literal (1 # 2))) q
                          || Qltb (literal (1 # 10))
                               (num_sub (num_add 24500 (literal (1 # 2))) q))
                       (basePoints
                          (chartDomain (strike sampleOpenLeg) [] 24500 20)
                        ++ criticalPoints [strike sampleOpenLeg] 24500)
                     = true) by (vm_compute; reflexivity).
      intros q Hq _ Hlt.
      apply (candidates_spec (arith := doubleArithmetic)) in Hq.
      rewrite forallb_forall in Hall.
      specialize (Hall q Hq). apply orb_true_iff in Hall.
      destruct Hall as [H | H].
      * apply Qle_bool_iff in H. lra.
      * apply Qltb_lt in H. exact H.
Defined.

(* ------------------------------------------------------------------ *)
(** ** Degenerate and closed payoff charts *)

Section PayoffTheorems.

Context {kernel : PricingKernel} {clock : Clock} {arith : Arithmetic}.

(** C7.  With an empty leg list the sampler returns the empty sequence (and
    contacts no kernel); for a Closed structure with realizedPnl present it
    returns, for every sampled price of the grid, a point whose expiry and
    simulated payoffs both equal the frozen realizedPnl. *)
Theorem payoff_sampler_degenerate_and_closed
  (props : PayoffChartProps) (viewRange simTimePercent : Q) :
  (p_legs props = [] -> data props viewRange simTimePercent = ret [])
  /\ (forall r,
        structureStatus props = Some Closed ->
        p_realizedPnl props = Some r ->
        data props viewRange simTimePercent
        = ret (map (fun spot => {| spot := spot; pnlExpiry := r; pnlSim := r |})
                   (chartPoints (p_legs props)
                      (daxSpot (p_marketData props)) viewRange))
        /\ map spot (value (data props viewRange simTimePercent))
           = chartPoints (p_legs props) (daxSpot (p_marketData props)) viewRange
        /\ Forall (fun pt => pnlExpiry pt = r /\ pnlSim pt = r)
                  (value (data props viewRange simTimePercent))).
Proof.
  split.
  - intros Hlegs. unfold data. rewrite Hlegs. reflexivity.
  - intros r Hs Hr.
    assert (E : data props viewRange simTimePercent
                = ret (map (fun spot =>
                              {| spot := spot; pnlExpiry := r; pnlSim := r |})
                           (chartPoints (p_legs props)
                              (daxSpot (p_marketData props)) viewRange))).
    { unfold data. rewrite Hs, Hr.
      destruct (chartPoints (p_legs props) (daxSpot (p_marketData props))
                  viewRange); reflexivity. }
    rewrite E. cbn [value ret fst].
    split; [reflexivity|]. split.
    + rewrite map_map. cbn [spot]. apply map_id.
    + apply Forall_forall. intros pt Hpt.
      apply in_map_iff in Hpt. destruct Hpt as (x & <- & _). now split.
Qed.

End PayoffTheorems.

Lemma payoff_sampler_degenerate_and_closed_witness :
  data {| p_legs := []; p_marketData := sampleMarket; p_multiplier := 5;
          structureStatus := Some Active; p_realizedPnl := None |} 20 0
  = ret []
  /\ Forall (fun pt => pnlExpiry pt = - (241 # 2) /\ pnlSim pt = - (241 # 2))
            (value (data sampleClosedProps 20 0)).
Proof.
  split.
  - apply payoff_sampler_degenerate_and_closed. reflexivity.
  - apply (payoff_sampler_degenerate_and_closed sampleClosedProps 20 0);
      reflexivity.
Defined.

(* ------------------------------------------------------------------ *)
(** ** Ordering of the closed structures *)

Lemma compareStructures_serial (a b : Structure) :
  hasSerial a -> hasSerial b ->
  compareStructures a b = (getSerial (tag a) - getSerial (tag b))%Z.
Proof.
  unfold hasSerial, compareStructures. intros Ha Hb.
  apply Z.eqb_neq in Ha. apply Z.eqb_neq in Hb. now rewrite Ha, Hb.
Qed.

Lemma compareStructures_date (a b : Structure) :
  ~ hasSerial a \/ ~ hasSerial b ->
  compareStructures a b
  = (getEffectiveClosingDate a - getEffectiveClosingDate b)%Z.
Proof.
  unfold hasSerial, compareStructures. intros H.
  destruct (getSerial (tag a) =? -1)%Z eqn:Ea; [reflexivity|].
  destruct (getSerial (tag b) =? -1)%Z eqn:Eb; [reflexivity|].
  apply Z.eqb_neq in Ea. apply Z.eqb_neq in Eb. tauto.
Qed.

Lemma maxTimestamp_ge (d : Z) (ds : list Z) :
  (d <= maxTimestamp d ds)%Z /\ Forall (fun x => (x <= maxTimestamp d ds)%Z) ds.
Proof.
  unfold maxTimestamp. revert d.
  induction ds as [|y ds IH]; intros d; simpl.
  - split; [lia | constructor].
  - destruct (IH (Z.max d y)) as [H1 H2].
    split; [lia|]. constructor; [lia | assumption].
Qed.

Lemma maxTimestamp_attained (d : Z) (ds : list Z) :
  In (maxTimestamp d ds) (d :: ds).
Proof.
  unfold maxTimestamp. revert d.
  induction ds as [|y ds IH]; intros d; simpl.
  - now left.
  - destruct (IH (Z.max d y)) as [H | H].
    + destruct (Z.max_spec d y) as [[_ E] | [_ E]]; rewrite E in *; auto.
    + right. now right.
Qed.

Lemma legClosingDates_in (ls : list OptionLeg) (d : Z) :
  In d (map getTime (filter isSome (map closingDate ls)))
  <-> exists l, In l ls /\ closingDate l = Some d.
Proof.
  rewrite in_map_iff. split.
  - intros (o & Hd & Ho). apply filter_In in Ho. destruct Ho as [Ho Hsome].
    apply in_map_iff in Ho. destruct Ho as (l & Hl & Hin).
    exists l. split; [assumption|].
    rewrite Hl. destruct o; [simpl in Hd; now subst | discriminate].
  - intros (l & Hin & Hl). exists (Some d). split; [reflexivity|].
    apply filter_In. split; [|reflexivity].
    apply in_map_iff. exists l. now split.
Qed.

(** C8 (as the code has it).  The equity analyzer sorts the Closed
    structures with a pairwise comparator: two structures that both carry a
    serial suffix are compared by serial, and a pair in which one lacks it
    is compared by effective closing date.  The result is a permutation of
    the input; it is ascending by serial when all structures carry a
    serial, and ascending by effective closing date when none does.  The
    effective closing date is the latest closing date among the legs and,
    when no leg has one, the structure's own closing date (0 when that is
    missing too). *)
Theorem closed_structures_ordering (closedStructures : list Structure) :
  Permutation (sortedStructures closedStructures) closedStructures
  /\ (forall a b,
        (hasSerial a -> hasSerial b ->
         compareStructures a b = (getSerial (tag a) - getSerial (tag b))%Z)
        /\ (~ hasSerial a \/ ~ hasSerial b ->
            compareStructures a b
            = (getEffectiveClosingDate a - getEffectiveClosingDate b)%Z))
  /\ (Forall hasSerial closedStructures ->
      StronglySorted bySerial (sortedStructures closedStructures))
  /\ (Forall (fun s => ~ hasSerial s) closedStructures ->
      StronglySorted byEffectiveClosingDate (sortedStructures closedStructures))
  /\ (forall s,
        (forall l d, In l (legs s) -> closingDate l = Some d ->
                     (d <= getEffectiveClosingDate s)%Z
                     /\ exists l', In l' (legs s)
                                   /\ closingDate l'
                                      = Some (getEffectiveClosingDate s))
        /\ ((forall l, In l (legs s) -> closingDate l = None) ->
            getEffectiveClosingDate s = getTime (structure_closingDate s))).
Proof.
  split; [apply Array_sort_perm|].
  split.
  { intros a b. split;
      [apply compareStructures_serial | apply compareStructures_date]. }
  split.
  { intros Hall. rewrite Forall_forall in Hall.
    apply Array_sort_sorted.
    - unfold bySerial. intros a b c. lia.
    - intros x y Hx Hy H. unfold bySerial.
      rewrite compareStructures_serial in H by auto.
      apply Z.ltb_lt in H. lia.
    - intros x y Hx Hy H. unfold bySerial.
      rewrite compareStructures_serial in H by auto.
      apply Z.ltb_ge in H. lia. }
  split.
  { intros Hall. rewrite Forall_forall in Hall.
    apply Array_sort_sorted.
    - unfold byEffectiveClosingDate. intros a b c. lia.
    - intros x y Hx Hy H. unfold byEffectiveClosingDate.
      rewrite compareStructures_date in H by (left; auto).
      apply Z.ltb_lt in H. lia.
    - intros x y Hx Hy H. unfold byEffectiveClosingDate.
      rewrite compareStructures_date in H by (left; auto).
      apply Z.ltb_ge in H. lia. }
  intros s. split.
  - intros l d Hin Hd.
    assert (Hd' : In d (map getTime (filter isSome (map closingDate (legs s)))))
      by (apply legClosingDates_in; eauto).
    unfold getEffectiveClosingDate.
    destruct (map getTime (filter isSome (map closingDate (legs s))))
      as [|d0 ds] eqn:E; [contradiction|].
    destruct (maxTimestamp_ge d0 ds) as [H0 Hds].
    split.
    + destruct Hd' as [<- | Hd']; [assumption|].
      rewrite Forall_forall in Hds. now apply Hds.
    + pose proof (maxTimestamp_attained d0 ds) as Hmax.
      rewrite <- E in Hmax. apply legClosingDates_in in Hmax.
      destruct Hmax as (l' & Hl' & Hc). now exists l'.
  - intros Hnone. unfold getEffectiveClosingDate.
    destruct (map getTime (filter isSome (map closingDate (legs s))))
      as [|d0 ds] eqn:E.
    + destruct (structure_closingDate s); reflexivity.
    + assert (Hd0 : In d0 (map getTime (filter isSome (map closingDate (legs s)))))
        by (rewrite E; now left).
      apply legClosingDates_in in Hd0. destruct Hd0 as (l & Hl & Hc).
      rewrite (Hnone l Hl) in Hc. discriminate.
Qed.

(** C8, as stated, fails when only some structures carry a serial: the two
    numbered structures are placed by serial although their effective
    closing dates (200 before 100) are not ascending. *)
Lemma mixed_serials_not_ordered_by_date :
  ~ Forall hasSerial [sampleSecond; sampleFirst; sampleUnnumbered]
  /\ sortedStructures [sampleSecond; sampleFirst; sampleUnnumbered]
     = [sampleFirst; sampleSecond; sampleUnnumbered]
  /\ map getEffectiveClosingDate
       (sortedStructures [sampleSecond; sampleFirst; sampleUnnumbered])
     = [200; 100; 300]%Z
  /\ ~ StronglySorted byEffectiveClosingDate
         (sortedStructures [sampleSecond; sampleFirst; sampleUnnumbered]).
Proof.
  split; [|split; [|split]].
  - intros H. inversion H as [|? ? _ H1]; subst.
    inversion H1 as [|? ? _ H2]; subst.
    inversion H2 as [|? ? H3 _]; subst.
    apply H3. reflexivity.
  - reflexivity.
  - reflexivity.
  - intros H. change (sortedStructures _)
      with [sampleFirst; sampleSecond; sampleUnnumbered] in H.
    apply StronglySorted_inv in H. destruct H as [_ H].
    inversion H as [|? ? H1 _]; subst.
    unfold byEffectiveClosingDate in H1. vm_compute in H1. now apply H1.
Qed.

Lemma closed_structures_ordering_witness :
  StronglySorted bySerial (sortedStructures [sampleSecond; sampleFirst])
  /\ StronglySorted byEffectiveClosingDate (sortedStructures [sampleUnnumbered])
  /\ compareStructures sampleSecond sampleFirst = 1%Z.
Proof.
  split; [|split].
  - apply closed_structures_ordering.
    repeat constructor; discriminate.
  - apply closed_structures_ordering.
    repeat constructor. intros H. now apply H.
  - destruct (closed_structures_ordering []) as (_ & Hcmp & _).
    destruct (Hcmp sampleSecond sampleFirst) as [Hs _].
    rewrite Hs; [reflexivity | discriminate | discriminate].
Defined.

(* ------------------------------------------------------------------ *)
(** ** Equity and drawdown *)

Lemma fold_left_invariant {A B} (P : B -> Prop) (f : B -> A -> B) (l : list A) :
  (forall b a, P b -> P (f b a)) -> forall b, P b -> P (fold_left f l b).
Proof.
  intros Hstep. induction l as [|a l IH]; intros b Hb; simpl.
  - assumption.
  - apply IH, Hstep, Hb.
Qed.

Lemma snoc_split {A} (l : list A) (x : A) (pre : list A) (p : A) (suf : list A) :
  l ++ [x] = pre ++ p :: suf ->
  (suf = [] /\ pre = l /\ p = x)
  \/ (exists suf', suf = suf' ++ [x] /\ l = pre ++ p :: suf').
Proof.
  destruct suf as [|z suf' _] using rev_ind; intros H.
  - apply app_inj_tail in H. destruct H as [-> ->]. now left.
  - rewrite app_comm_cons, app_assoc in H.
    apply app_inj_tail in H. destruct H as [-> ->]. right. now exists suf'.
Qed.

Lemma Forall2_Qeq_refl (l : list Q) : Forall2 Qeq l l.
Proof. induction l; constructor; [reflexivity | assumption]. Qed.

Lemma Forall2_Qeq_trans (l1 l2 l3 : list Q) :
  Forall2 Qeq l1 l2 -> Forall2 Qeq l2 l3 -> Forall2 Qeq l1 l3.
Proof.
  intros H. revert l3.
  induction H as [|x y l1 l2 Hxy _ IH]; intros l3 H'; inversion H'; subst.
  - constructor.
  - constructor; [now rewrite Hxy | now apply IH].
Qed.

Lemma spec_equityWalk_proper (pnls : list Q) (e e' : Q) :
  e == e' -> Forall2 Qeq (spec_equityWalk e pnls) (spec_equityWalk e' pnls).
Proof.
  revert e e'. induction pnls as [|x t IH]; intros e e' He; simpl.
  - constructor.
  - constructor; [now rewrite He | apply IH; now rewrite He].
Qed.

Section EquityProperties.

Variable formatDate : Z -> string.
Variable cap : Q.

Lemma equityInvariant_start : equityInvariant cap [startPoint cap].
Proof.
  repeat split.
  - now exists [].
  - repeat constructor. simpl. lra.
  - intros pre p suf H.
    destruct pre as [|q pre]; simpl in H.
    + injection H as <- _. simpl. unfold Math_max. simpl.
      rewrite (Q.max_l cap cap) by apply Qle_refl. ring.
    + injection H as _ H. destruct pre; discriminate.
Qed.

Lemma equityInvariant_step (st : Q * list EquityPoint) (entry : nat * Structure) :
  equityInvariant cap (snd st) ->
  equityInvariant cap (snd (equityStep formatDate cap st entry)).
Proof.
  intros ((rest & Hstart) & Hneg & Hdd).
  unfold equityStep. cbn [snd].
  set (cur := cap + (fst st + orZero (realizedPnl (snd entry)))).
  repeat split.
  - exists (rest ++ [{| uniqueId :=
                          (NilZero.string_of_uint (Nat.to_uint (fst entry))
                           ++ "-" ++ structure_id (snd entry))%string;
                        name := formatDate (getEffectiveClosingDate (snd entry));
                        ep_tag := tag (snd entry);
                        equity := cur;
                        drawdown :=
                          cur - Math_max cap (map equity (snd st) ++ [cur]);
                        date := getEffectiveClosingDate (snd entry) |}]).
    now rewrite Hstart.
  - apply Forall_app. split; [assumption|].
    constructor; [|constructor]. cbn [drawdown].
    destruct (Math_max_ge cap (map equity (snd st) ++ [cur])) as [_ Hall].
    apply Forall_app in Hall. destruct Hall as [_ Hcur].
    inversion Hcur; subst. lra.
  - intros pre p suf H.
    apply snoc_split in H.
    destruct H as [(-> & -> & ->) | (suf' & -> & H)].
    + reflexivity.
    + now apply (Hdd pre p suf').
Qed.

Lemma equityWalk_fold (l : list Structure) (i : nat) (c : Q)
  (dp : list EquityPoint) :
  Forall2 Qeq
    (map equity
       (snd (fold_left (equityStep formatDate cap)
               (combine (seq i (List.length l)) l) (c, dp))))
    (map equity dp ++ spec_equityWalk (cap + c) (map pnlOf l)).
Proof.
  revert i c dp.
  induction l as [|s t IH]; intros i c dp; simpl.
  - rewrite app_nil_r. apply Forall2_Qeq_refl.
  - eapply Forall2_Qeq_trans; [apply IH|].
    unfold equityStep. cbn [fst snd].
    rewrite map_app, <- app_assoc. cbn [map app equity].
    apply Forall2_app; [apply Forall2_Qeq_refl|].
    unfold pnlOf.
    constructor; [ring|].
    apply spec_equityWalk_proper. ring.
Qed.

Lemma equityChartData_cases (structures : list Structure) :
  (filter isClosedStructure structures = []
   /\ equityChartData formatDate structures cap = [])
  \/ (filter isClosedStructure structures <> []
      /\ equityChartData formatDate structures cap
         = snd (fold_left (equityStep formatDate cap)
                  (combine
                     (seq 0 (List.length
                               (sortedStructures
                                  (filter isClosedStructure structures))))
                     (sortedStructures (filter isClosedStructure structures)))
                  (0, [startPoint cap]))).
Proof.
  unfold equityChartData.
  destruct (filter isClosedStructure structures) as [|s l] eqn:E.
  - now left.
  - right. split; [discriminate | reflexivity].
Qed.

Lemma equityChartData_invariant (structures : list Structure) :
  equityChartData formatDate structures cap <> [] ->
  equityInvariant cap (equityChartData formatDate structures cap).
Proof.
  intros Hne.
  destruct (equityChartData_cases structures) as [[_ E] | [_ E]].
  - contradiction.
  - rewrite E.
    apply (fold_left_invariant (fun st => equityInvariant cap (snd st))).
    + intros b a. apply equityInvariant_step.
    + apply equityInvariant_start.
Qed.

End EquityProperties.

(** C9.  Walking the ordered Closed structures from the initial capital with
    equity += realizedPnl (the emitted equities are the capital followed by
    the running sums), each emitted drawdown is the point's equity minus
    the highest equity up to and including it, starting capital included,
    and is at most 0; maxDrawdown is the minimum of the emitted drawdowns
    (a lower bound that is attained), and it is 0 when the series has fewer
    than two points. *)
Theorem drawdown_nonpositive_and_maxDrawdown_is_minimum
  (formatDate : Z -> string) (structures : list Structure) (cap : Q) :
  let series := equityChartData formatDate structures cap in
  let sorted := sortedStructures (filter isClosedStructure structures) in
  let m := maxDrawdown (keyMetrics formatDate structures cap) in
  (series <> [] ->
   Forall2 Qeq (map equity series) (cap :: spec_equityWalk cap (map pnlOf sorted)))
  /\ (forall pre p suf,
        series = pre ++ p :: suf ->
        drawdown p
        == equity p - Math_max cap (map equity pre ++ [equity p]))
  /\ Forall (fun p => drawdown p <= 0) series
  /\ Forall (fun p => m <= drawdown p) series
  /\ (series <> [] -> Exists (fun p => drawdown p == m) series)
  /\ ((List.length series < 2)%nat -> m = 0).
Proof.
  cbv zeta.
  assert (Hinv : equityChartData formatDate structures cap <> [] ->
                 equityInvariant cap (equityChartData formatDate structures cap))
    by apply equityChartData_invariant.
  assert (Hm : maxDrawdown (keyMetrics formatDate structures cap)
               = if (1 <? List.length (equityChartData formatDate structures cap))%nat
                 then Math_min 0 (map drawdown
                                    (equityChartData formatDate structures cap))
                 else 0) by reflexivity.
  rewrite Hm. clear Hm.
  set (series := equityChartData formatDate structures cap) in *.
  split.
  { intros Hne. subst series.
    destruct (equityChartData_cases formatDate cap structures) as [[_ E] | [_ E]];
      [contradiction|].
    rewrite E.
    eapply Forall2_Qeq_trans; [apply equityWalk_fold|].
    cbn [map app equity startPoint].
    constructor; [reflexivity|].
    apply spec_equityWalk_proper. ring. }
  split.
  { intros pre p suf H.
    assert (Hne : series <> []) by (rewrite H; now destruct pre).
    destruct (Hinv Hne) as (_ & _ & Hdd). now apply (Hdd pre p suf). }
  split.
  { destruct series as [|p0 rest] eqn:E; [constructor|].
    assert (Hne : p0 :: rest <> []) by discriminate.
    now destruct (Hinv Hne) as (_ & Hneg & _). }
  split.
  { destruct (1 <? List.length series)%nat eqn:Hlen.
    - destruct (Math_min_le 0 (map drawdown series)) as [_ Hall].
      rewrite Forall_map in Hall. exact Hall.
    - apply Nat.ltb_ge in Hlen.
      destruct series as [|p0 rest] eqn:E; [constructor|].
      assert (Hne : p0 :: rest <> []) by discriminate.
      destruct (Hinv Hne) as ((rest' & Hstart) & _ & _).
      destruct rest; [|simpl in Hlen; lia].
      injection Hstart as -> _. repeat constructor. simpl. lra. }
  split.
  { intros Hne. destruct (Hinv Hne) as ((rest & Hstart) & _ & _).
    destruct (1 <? List.length series)%nat.
    - pose proof (Math_min_attained 0 (map drawdown series)) as Hex.
      inversion Hex as [? ? H | ? ? H]; subst.
      + apply Exists_exists. exists (startPoint cap).
        split; [rewrite Hstart; now left|].
        cbn [drawdown startPoint]. now symmetry.
      + apply Exists_exists in H. destruct H as (y & Hy & Ey).
        apply in_map_iff in Hy. destruct Hy as (p & <- & Hp).
        apply Exists_exists. exists p. split; [assumption | now symmetry].
    - rewrite Hstart. left. reflexivity. }
  intros Hlen.
  destruct (1 <? List.length series)%nat eqn:E; [|reflexivity].
  apply Nat.ltb_lt in E. lia.
Qed.

Lemma drawdown_nonpositive_and_maxDrawdown_is_minimum_witness :
  Forall2 Qeq
    (map equity (equityChartData sampleLocale [sampleFirst] 10000))
    [10000; 10000 + - (241 # 2)]
  /\ Exists (fun p =>
               drawdown p
               == maxDrawdown (keyMetrics sampleLocale [sampleFirst] 10000))
            (equityChartData sampleLocale [sampleFirst] 10000)
  /\ maxDrawdown (keyMetrics sampleLocale [sampleStructure] 10000) = 0.
Proof.
  split; [|split].
  - apply (drawdown_nonpositive_and_maxDrawdown_is_minimum sampleLocale
             [sampleFirst] 10000). discriminate.
  - apply (drawdown_nonpositive_and_maxDrawdown_is_minimum sampleLocale
             [sampleFirst] 10000). discriminate.
  - apply (drawdown_nonpositive_and_maxDrawdown_is_minimum sampleLocale
             [sampleStructure] 10000). simpl. lia.
Defined.

(* ================================================================== *)
(** * Further properties of the engine *)

(* ------------------------------------------------------------------ *)
(** ** Sums *)

Lemma Qsum_app (l1 l2 : list Q) : Qsum (l1 ++ l2) == Qsum l1 + Qsum l2.
Proof.
  induction l1 as [|x l1 IH]; simpl.
  - rewrite Qsum_nil. ring.
  - rewrite !Qsum_cons, IH. ring.
Qed.

Lemma Qsum_perm (l l' : list Q) : Permutation l l' -> Qsum l == Qsum l'.
Proof.
  induction 1 as [|x l l' _ IH|x y l|l l' l'' _ IH1 _ IH2].
  - reflexivity.
  - now rewrite !Qsum_cons, IH.
  - rewrite !Qsum_cons. ring.
  - now rewrite IH1.
Qed.

Lemma Qsum_pos (l : list Q) :
  Forall (fun x => 0 < x) l -> 0 <= Qsum l /\ (l <> [] -> 0 < Qsum l).
Proof.
  induction 1 as [|x l Hx _ [IH1 IH2]].
  - split; [rewrite Qsum_nil; lra | congruence].
  - rewrite Qsum_cons. split; [lra | intros _; lra].
Qed.

Lemma Qsum_neg (l : list Q) :
  Forall (fun x => x < 0) l -> Qsum l <= 0 /\ (l <> [] -> Qsum l < 0).
Proof.
  induction 1 as [|x l Hx _ [IH1 IH2]].
  - split; [rewrite Qsum_nil; lra | congruence].
  - rewrite Qsum_cons. split; [lra | intros _; lra].
Qed.

(** A sum splits into its positive and its negative terms. *)
Lemma Qsum_split_sign {A} (f : A -> Q) (l : list A) :
  Qsum (map f l)
  == Qsum (map f (filter (fun x => Qltb 0 (f x)) l))
     + Qsum (map f (filter (fun x => Qltb (f x) 0) l)).
Proof.
  induction l as [|x l IH]; simpl.
  - rewrite Qsum_nil. ring.
  - rewrite Qsum_cons, IH.
    destruct (Qltb 0 (f x)) eqn:Ep, (Qltb (f x) 0) eqn:En; simpl;
      rewrite ?Qsum_cons;
      try apply Qltb_lt in Ep; try apply Qltb_lt in En;
      try apply Qltb_ge in Ep; try apply Qltb_ge in En;
      lra.
Qed.

Lemma countOf_pos {A} (l : list A) : l <> [] -> 0 < countOf l.
Proof.
  destruct l as [|x l]; [congruence|]. intros _.
  unfold countOf. change 0 with (inject_Z 0). rewrite <- Zlt_Qlt.
  simpl List.length. lia.
Qed.

Lemma countOf_nonneg {A} (l : list A) : 0 <= countOf l.
Proof.
  unfold countOf. change 0 with (inject_Z 0). rewrite <- Zle_Qle. lia.
Qed.

Lemma countOf_filter_le {A} (p : A -> bool) (l : list A) :
  countOf (filter p l) <= countOf l.
Proof.
  unfold countOf. rewrite <- Zle_Qle.
  apply inj_le. induction l as [|x l IH]; simpl; [lia|].
  destruct (p x); simpl; lia.
Qed.

(* ------------------------------------------------------------------ *)
(** ** The equity series as a whole *)

Section EquitySeries.

Variable formatDate : Z -> string.
Variable cap : Q.

Lemma equity_fold_length (entries : list (nat * Structure))
  (st : Q * list EquityPoint) :
  List.length (snd (fold_left (equityStep formatDate cap) entries st))
  = (List.length (snd st) + List.length entries)%nat.
Proof.
  revert st. induction entries as [|e entries IH]; intros st; simpl.
  - lia.
  - rewrite IH. unfold equityStep. cbn [snd]. rewrite length_app. simpl. lia.
Qed.

Lemma spec_equityWalk_last (pnls : list Q) (e : Q) :
  pnls <> [] ->
  exists pre y, spec_equityWalk e pnls = pre ++ [y] /\ y == e + Qsum pnls.
Proof.
  revert e. induction pnls as [|x t IH]; intros e Hne; [congruence|].
  destruct t as [|x' t'].
  - exists [], (e + x). split; [reflexivity|]. rewrite Qsum_cons, Qsum_nil. ring.
  - destruct (IH (e + x)) as (pre & y & Hw & Hy); [discriminate|].
    exists ((e + x) :: pre), y. split.
    + change (spec_equityWalk e (x :: x' :: t'))
        with ((e + x) :: spec_equityWalk (e + x) (x' :: t')).
      now rewrite Hw.
    + rewrite Hy, (Qsum_cons x). ring.
Qed.

Lemma Forall2_Qeq_last (l : list Q) (pre : list Q) (y : Q) :
  Forall2 Qeq l (pre ++ [y]) ->
  exists pre' y', l = pre' ++ [y'] /\ y' == y.
Proof.
  intros H. apply Forall2_app_inv_r in H.
  destruct H as (l1 & l2 & _ & H2 & ->).
  inversion H2 as [|y' ? l2' ? Hy Hnil]; subst.
  inversion Hnil; subst. now exists l1, y'.
Qed.

End EquitySeries.

(** X1.  The equity series is empty exactly when there is no Closed
    structure; otherwise it has one point per Closed structure plus the
    synthetic starting point, so it never has exactly one point. *)
Theorem equity_series_length
  (formatDate : Z -> string) (structures : list Structure) (cap : Q) :
  List.length (equityChartData formatDate structures cap)
  = match filter isClosedStructure structures with
    | [] => 0%nat
    | closed => S (List.length closed)
    end.
Proof.
  destruct (equityChartData_cases formatDate cap structures) as [[E ->] | [Hne ->]].
  - now rewrite E.
  - rewrite equity_fold_length, length_combine, length_seq, Nat.min_id.
    unfold sortedStructures.
    rewrite (Permutation_length (Array_sort_perm _ _)).
    destruct (filter isClosedStructure structures); [congruence | reflexivity].
Qed.

(** X2.  When there is a Closed structure, the last point of the equity
    series stands at the initial capital plus the total net P&L reported
    by the key metrics, whatever order the structures were walked in. *)
Theorem final_equity_is_capital_plus_total
  (formatDate : Z -> string) (structures : list Structure) (cap : Q) :
  filter isClosedStructure structures <> [] ->
  exists p,
    last_error (equityChartData formatDate structures cap) = Some p
    /\ equity p == cap + totalNetPnl (keyMetrics formatDate structures cap).
Proof.
  intros Hne.
  destruct (equityChartData_cases formatDate cap structures) as [[E _] | [_ E]];
    [contradiction|].
  set (closed := filter isClosedStructure structures) in *.
  pose proof (equityWalk_fold formatDate cap (sortedStructures closed) 0 0
                [startPoint cap]) as Hwalk.
  rewrite <- E in Hwalk. cbn [map app equity startPoint] in Hwalk.
  assert (Hsorted : map pnlOf (sortedStructures closed) <> []).
  { intros H. apply map_eq_nil in H.
    apply Hne. apply Permutation_nil.
    rewrite <- H. unfold sortedStructures. apply Array_sort_perm. }
  destruct (spec_equityWalk_last (map pnlOf (sortedStructures closed)) (cap + 0)
              Hsorted) as (pre & y & Hw & Hy).
  rewrite Hw in Hwalk.
  change (cap :: pre ++ [y]) with ((cap :: pre) ++ [y]) in Hwalk.
  apply Forall2_Qeq_last in Hwalk. destruct Hwalk as (pre' & y' & Hl & Hy').
  apply (f_equal (@rev Q)) in Hl. rewrite rev_app_distr in Hl. cbn [rev app] in Hl.
  rewrite <- map_rev in Hl.
  destruct (rev (equityChartData formatDate structures cap)) as [|p rest] eqn:Er;
    [discriminate|].
  exists p. split.
  - unfold last_error. now rewrite Er.
  - cbn [map] in Hl. injection Hl as Hp _.
    rewrite Hp, Hy', Hy.
    assert (Hk : totalNetPnl (keyMetrics formatDate structures cap)
                 = Qsum (map pnlOf closed)) by reflexivity.
    rewrite Hk.
    rewrite (Qsum_perm (map pnlOf (sortedStructures closed)) (map pnlOf closed)).
    + ring.
    + apply Permutation_map. unfold sortedStructures. apply Array_sort_perm.
Qed.

Lemma final_equity_is_capital_plus_total_witness :
  exists p,
    last_error (equityChartData sampleLocale
                  [sampleSecond; sampleFirst; sampleUnnumbered] 10000) = Some p
    /\ equity p
       == 10000 + totalNetPnl (keyMetrics sampleLocale
                                 [sampleSecond; sampleFirst; sampleUnnumbered]
                                 10000).
Proof.
  apply final_equity_is_capital_plus_total. discriminate.
Defined.

(* ------------------------------------------------------------------ *)
(** ** Key metrics *)

Section KeyMetricsProperties.

Variable formatDate : Z -> string.
Variables (structures : list Structure) (cap : Q).

Local Abbreviation km := (keyMetrics formatDate structures cap).
Local Abbreviation closed := (filter isClosedStructure structures).
Local Abbreviation winners := (winningTrades structures).
Local Abbreviation losers := (losingTrades structures).

Lemma winners_positive : Forall (fun x => 0 < x) (map pnlOf winners).
Proof.
  apply Forall_map, Forall_forall. intros s Hs.
  apply filter_In in Hs. now apply Qltb_lt.
Qed.

Lemma losers_negative : Forall (fun x => x < 0) (map pnlOf losers).
Proof.
  apply Forall_map, Forall_forall. intros s Hs.
  apply filter_In in Hs. now apply Qltb_lt.
Qed.

Lemma grossLoss_eq : Qabs (Qsum (map pnlOf losers)) == - Qsum (map pnlOf losers).
Proof.
  apply Qabs_neg. apply (Qsum_neg _ losers_negative).
Qed.

Lemma length_pos_iff {A} (l : list A) : (0 <? List.length l)%nat = true <-> l <> [].
Proof.
  destruct l; simpl; split; intros H;
    try discriminate; try reflexivity; now elim H.
Qed.

Lemma avgWin_times_count : avgWin km * countOf winners == Qsum (map pnlOf winners).
Proof.
  change (avgWin km)
    with (if (0 <? List.length winners)%nat
          then Qsum (map pnlOf winners) / countOf winners else 0).
  destruct (0 <? List.length winners)%nat eqn:E.
  - apply length_pos_iff in E. pose proof (countOf_pos winners E). field. lra.
  - destruct winners as [|w ws]; [|discriminate].
    simpl. rewrite Qsum_nil. ring.
Qed.

Lemma avgLoss_times_count : avgLoss km * countOf losers == - Qsum (map pnlOf losers).
Proof.
  change (avgLoss km)
    with (if (0 <? List.length losers)%nat
          then Qabs (Qsum (map pnlOf losers)) / countOf losers else 0).
  destruct (0 <? List.length losers)%nat eqn:E.
  - apply length_pos_iff in E. pose proof (countOf_pos losers E).
    rewrite grossLoss_eq. field. lra.
  - destruct losers as [|w ws]; [|discriminate].
    simpl. rewrite Qsum_nil. ring.
Qed.

Lemma grossLoss_pos_iff : 0 < Qabs (Qsum (map pnlOf losers)) <-> losers <> [].
Proof.
  rewrite grossLoss_eq.
  destruct (Qsum_neg _ losers_negative) as [Hle Hlt].
  split.
  - intros H Hnil. rewrite Hnil in H. simpl in H. rewrite Qsum_nil in H. lra.
  - intros Hne.
    assert (map pnlOf losers <> []) by (intros E; apply map_eq_nil in E; auto).
    specialize (Hlt H). lra.
Qed.

End KeyMetricsProperties.

(** X3.  The total net P&L of the key metrics is the average win times the
    number of winning trades minus the average loss times the number of
    losing trades; break-even trades count in neither. *)
Theorem total_is_wins_minus_losses
  (formatDate : Z -> string) (structures : list Structure) (cap : Q) :
  totalNetPnl (keyMetrics formatDate structures cap)
  == avgWin (keyMetrics formatDate structures cap)
     * countOf (winningTrades structures)
     - avgLoss (keyMetrics formatDate structures cap)
       * countOf (losingTrades structures).
Proof.
  rewrite avgWin_times_count, avgLoss_times_count.
  change (totalNetPnl (keyMetrics formatDate structures cap))
    with (Qsum (map pnlOf (filter isClosedStructure structures))).
  rewrite (Qsum_split_sign pnlOf). unfold winningTrades, losingTrades. ring.
Qed.

(** X4.  The profit factor is infinite (no value) exactly when no Closed
    structure lost money; when it has a value it is not negative, and it
    is zero exactly when no Closed structure made money. *)
Theorem profit_factor_cases
  (formatDate : Z -> string) (structures : list Structure) (cap : Q) :
  (profitFactor (keyMetrics formatDate structures cap) = None
   <-> losingTrades structures = [])
  /\ (forall pf,
        profitFactor (keyMetrics formatDate structures cap) = Some pf ->
        0 <= pf /\ (pf == 0 <-> winningTrades structures = [])).
Proof.
  change (profitFactor (keyMetrics formatDate structures cap))
    with (if Qltb 0 (Qabs (Qsum (map pnlOf (losingTrades structures))))
          then Some (Qsum (map pnlOf (winningTrades structures))
                     / Qabs (Qsum (map pnlOf (losingTrades structures))))
          else None).
  pose proof (grossLoss_pos_iff structures) as Hloss.
  destruct (Qltb 0 (Qabs (Qsum (map pnlOf (losingTrades structures))))) eqn:E.
  - apply Qltb_lt in E. pose proof (proj1 Hloss E) as Hne.
    split; [split; [discriminate | contradiction]|].
    intros pf Hpf. injection Hpf as <-.
    destruct (Qsum_pos _ (winners_positive structures)) as [Hge Hgt].
    set (gp := Qsum (map pnlOf (winningTrades structures))) in *.
    set (gl := Qabs (Qsum (map pnlOf (losingTrades structures)))) in *.
    assert (Hinv : 0 < / gl) by now apply Qinv_lt_0_compat.
    split.
    + unfold Qdiv. apply Qmult_le_0_compat; lra.
    + split.
      * intros Hz.
        destruct (winningTrades structures) as [|w ws] eqn:Ew; [reflexivity|].
        assert (Hpos : 0 < gp) by (apply Hgt; discriminate).
        assert (0 < gp / gl) by (unfold Qdiv; now apply Qmult_lt_0_compat).
        lra.
      * intros Hnil. unfold gp. rewrite Hnil. simpl. rewrite Qsum_nil.
        unfold Qdiv. ring.
  - apply Qltb_ge in E.
    split.
    + split; [intros _|reflexivity].
      destruct (losingTrades structures) as [|l ls] eqn:El; [reflexivity|].
      assert (0 < Qabs (Qsum (map pnlOf (l :: ls)))) by (apply Hloss; discriminate).
      lra.
    + discriminate.
Qed.

(** X5.  The win rate is a percentage between 0 and 100, the average win
    and the average loss are not negative, and the maximum drawdown is not
    positive. *)
Theorem key_metrics_ranges
  (formatDate : Z -> string) (structures : list Structure) (cap : Q) :
  let km := keyMetrics formatDate structures cap in
  0 <= winRate km /\ winRate km <= 100
  /\ 0 <= avgWin km /\ 0 <= avgLoss km
  /\ maxDrawdown km <= 0.
Proof.
  cbv zeta.
  set (closed := filter isClosedStructure structures).
  destruct (Qsum_pos _ (winners_positive structures)) as [Hgp _].
  pose proof (Qabs_nonneg (Qsum (map pnlOf (losingTrades structures)))) as Hgl.
  split; [|split; [|split; [|split]]].
  - change (winRate (keyMetrics formatDate structures cap))
      with (if (0 <? List.length closed)%nat
            then countOf (winningTrades structures) / countOf closed * 100
            else 0).
    destruct (0 <? List.length closed)%nat eqn:E; [|lra].
    apply length_pos_iff in E. pose proof (countOf_pos closed E) as Hc.
    pose proof (countOf_nonneg (winningTrades structures)) as Hw.
    assert (0 <= countOf (winningTrades structures) / countOf closed).
    { apply Qle_shift_div_l; lra. }
    lra.
  - change (winRate (keyMetrics formatDate structures cap))
      with (if (0 <? List.length closed)%nat
            then countOf (winningTrades structures) / countOf closed * 100
            else 0).
    destruct (0 <? List.length closed)%nat eqn:E; [|lra].
    apply length_pos_iff in E. pose proof (countOf_pos closed E) as Hc.
    assert (countOf (winningTrades structures) / countOf closed <= 1).
    { apply Qle_shift_div_r; [assumption|].
      pose proof (countOf_filter_le (fun s => Qltb 0 (pnlOf s)) closed).
      unfold winningTrades. fold closed. lra. }
    lra.
  - change (avgWin (keyMetrics formatDate structures cap))
      with (if (0 <? List.length (winningTrades structures))%nat
            then Qsum (map pnlOf (winningTrades structures))
                 / countOf (winningTrades structures) else 0).
    destruct (0 <? List.length (winningTrades structures))%nat eqn:E; [|lra].
    apply length_pos_iff in E. pose proof (countOf_pos _ E).
    apply Qle_shift_div_l; lra.
  - change (avgLoss (keyMetrics formatDate structures cap))
      with (if (0 <? List.length (losingTrades structures))%nat
            then Qabs (Qsum (map pnlOf (losingTrades structures)))
                 / countOf (losingTrades structures) else 0).
    destruct (0 <? List.length (losingTrades structures))%nat eqn:E; [|lra].
    apply length_pos_iff in E. pose proof (countOf_pos _ E).
    apply Qle_shift_div_l; lra.
  - change (maxDrawdown (keyMetrics formatDate structures cap))
      with (if (1 <? List.length (equityChartData formatDate structures cap))%nat
            then Math_min 0 (map drawdown
                               (equityChartData formatDate structures cap))
            else 0).
    destruct (1 <? List.length (equityChartData formatDate structures cap))%nat;
      [|lra].
    apply Math_min_le.
Qed.

Lemma profit_factor_cases_witness :
  0 <= 0 # 241
  /\ (0 # 241 == 0 <-> winningTrades [sampleFirst] = []).
Proof.
  apply (profit_factor_cases sampleLocale [sampleFirst] 10000). reflexivity.
Defined.

(* ------------------------------------------------------------------ *)
(** ** The bar charts and the axis of the equity chart *)

Lemma equity_fold_tags (formatDate : Z -> string) (cap : Q)
  (l : list Structure) (i : nat) (c : Q) (dp : list EquityPoint) :
  let out := snd (fold_left (equityStep formatDate cap)
                    (combine (seq i (List.length l)) l) (c, dp)) in
  map ep_tag out = map ep_tag dp ++ map tag l
  /\ map date out = map date dp ++ map getEffectiveClosingDate l.
Proof.
  cbv zeta. revert i c dp.
  induction l as [|s t IH]; intros i c dp; simpl.
  - now rewrite !app_nil_r.
  - destruct (IH (S i) (fst (equityStep formatDate cap (c, dp) (i, s)))
                (snd (equityStep formatDate cap (c, dp) (i, s)))) as [H1 H2].
    rewrite <- surjective_pairing in H1, H2.
    rewrite H1, H2. unfold equityStep. cbn [fst snd].
    rewrite !map_app, <- !app_assoc. now split.
Qed.

(** X6.  When there is a Closed structure, the bars of the individual P&L
    chart follow the equity curve: after the starting point the curve has
    one point per bar, in the same order and under the same label, dated at
    the structure's effective closing date, and its equities are the running
    sums of the bars' P&L from the initial capital. *)
Theorem individual_bars_follow_equity_curve
  (formatDate : Z -> string) (structures : list Structure) (cap : Q) :
  filter isClosedStructure structures <> [] ->
  exists rest,
    equityChartData formatDate structures cap = startPoint cap :: rest
    /\ map ep_tag rest = map bar_name (individualPnlData structures)
    /\ map date rest
       = map getEffectiveClosingDate
           (sortedStructures (filter isClosedStructure structures))
    /\ Forall2 Qeq (map equity rest)
         (spec_equityWalk cap (map bar_pnl (individualPnlData structures))).
Proof.
  intros Hne.
  destruct (equityChartData_cases formatDate cap structures) as [[E _] | [_ E]];
    [contradiction|].
  set (sorted := sortedStructures (filter isClosedStructure structures)) in *.
  assert (Hser : equityChartData formatDate structures cap <> []).
  { rewrite E. intros H. apply (f_equal (@List.length EquityPoint)) in H.
    rewrite equity_fold_length in H. simpl in H. discriminate. }
  destruct (equityChartData_invariant formatDate cap structures Hser)
    as ((rest & Hstart) & _ & _).
  exists rest. split; [assumption|].
  destruct (equity_fold_tags formatDate cap sorted 0 0 [startPoint cap])
    as [Htags Hdates].
  pose proof (equityWalk_fold formatDate cap sorted 0 0 [startPoint cap]) as Hwalk.
  rewrite <- E, Hstart in Htags, Hdates, Hwalk.
  cbn [map app] in Htags, Hdates, Hwalk.
  injection Htags as Htags. injection Hdates as Hdates.
  inversion Hwalk as [|? ? ? ? _ Hrest]; subst.
  unfold individualPnlData. fold sorted. rewrite !map_map. cbn [bar_name bar_pnl].
  repeat split; try assumption.
  eapply Forall2_Qeq_trans; [exact Hrest|].
  apply spec_equityWalk_proper. cbn [equity startPoint]. ring.
Qed.

Lemma individual_bars_follow_equity_curve_witness :
  exists rest,
    equityChartData sampleLocale [sampleSecond; sampleFirst; sampleUnnumbered]
      10000 = startPoint 10000 :: rest
    /\ map ep_tag rest = ["Condor 1"; "Condor 2"; "Hedge"]%string.
Proof.
  destruct (individual_bars_follow_equity_curve sampleLocale
              [sampleSecond; sampleFirst; sampleUnnumbered] 10000)
    as (rest & Hs & Ht & _); [discriminate|].
  exists rest. split; [exact Hs | exact Ht].
Defined.

Lemma minEquity_le_maxEquity (points : list EquityPoint) (cap : Q) :
  minEquity points cap <= maxEquity points cap
  /\ Forall (fun p => minEquity points cap <= equity p
                      /\ equity p <= maxEquity points cap) points.
Proof.
  unfold minEquity, maxEquity.
  destruct points as [|p ps]; simpl.
  - split; [apply Qle_refl | constructor].
  - destruct (Math_min_le (equity p) (map equity ps)) as [H1 H2].
    destruct (Math_max_ge (equity p) (map equity ps)) as [H3 H4].
    rewrite Forall_map in H2, H4.
    split; [lra|]. constructor; [lra|].
    rewrite Forall_forall in *. intros q Hq. split; [now apply H2 | now apply H4].
Qed.

(** X7.  For a non-negative initial capital the y-range [yAxisMin,
    yAxisMax] of the equity chart contains every equity of the series.  The
    lower bound actually drawn, finalYMin, is never negative: it stays at or
    below every equity as long as no equity is negative, and an equity below
    zero falls outside the drawn range. *)
Theorem equity_axis_range (points : list EquityPoint) (cap : Q) :
  let axis := equityAxis points cap in
  (0 <= cap ->
   Forall (fun p => yAxisMin axis <= equity p /\ equity p <= yAxisMax axis)
          points)
  /\ 0 <= finalYMin axis
  /\ (0 <= cap ->
      Forall (fun p => 0 <= equity p) points ->
      Forall (fun p => finalYMin axis <= equity p) points)
  /\ Forall (fun p => equity p < 0 -> equity p < finalYMin axis) points.
Proof.
  cbv zeta.
  destruct (minEquity_le_maxEquity points cap) as [Hmm Hall].
  unfold equityAxis. cbn [yAxisMin yAxisMax finalYMin].
  set (lo := minEquity points cap) in *. set (hi := maxEquity points cap) in *.
  set (pad := if Qeq_bool ((hi - lo) * (1 # 10)) 0 then cap * (1 # 100)
              else (hi - lo) * (1 # 10)).
  assert (Hpad : 0 <= cap -> 0 <= pad).
  { intros Hc. unfold pad.
    destruct (Qeq_bool ((hi - lo) * (1 # 10)) 0); lra. }
  pose proof (Qfloor_le (lo - pad)) as Hfl.
  pose proof (Qle_ceiling (hi + pad)) as Hce.
  pose proof (Q.le_max_l 0 (inject_Z (Qfloor (lo - pad)))) as Hm0.
  assert (Hrange : 0 <= cap ->
                   Forall (fun p => inject_Z (Qfloor (lo - pad)) <= equity p
                                    /\ equity p <= inject_Z (Qceiling (hi + pad)))
                          points).
  { intros Hc. specialize (Hpad Hc).
    eapply Forall_impl; [|exact Hall]. cbv beta. intros p [H1 H2]. lra. }
  split; [exact Hrange|].
  split; [exact Hm0|].
  split.
  - intros Hc Hpos. specialize (Hrange Hc).
    rewrite Forall_forall in *. intros p Hp.
    destruct (Hrange p Hp) as [H1 _]. specialize (Hpos p Hp).
    apply Q.max_lub; assumption.
  - apply Forall_forall. intros p _ Hneg. lra.
Qed.

Lemma equity_axis_range_witness :
  Forall (fun p =>
            yAxisMin (equityAxis (equityChartData sampleLocale [sampleFirst] 10000)
                        10000) <= equity p
            /\ equity p
               <= yAxisMax (equityAxis
                              (equityChartData sampleLocale [sampleFirst] 10000)
                              10000))
         (equityChartData sampleLocale [sampleFirst] 10000).
Proof.
  apply (equity_axis_range (equityChartData sampleLocale [sampleFirst] 10000) 10000).
  discriminate.
Defined.

(** *** Grouping by month *)

Lemma addToMonth_keys (k : string) (x : Q) (obj : list (string * Q)) :
  NoDup (map fst obj) ->
  NoDup (map fst (addToMonth k x obj))
  /\ (forall k', In k' (map fst (addToMonth k x obj))
                 <-> k' = k \/ In k' (map fst obj)).
Proof.
  induction obj as [|[k0 v0] t IH]; intros Hnd; simpl.
  - split; [repeat constructor; auto | intros k'; intuition].
  - inversion Hnd as [|? ? Hnotin Hnd']; subst.
    destruct (String.eqb k0 k) eqn:E.
    + apply String.eqb_eq in E. subst k0. simpl.
      split; [assumption | intros k'; intuition].
    + destruct (IH Hnd') as [IH1 IH2]. apply String.eqb_neq in E. simpl.
      split.
      * constructor; [|assumption]. rewrite IH2. intros [H | H]; auto.
      * intros k'. rewrite IH2. intuition.
Qed.

Lemma addToMonth_value (k : string) (x : Q) (obj : list (string * Q))
  (k' : string) (v' : Q) :
  NoDup (map fst obj) ->
  In (k', v') (addToMonth k x obj) ->
  (k' <> k /\ In (k', v') obj)
  \/ (k' = k /\ ((~ In k (map fst obj) /\ v' == x)
                 \/ exists v, In (k, v) obj /\ v' == v + x)).
Proof.
  induction obj as [|[k0 v0] t IH]; intros Hnd Hin; simpl in *.
  - destruct Hin as [Hin | []]. injection Hin as <- <-.
    right. split; [reflexivity|]. left. split; [tauto | ring].
  - inversion Hnd as [|? ? Hnotin Hnd']; subst.
    destruct (String.eqb k0 k) eqn:E.
    + apply String.eqb_eq in E. subst k0.
      destruct Hin as [Hin | Hin].
      * injection Hin as <- <-. right. split; [reflexivity|].
        right. exists v0. split; [now left | reflexivity].
      * left. split; [|now right].
        intros ->. apply Hnotin. apply (in_map fst) in Hin. exact Hin.
    + apply String.eqb_neq in E.
      destruct Hin as [Hin | Hin].
      * injection Hin as <- <-. left. split; [assumption | now left].
      * destruct (IH Hnd' Hin) as [[Hne H] | [-> [[Hn Hv] | (v & Hv & Hv')]]].
        -- left. split; [assumption | now right].
        -- right. split; [reflexivity|]. left. split; [|assumption].
           intros [H | H]; [now apply E | now apply Hn].
        -- right. split; [reflexivity|]. right. exists v. split; [now right | assumption].
Qed.

Section MonthlyProperties.

Variable monthKeyOf : Z -> string.

Local Abbreviation keyOf := (fun s => monthKeyOf (getEffectiveClosingDate s)).
Local Abbreviation inMonth :=
  (fun (k : string) (s : Structure) => String.eqb (keyOf s) k).

Lemma filter_snoc {A} (p : A -> bool) (l : list A) (x : A) :
  filter p (l ++ [x]) = filter p l ++ (if p x then [x] else []).
Proof.
  induction l as [|y l IH]; simpl.
  - destruct (p x); reflexivity.
  - rewrite IH. destruct (p y); reflexivity.
Qed.

Lemma filter_none {A} (p : A -> bool) (l : list A) :
  (forall x, In x l -> p x = false) -> filter p l = [].
Proof.
  induction l as [|y l IH]; intros H; simpl; [reflexivity|].
  rewrite (H y) by now left. apply IH. intros x Hx. apply H. now right.
Qed.

Lemma monthsInvariant_step (processed : list Structure)
  (obj : list (string * Q)) (s : Structure) :
  monthsInvariant monthKeyOf processed obj ->
  monthsInvariant monthKeyOf (processed ++ [s])
    (addToMonth (keyOf s) (pnlOf s) obj).
Proof.
  intros (Hnd & Hkeys & Hvals).
  destruct (addToMonth_keys (keyOf s) (pnlOf s) obj Hnd) as [Hnd' Hkeys'].
  split; [assumption|]. split.
  - intros k. rewrite Hkeys', map_app, in_app_iff, Hkeys. simpl. intuition.
  - intros k v Hin.
    rewrite filter_snoc, map_app, Qsum_app.
    destruct (addToMonth_value _ _ _ _ _ Hnd Hin)
      as [[Hne Hold] | [-> [[Hnew Hv] | (v0 & Hold & Hv)]]].
    + assert (E : String.eqb (keyOf s) k = false)
        by (apply String.eqb_neq; congruence).
      rewrite E. simpl. rewrite Qsum_nil, (Hvals k v Hold). ring.
    + rewrite String.eqb_refl. simpl. rewrite Qsum_cons, Qsum_nil, Hv.
      rewrite filter_none.
      * simpl. rewrite Qsum_nil. ring.
      * intros x Hx. apply String.eqb_neq. intros Hk. apply Hnew.
        apply Hkeys. rewrite <- Hk. now apply (in_map keyOf).
    + rewrite String.eqb_refl. simpl. rewrite Qsum_cons, Qsum_nil, Hv.
      rewrite (Hvals _ v0 Hold). ring.
Qed.

Lemma pnlByMonth_invariant (l : list Structure) :
  monthsInvariant monthKeyOf l (pnlByMonth monthKeyOf l).
Proof.
  unfold pnlByMonth.
  assert (H : forall processed obj,
             monthsInvariant monthKeyOf processed obj ->
             monthsInvariant monthKeyOf (processed ++ l)
               (fold_left (fun obj s => addToMonth (keyOf s)
                                          (orZero (realizedPnl s)) obj) l obj)).
  { induction l as [|s t IH]; intros processed obj Hinv; simpl.
    - now rewrite app_nil_r.
    - replace (processed ++ s :: t) with ((processed ++ [s]) ++ t)
        by (now rewrite <- app_assoc).
      apply IH. now apply monthsInvariant_step. }
  apply (H [] []). split; [constructor|]. split; [tauto | intros k v []].
Qed.

Lemma pnlByMonth_sum (l : list Structure) (obj : list (string * Q)) :
  Qsum (map snd
          (fold_left (fun obj s => addToMonth (keyOf s)
                                     (orZero (realizedPnl s)) obj) l obj))
  == Qsum (map snd obj) + Qsum (map pnlOf l).
Proof.
  revert obj. induction l as [|s t IH]; intros obj; simpl.
  - rewrite Qsum_nil. ring.
  - rewrite IH, Qsum_cons.
    assert (H : forall k x o,
               Qsum (map snd (addToMonth k x o)) == Qsum (map snd o) + x).
    { intros k x o. induction o as [|[k0 v0] o' IHo]; simpl.
      - rewrite Qsum_cons, !Qsum_nil. ring.
      - destruct (String.eqb k0 k); simpl; rewrite !Qsum_cons; [ring|].
        rewrite IHo. ring. }
    rewrite H. unfold pnlOf. ring.
Qed.

End MonthlyProperties.

(** X8.  The monthly P&L chart groups the Closed structures by the month of
    their effective closing date: every bar is the label of a month in which
    some structure closed, with the sum of the realized P&L of the
    structures closed in that month; there is one bar per such month, and
    the bars add up to the total net P&L. *)
Theorem monthly_bars_group_by_month
  (monthKeyOf : Z -> string) (localeCompare : string -> string -> Z)
  (formatMonth : string -> string) (formatDate : Z -> string)
  (structures : list Structure) (cap : Q) :
  let closed := filter isClosedStructure structures in
  let keyOf := fun s => monthKeyOf (getEffectiveClosingDate s) in
  let bars := monthlyPnlData monthKeyOf localeCompare formatMonth structures in
  (exists entries,
      bars = map (fun e => {| bar_name := formatMonth (fst e);
                              bar_pnl := snd e |}) entries
      /\ NoDup (map fst entries)
      /\ (forall k, In k (map fst entries) <-> In k (map keyOf closed))
      /\ (forall k v,
            In (k, v) entries ->
            v == Qsum (map pnlOf
                         (filter (fun s => String.eqb (keyOf s) k) closed))))
  /\ Qsum (map bar_pnl bars)
     == totalNetPnl (keyMetrics formatDate structures cap).
Proof.
  cbv zeta. set (closed := filter isClosedStructure structures).
  set (sorted := Array_sort
                   (fun a b : string * Q => (0 <? localeCompare (fst a) (fst b))%Z)
                   (pnlByMonth monthKeyOf closed)).
  assert (Hperm : Permutation sorted (pnlByMonth monthKeyOf closed))
    by apply Array_sort_perm.
  destruct (pnlByMonth_invariant monthKeyOf closed) as (Hnd & Hkeys & Hvals).
  split.
  - exists sorted. split; [reflexivity|]. split; [|split].
    + apply (Permutation_NoDup (Permutation_map fst (Permutation_sym Hperm)) Hnd).
    + intros k. rewrite <- Hkeys. split; apply Permutation_in;
        apply Permutation_map; [assumption | now symmetry].
    + intros k v Hin. apply Hvals. apply (Permutation_in _ Hperm Hin).
  - unfold monthlyPnlData. fold closed. fold sorted.
    rewrite map_map. cbn [bar_pnl].
    rewrite (Qsum_perm _ _ (Permutation_map snd Hperm)).
    unfold pnlByMonth. rewrite pnlByMonth_sum. cbn [map]. rewrite Qsum_nil.
    change (totalNetPnl (keyMetrics formatDate structures cap))
      with (Qsum (map pnlOf closed)). ring.
Qed.

(* ------------------------------------------------------------------ *)
(** ** The list view *)

Section ListViewProperties.

Context {kernel : PricingKernel} {clock : Clock}.

Lemma isActive_status (s : Structure) : isActive s = true <-> status s = Active.
Proof.
  unfold isActive. destruct (status s); split; intros H; congruence.
Qed.

Lemma value_portfolioPnlStep (m : MarketData) (acc : PnlInfo) (s : Structure) :
  value (portfolioPnlStep m acc s)
  = {| netPnl := netPnl acc
                 + netPnl (value (calculatePnlInfoForStructure s m));
       totalPoints := totalPoints acc
                      + totalPoints (value (calculatePnlInfoForStructure s m)) |}.
Proof. reflexivity. Qed.

(** X9.  The portfolio P&L shown above the list is the sum, over the Active
    structures only, of the net P&L (and of the points P&L) of their enabled
    legs; a Closed structure adds nothing, whatever its realizedPnl. *)
Theorem portfolio_pnl_sums_active_structures
  (structures : list Structure) (m : MarketData) :
  let total := value (totalPortfolioPnlInfo structures m) in
  let active := filter isActive structures in
  netPnl total
  == Qsum (map (fun s =>
                  Qsum (map (spec_netPnl (multiplier s) (listPrice m))
                            (enabledLegs (legs s)))) active)
  /\ totalPoints total
     == Qsum (map (fun s =>
                     Qsum (map (spec_pointsPnl (listPrice m))
                               (enabledLegs (legs s)))) active).
Proof.
  cbv zeta. unfold totalPortfolioPnlInfo. rewrite value_reduceM.
  split.
  - rewrite (fold_left_field _ netPnl
               (fun s => netPnl (value (calculatePnlInfoForStructure s m)))).
    + cbn [netPnl]. rewrite Qplus_0_l.
      apply Qsum_map_ext_in. intros s Hs.
      apply filter_In in Hs. destruct Hs as [_ Hs]. apply isActive_status in Hs.
      rewrite value_calculatePnlInfoForStructure, Hs.
      apply calculated_netPnl.
    + intros acc s. rewrite value_portfolioPnlStep. reflexivity.
  - rewrite (fold_left_field _ totalPoints
               (fun s => totalPoints (value (calculatePnlInfoForStructure s m)))).
    + cbn [totalPoints]. rewrite Qplus_0_l.
      apply Qsum_map_ext_in. intros s Hs.
      apply filter_In in Hs. destruct Hs as [_ Hs]. apply isActive_status in Hs.
      rewrite value_calculatePnlInfoForStructure, Hs.
      apply calculated_totalPoints.
    + intros acc s. rewrite value_portfolioPnlStep. reflexivity.
Qed.

Variable createdAt : Structure -> option Z.

Lemma finalCompare_key (st : ListViewState) (m : MarketData) (a b : Structure) :
  sortMethod st <> SortCustom ->
  finalCompare createdAt (sortMethod st) m a b
  == sortKey createdAt st m a - sortKey createdAt st m b.
Proof.
  intros Hm. unfold finalCompare, sortKey.
  destruct (sortMethod st); try congruence;
    try (unfold Zminus; rewrite inject_Z_plus, inject_Z_opp); ring.
Qed.

(** X10.  Whatever the sorting state, the list shown is a rearrangement of
    the structures of the selected tab: none is lost or shown twice.  Sorted
    by date, serial or P&L it is ordered by that key in the chosen direction;
    in custom mode it is the tab's list itself while no custom order exists,
    and it follows the custom order when every shown structure occurs in
    it. *)
Theorem displayed_structures_sorted
  (st : ListViewState) (structures : list Structure) (m : MarketData) :
  let shown := displayedStructures createdAt st structures m in
  Permutation shown (tabList st structures)
  /\ (sortMethod st <> SortCustom ->
      StronglySorted (inDirection createdAt st m) shown)
  /\ (sortMethod st = SortCustom -> customOrder st = [] ->
      shown = tabList st structures)
  /\ (sortMethod st = SortCustom ->
      Forall (fun s => indexOf (structure_id s) (customOrder st) <> (-1)%Z)
             (tabList st structures) ->
      StronglySorted (fun a b => sortKey createdAt st m a <= sortKey createdAt st m b)
                     shown).
Proof.
  cbv zeta. unfold displayedStructures. fold (tabList st structures).
  set (base := tabList st structures).
  split; [|split; [|split]].
  - destruct (sortMethod st);
      try (rewrite !Array_sort_perm; reflexivity).
    destruct (customOrder st); [reflexivity | apply Array_sort_perm].
  - intros Hm.
    assert (Hs : StronglySorted (inDirection createdAt st m)
                   (Array_sort
                      (fun a b =>
                         Qltb 0 (match sortDirection st with
                                 | Asc => finalCompare createdAt (sortMethod st) m a b
                                 | Desc => - finalCompare createdAt (sortMethod st) m a b
                                 end))
                      (Array_sort
                         (fun a b =>
                            Qltb 0 (firstPassCompare createdAt (sortMethod st) m a b))
                         base))).
    { apply Array_sort_sorted.
      - unfold inDirection. intros a b c.
        destruct (sortDirection st); intros H1 H2; lra.
      - intros x y _ _ H. apply Qltb_lt in H.
        pose proof (finalCompare_key st m x y Hm) as E.
        unfold inDirection. destruct (sortDirection st); lra.
      - intros x y _ _ H. apply Qltb_ge in H.
        pose proof (finalCompare_key st m x y Hm) as E.
        unfold inDirection. destruct (sortDirection st); lra. }
    destruct (sortMethod st); try exact Hs. congruence.
  - intros Hm Ho. now rewrite Hm, Ho.
  - intros Hm Hall. rewrite Hm.
    destruct (customOrder st) as [|o os] eqn:Eo.
    + destruct base as [|s base']; [constructor|].
      inversion Hall as [|? ? H _]; subst. now elim H.
    + rewrite <- Eo in *. rewrite Forall_forall in Hall.
      apply Array_sort_sorted.
      * intros a b c. apply Qle_trans.
      * intros x y Hx Hy H. apply Qltb_lt in H.
        unfold customCompare in H. unfold sortKey. rewrite Hm.
        pose proof (Hall x Hx) as Hix. pose proof (Hall y Hy) as Hiy.
        apply Z.eqb_neq in Hix. apply Z.eqb_neq in Hiy.
        rewrite Hix, Hiy in H.
        unfold Zminus in H. rewrite inject_Z_plus, inject_Z_opp in H. lra.
      * intros x y Hx Hy H. apply Qltb_ge in H.
        unfold customCompare in H. unfold sortKey. rewrite Hm.
        pose proof (Hall x Hx) as Hix. pose proof (Hall y Hy) as Hiy.
        apply Z.eqb_neq in Hix. apply Z.eqb_neq in Hiy.
        rewrite Hix, Hiy in H.
        unfold Zminus in H. rewrite inject_Z_plus, inject_Z_opp in H. lra.
Qed.

End ListViewProperties.

Lemma handleSelect_In (ident : string) (prev : list string) (x : string) :
  In x (handleSelect ident prev)
  <-> (x = ident /\ ~ In ident prev) \/ (x <> ident /\ In x prev).
Proof.
  unfold handleSelect.
  destruct (existsb (String.eqb ident) prev) eqn:E.
  - apply existsb_exists in E. destruct E as (y & Hy & Ey).
    apply String.eqb_eq in Ey. subst y.
    rewrite filter_In, negb_true_iff, String.eqb_neq. intuition.
  - assert (Hn : ~ In ident prev).
    { intros H. assert (existsb (String.eqb ident) prev = true).
      { apply existsb_exists. exists ident. split; [assumption | apply String.eqb_refl]. }
      congruence. }
    rewrite in_app_iff. simpl.
    destruct (string_dec x ident) as [-> | Hne]; intuition congruence.
Qed.

(** X11.  Selecting an id toggles it and nothing else: afterwards the id is
    selected exactly when it was not before, every other id keeps its state,
    an id is never listed twice, and selecting the same id twice restores the
    original selection. *)
Theorem handleSelect_toggles (ident : string) (prev : list string) :
  NoDup prev ->
  (In ident (handleSelect ident prev) <-> ~ In ident prev)
  /\ (forall x, x <> ident -> (In x (handleSelect ident prev) <-> In x prev))
  /\ NoDup (handleSelect ident prev)
  /\ (forall x, In x (handleSelect ident (handleSelect ident prev)) <-> In x prev).
Proof.
  intros Hnd.
  split; [rewrite handleSelect_In; intuition|].
  split; [intros x Hx; rewrite handleSelect_In; intuition|].
  split.
  - unfold handleSelect.
    destruct (existsb (String.eqb ident) prev) eqn:E.
    + now apply NoDup_filter.
    + apply NoDup_app; [assumption | repeat constructor; auto |].
      intros x Hx [Hi | []]. subst x.
      assert (existsb (String.eqb ident) prev = true).
      { apply existsb_exists. exists ident.
        split; [assumption | apply String.eqb_refl]. }
      congruence.
  - intros x. rewrite !handleSelect_In.
    destruct (string_dec x ident) as [-> | Hne].
    + destruct (in_dec string_dec ident prev); intuition.
    + intuition.
Qed.

Lemma handleSelect_toggles_witness :
  In "s2"%string (handleSelect "s2" ["s1"; "s3"]%string)
  <-> ~ In "s2"%string ["s1"; "s3"]%string.
Proof.
  apply (handleSelect_toggles "s2" ["s1"; "s3"]%string).
  repeat constructor; simpl; intuition discriminate.
Defined.

(* ------------------------------------------------------------------ *)
(** ** The payoff chart *)

(** X12.  The gradient offset that splits the profit and loss colours of a
    payoff curve is always a fraction between 0 and 1: it is 0 when no
    sampled payoff is positive, 1 when some payoff is positive and none is
    negative, and strictly between 0 and 1 when the curve has both a profit
    and a loss. *)
Theorem gradient_offset_bounds (values : list Q) :
  0 <= gradientOffset values /\ gradientOffset values <= 1
  /\ (Forall (fun v => v <= 0) values -> gradientOffset values = 0)
  /\ (Exists (fun v => 0 < v) values -> Forall (fun v => 0 <= v) values ->
      gradientOffset values = 1)
  /\ (Exists (fun v => 0 < v) values -> Exists (fun v => v < 0) values ->
      0 < gradientOffset values /\ gradientOffset values < 1).
Proof.
  destruct values as [|v vs].
  { simpl. split; [lra|]. split; [lra|]. split; [reflexivity|].
    split; intros Hex; inversion Hex. }
  unfold gradientOffset.
  destruct (Math_max_ge v vs) as [Hmax0 Hmax].
  destruct (Math_min_le v vs) as [Hmin0 Hmin].
  pose proof (Math_max_attained v vs) as Hmaxin.
  pose proof (Math_min_attained v vs) as Hminin.
  assert (Hmaxall : Forall (fun y => y <= Math_max v vs) (v :: vs))
    by now constructor.
  assert (Hminall : Forall (fun y => Math_min v vs <= y) (v :: vs))
    by now constructor.
  clear Hmax0 Hmax Hmin0 Hmin.
  set (hi := Math_max v vs) in *. set (lo := Math_min v vs) in *.
  rewrite Forall_forall in Hmaxall, Hminall.
  apply Exists_exists in Hmaxin. destruct Hmaxin as (ymax & Hymax & Emax).
  apply Exists_exists in Hminin. destruct Hminin as (ymin & Hymin & Emin).
  assert (Hlohi : lo <= hi).
  { pose proof (Hmaxall ymin Hymin). lra. }
  assert (Hfrac : Qle_bool hi 0 = false -> Qle_bool 0 lo = false ->
                  0 < hi / (hi - lo) /\ hi / (hi - lo) < 1).
  { intros E1 E2.
    assert (H1 : 0 < hi).
    { apply Qnot_le_lt. intros H. apply Qle_bool_iff in H. congruence. }
    assert (H2 : lo < 0).
    { apply Qnot_le_lt. intros H. apply Qle_bool_iff in H. congruence. }
    split.
    - apply Qlt_shift_div_l; lra.
    - apply Qlt_shift_div_r; lra. }
  split; [|split; [|split; [|split]]].
  - destruct (Qle_bool hi 0) eqn:E1; [lra|].
    destruct (Qle_bool 0 lo) eqn:E2; [lra|].
    destruct (Hfrac eq_refl eq_refl). lra.
  - destruct (Qle_bool hi 0) eqn:E1; [lra|].
    destruct (Qle_bool 0 lo) eqn:E2; [lra|].
    destruct (Hfrac eq_refl eq_refl). lra.
  - intros Hall. rewrite Forall_forall in Hall.
    assert (E : Qle_bool hi 0 = true).
    { apply Qle_bool_iff. pose proof (Hall ymax Hymax). lra. }
    now rewrite E.
  - intros Hex Hall. rewrite Forall_forall in Hall.
    apply Exists_exists in Hex. destruct Hex as (y & Hy & Hpos).
    assert (E1 : Qle_bool hi 0 = false).
    { destruct (Qle_bool hi 0) eqn:E; [|reflexivity].
      apply Qle_bool_iff in E. pose proof (Hmaxall y Hy). lra. }
    assert (E2 : Qle_bool 0 lo = true).
    { apply Qle_bool_iff. pose proof (Hall ymin Hymin). lra. }
    now rewrite E1, E2.
  - intros Hex1 Hex2.
    apply Exists_exists in Hex1. destruct Hex1 as (y1 & Hy1 & Hpos).
    apply Exists_exists in Hex2. destruct Hex2 as (y2 & Hy2 & Hneg).
    assert (E1 : Qle_bool hi 0 = false).
    { destruct (Qle_bool hi 0) eqn:E; [|reflexivity].
      apply Qle_bool_iff in E. pose proof (Hmaxall y1 Hy1). lra. }
    assert (E2 : Qle_bool 0 lo = false).
    { destruct (Qle_bool 0 lo) eqn:E; [|reflexivity].
      apply Qle_bool_iff in E. pose proof (Hminall y2 Hy2). lra. }
    rewrite E1, E2. now apply Hfrac.
Qed.

Lemma closerToSpot_fold (s : Q) (rest : list PayoffPoint) (acc : PayoffPoint) :
  let r := fold_left (closerToSpot s) rest acc in
  In r (acc :: rest)
  /\ Qabs (spot r - s) <= Qabs (spot acc - s)
  /\ Forall (fun p => Qabs (spot r - s) <= Qabs (spot p - s)) rest.
Proof.
  cbv zeta. revert acc.
  induction rest as [|p rest IH]; intros acc; simpl.
  - split; [now left|]. split; [apply Qle_refl | constructor].
  - destruct (IH (closerToSpot s acc p)) as (Hin & Hle & Hall).
    assert (Hstep : closerToSpot s acc p = acc \/ closerToSpot s acc p = p).
    { unfold closerToSpot. destruct (Qltb _ _); auto. }
    assert (Hd : Qabs (spot (closerToSpot s acc p) - s) <= Qabs (spot acc - s)
                 /\ Qabs (spot (closerToSpot s acc p) - s) <= Qabs (spot p - s)).
    { unfold closerToSpot.
      destruct (Qltb (Qabs (spot p - s)) (Qabs (spot acc - s))) eqn:E.
      - apply Qltb_lt in E. split; lra.
      - apply Qltb_ge in E. split; lra. }
    destruct Hd as [Hd1 Hd2].
    split; [|split].
    + destruct Hin as [Hin | Hin]; [|now right; right].
      rewrite <- Hin. destruct Hstep as [-> | ->]; [now left | now right; left].
    + eapply Qle_trans; eassumption.
    + constructor; [eapply Qle_trans; eassumption | assumption].
Qed.

(** X13.  The values shown at the spot are those of a sampled point that is
    closest to the spot: no other point of the curve lies nearer.  On an
    empty curve both values are 0. *)
Theorem current_values_closest (data : list PayoffPoint) (daxSpot : Q) :
  (data = [] -> currentValues data daxSpot = {| cv_exp := 0; cv_sim := 0 |})
  /\ (data <> [] ->
      exists pt,
        In pt data
        /\ cv_exp (currentValues data daxSpot) = pnlExpiry pt
        /\ cv_sim (currentValues data daxSpot) = pnlSim pt
        /\ Forall (fun p => Qabs (spot pt - daxSpot) <= Qabs (spot p - daxSpot))
                  data).
Proof.
  split; [now intros ->|].
  intros Hne. destruct data as [|first rest]; [congruence|].
  destruct (closerToSpot_fold daxSpot rest first) as (Hin & Hle & Hall).
  exists (fold_left (closerToSpot daxSpot) rest first).
  repeat split; try assumption. now constructor.
Qed.

Lemma current_values_closest_witness :
  currentValues [] 24500 = {| cv_exp := 0; cv_sim := 0 |}
  /\ exists pt,
       In pt samplePayoffCurve
       /\ cv_exp (currentValues samplePayoffCurve 24500) = pnlExpiry pt
       /\ cv_sim (currentValues samplePayoffCurve 24500) = pnlSim pt
       /\ Forall (fun p => Qabs (spot pt - 24500) <= Qabs (spot p - 24500))
                 samplePayoffCurve.
Proof.
  split.
  - apply (current_values_closest [] 24500). reflexivity.
  - apply (current_values_closest samplePayoffCurve 24500). discriminate.
Defined.

Section PayoffCurveProperties.

Context {kernel : PricingKernel} {clock : Clock} {arith : Arithmetic}.

(** The two branches on the sign of the quantity add the same amount. *)
Lemma value_payoffStep (md : MarketData) (earliest : Z) (t_elapsed x : Q)
  (acc : Q * Q) (leg : OptionLeg) :
  fst (value (payoffStep md earliest t_elapsed x acc leg))
  == fst acc
     + (value (valAtExpiry md earliest x leg) - tradePrice leg) * quantity leg
  /\ snd (value (payoffStep md earliest t_elapsed x acc leg))
     == snd acc
        + (value (valSimulated md t_elapsed x leg) - tradePrice leg)
          * quantity leg.
Proof.
  unfold payoffStep. rewrite !value_bind.
  destruct (Qltb 0 (quantity leg)) eqn:E.
  - cbn [value ret fst snd]. split; reflexivity.
  - apply Qltb_ge in E. cbn [value ret fst snd].
    rewrite (Qabs_neg _ E). split; ring.
Qed.

Lemma payoff_fold (md : MarketData) (earliest : Z) (t_elapsed x : Q)
  (legs : list OptionLeg) :
  let r := value (reduceM (payoffStep md earliest t_elapsed x) legs (0, 0)) in
  fst r
  == Qsum (map (fun l => (value (valAtExpiry md earliest x l) - tradePrice l)
                         * quantity l) legs)
  /\ snd r
     == Qsum (map (fun l => (value (valSimulated md t_elapsed x l) - tradePrice l)
                            * quantity l) legs).
Proof.
  cbv zeta. rewrite value_reduceM. split.
  - rewrite (fold_left_field _ fst
               (fun l => (value (valAtExpiry md earliest x l) - tradePrice l)
                         * quantity l)).
    + simpl. ring.
    + intros acc l. apply value_payoffStep.
  - rewrite (fold_left_field _ snd
               (fun l => (value (valSimulated md t_elapsed x l) - tradePrice l)
                         * quantity l)).
    + simpl. ring.
    + intros acc l. apply value_payoffStep.
Qed.

(** X14.  For a structure that is not shown as Closed, the payoff curve has
    one point per price of the grid, in grid order, and at each price both
    payoffs are the multiplier times the sum over the legs of (value -
    tradePrice) * quantity, with the signed quantity: the separate long and
    short branches of the chart compute the same amount as the single
    signed expression of the aggregators. *)
Theorem payoff_curve_is_signed_sum
  (props : PayoffChartProps) (viewRange simTimePercent : Q) :
  structureStatus props <> Some Closed \/ p_realizedPnl props = None ->
  let md := p_marketData props in
  let earliest := earliestExpiryDate (p_legs props) in
  let t_elapsed := getYearFraction now earliest * (simTimePercent / 100) in
  Forall2
    (fun x pt =>
       spot pt = x
       /\ pnlExpiry pt
          == Qsum (map (fun l => (value (valAtExpiry md earliest x l)
                                  - tradePrice l) * quantity l)
                       (p_legs props)) * p_multiplier props
       /\ pnlSim pt
          == Qsum (map (fun l => (value (valSimulated md t_elapsed x l)
                                  - tradePrice l) * quantity l)
                       (p_legs props)) * p_multiplier props)
    (chartPoints (p_legs props) (daxSpot (p_marketData props)) viewRange)
    (value (data props viewRange simTimePercent)).
Proof.
  intros Hopen. cbv zeta.
  set (md := p_marketData props). set (earliest := earliestExpiryDate (p_legs props)).
  set (t_elapsed := getYearFraction now earliest * (simTimePercent / 100)).
  assert (E : value (data props viewRange simTimePercent)
              = map (fun x =>
                       value (pnls <- reduceM (payoffStep md earliest t_elapsed x)
                                        (p_legs props) (0, 0) ;;
                              ret {| spot := x;
                                     pnlExpiry := fst pnls * p_multiplier props;
                                     pnlSim := snd pnls * p_multiplier props |}))
                    (chartPoints (p_legs props) (daxSpot md) viewRange)).
  { unfold data. fold md. fold earliest. fold t_elapsed.
    destruct (chartPoints (p_legs props) (daxSpot md) viewRange) as [|x0 xs] eqn:Ec;
      [reflexivity|].
    destruct (structureStatus props) as [[|]|] eqn:Es;
      try (rewrite value_mapM; reflexivity).
    destruct (p_realizedPnl props) eqn:Er;
      [|rewrite value_mapM; reflexivity].
    destruct Hopen; congruence. }
  rewrite E. clear E.
  induction (chartPoints (p_legs props) (daxSpot md) viewRange) as [|x xs IH];
    cbn [map]; [constructor|].
  constructor; [|exact IH].
  rewrite value_bind. cbn [value ret fst spot pnlExpiry pnlSim].
  destruct (payoff_fold md earliest t_elapsed x (p_legs props)) as [H1 H2].
  cbv zeta in H1, H2. unfold value in H1, H2.
  split; [reflexivity|]. split.
  - now rewrite H1.
  - now rewrite H2.
Qed.

Lemma earliest_fold (ds : list Z) (d : Z) :
  (fold_left Z.min ds d <= d)%Z
  /\ Forall (fun x => (fold_left Z.min ds d <= x)%Z) ds
  /\ In (fold_left Z.min ds d) (d :: ds).
Proof.
  revert d. induction ds as [|y ds IH]; intros d; simpl.
  - split; [lia|]. split; [constructor | now left].
  - destruct (IH (Z.min d y)) as (H1 & H2 & H3).
    split; [lia|]. split; [constructor; [lia | assumption]|].
    destruct H3 as [H3 | H3]; [|now right; right].
    destruct (Z.min_spec d y) as [[_ E] | [_ E]]; rewrite E in *; auto.
Qed.

(** X15.  The earliest expiry of a non-empty leg list is the expiry of one
    of its legs and is not later than any of them.  On the expiry curve a
    leg that expires less than a day after it is valued at its intrinsic
    value without the kernel being contacted; any other leg is worth the
    kernel's call or put price (by the leg's type) of the one object built
    for it, at the sampled price, with the time from the earliest expiry to
    its own, the market's rate and the leg's implied volatility. *)
Theorem expiry_curve_valuation (legs : list OptionLeg) :
  legs <> [] ->
  let earliest := earliestExpiryDate legs in
  (exists l, In l legs /\ expiryDate l = earliest)
  /\ Forall (fun l => (earliest <= expiryDate l)%Z) legs
  /\ (forall md x l,
        In l legs ->
        ((expiryDate l - earliest < dayMs)%Z ->
         valAtExpiry md earliest x l
         = ret (intrinsicValue (optionType l) x (strike l)))
        /\ ((dayMs <= expiryDate l - earliest)%Z ->
            let bs := new_BlackScholes x (strike l)
                        (getYearFraction earliest (expiryDate l))
                        (riskFreeRate md) (impliedVolatility l) in
            value (valAtExpiry md earliest x l)
            = match optionType l with
              | Call => callPrice bs
              | Put => putPrice bs
              end
            /\ calls (valAtExpiry md earliest x l) = [bs])).
Proof.
  intros Hne. cbv zeta. unfold earliestExpiryDate.
  destruct legs as [|l0 ls]; [congruence|]. cbn [map].
  destruct (earliest_fold (map expiryDate ls) (expiryDate l0)) as (H1 & H2 & H3).
  set (earliest := fold_left Z.min (map expiryDate ls) (expiryDate l0)) in *.
  assert (Hall : Forall (fun l => (earliest <= expiryDate l)%Z) (l0 :: ls)).
  { constructor; [assumption|]. now rewrite Forall_map in H2. }
  split; [|split].
  - destruct H3 as [H3 | H3].
    + exists l0. split; [now left | assumption].
    + apply in_map_iff in H3. destruct H3 as (l & Hl & Hin).
      exists l. split; [now right | assumption].
  - exact Hall.
  - intros md x l Hin. rewrite Forall_forall in Hall. specialize (Hall l Hin).
    unfold valAtExpiry. split; intros Hd.
    + assert (E : (Z.abs (expiryDate l - earliest) <? dayMs)%Z = true)
        by (apply Z.ltb_lt; lia).
      now rewrite E.
    + assert (E : (Z.abs (expiryDate l - earliest) <? dayMs)%Z = false)
        by (apply Z.ltb_ge; lia).
      rewrite E. cbv zeta. unfold price.
      split; destruct (optionType l); reflexivity.
Qed.

End PayoffCurveProperties.

Lemma payoff_curve_is_signed_sum_witness :
  Forall2
    (fun x pt =>
       spot pt = x
       /\ pnlExpiry pt
          == Qsum (map (fun l =>
                          (value (valAtExpiry sampleMarket
                                    (earliestExpiryDate sampleLegs) x l)
                           - tradePrice l) * quantity l) sampleLegs) * 5
       /\ pnlSim pt
          == Qsum (map (fun l =>
                          (value (valSimulated sampleMarket
                                    (getYearFraction now
                                       (earliestExpiryDate sampleLegs)
                                     * (0 / 100)) x l)
                           - tradePrice l) * quantity l) sampleLegs) * 5)
    (chartPoints sampleLegs 24500 20)
    (value (data {| p_legs := sampleLegs; p_marketData := sampleMarket;
                    p_multiplier := 5; structureStatus := Some Active;
                    p_realizedPnl := None |} 20 0)).
Proof.
  apply (payoff_curve_is_signed_sum
           {| p_legs := sampleLegs; p_marketData := sampleMarket;
              p_multiplier := 5; structureStatus := Some Active;
              p_realizedPnl := None |} 20 0).
  right. reflexivity.
Defined.

Lemma expiry_curve_valuation_witness :
  (exists l, In l [sampleLaterLeg; sampleOpenLeg]
             /\ expiryDate l = earliestExpiryDate [sampleLaterLeg; sampleOpenLeg])
  /\ valAtExpiry sampleMarket (earliestExpiryDate [sampleLaterLeg; sampleOpenLeg])
       24700 sampleOpenLeg
     = ret (intrinsicValue Call 24700 24500)
  /\ value (valAtExpiry sampleMarket
              (earliestExpiryDate [sampleLaterLeg; sampleOpenLeg])
              24700 sampleLaterLeg)
     = callPrice (new_BlackScholes 24700 24600 (getYearFraction days30 (2 * days30))
                    (riskFreeRate sampleMarket) (15 # 100))
  /\ calls (valAtExpiry sampleMarket
              (earliestExpiryDate [sampleLaterLeg; sampleOpenLeg])
              24700 sampleLaterLeg)
     = [new_BlackScholes 24700 24600 (getYearFraction days30 (2 * days30))
          (riskFreeRate sampleMarket) (15 # 100)].
Proof.
  destruct (expiry_curve_valuation [sampleLaterLeg; sampleOpenLeg])
    as (Hmin & _ & Hval); [discriminate|].
  split; [exact Hmin|].
  destruct (Hval sampleMarket 24700 sampleOpenLeg) as [Hintr _];
    [right; left; reflexivity|].
  destruct (Hval sampleMarket 24700 sampleLaterLeg) as [_ Hkernel];
    [left; reflexivity|].
  split; [apply Hintr; vm_compute; reflexivity|].
  apply Hkernel. vm_compute. discriminate.
Defined.

(* ------------------------------------------------------------------ *)
(** ** The live refresh of the store *)

Lemma reduceM_Forall2 {A B} (step step' : B -> A -> Traced B) (l l' : list A) :
  Forall2 (fun x x' => forall acc, step' acc x' = step acc x) l l' ->
  forall acc, reduceM step' l' acc = reduceM step l acc.
Proof.
  induction 1 as [|x x' l l' Hx _ IH]; intros acc; cbn [reduceM].
  - reflexivity.
  - rewrite Hx. unfold bind. now rewrite IH.
Qed.

Section RefreshProperties.

Context {kernel : PricingKernel} {clock : Clock}.

Lemma sameContract_refreshLeg (spot vol rate : Q) (leg : OptionLeg) :
  sameContract leg (value (refreshLeg spot vol rate leg)).
Proof.
  unfold refreshLeg.
  destruct (closingDate leg) eqn:E.
  - unfold sameContract. cbn [value ret fst]. rewrite E. repeat split.
  - rewrite value_bind. cbn [value ret fst]. unfold sameContract.
    cbn [id optionType strike expiryDate quantity tradePrice closingPrice
         closingDate impliedVolatility openingCommission closingCommission
         enabled].
    rewrite E. repeat split.
Qed.

Lemma sameContract_steps (l l' : OptionLeg) :
  sameContract l l' ->
  (forall s s' m acc, multiplier s' = multiplier s ->
                      pnlStep s' m acc l' = pnlStep s m acc l)
  /\ (forall m acc, greeksStep m acc l' = greeksStep m acc l).
Proof.
  intros (Hid & Hty & Hk & Hex & Hq & Htp & Hcp & Hcd & Hiv & Hoc & Hcc & Hen).
  split.
  - intros s s' m acc Hm.
    unfold pnlStep, listCurrentPrice, isDisabled, isLegClosed.
    now rewrite Hty, Hk, Hex, Hq, Htp, Hcp, Hiv, Hoc, Hcc, Hen, Hm.
  - intros m acc. unfold greeksStep, isDisabled, isLegClosed.
    now rewrite Hty, Hk, Hex, Hq, Hcp, Hiv, Hen.
Qed.

Lemma sameBook_refreshStructure (spot vol rate : Q) (s : Structure) :
  sameBook s (value (refreshStructure spot vol rate s)).
Proof.
  unfold refreshStructure, sameBook.
  destruct (status s) eqn:E.
  - rewrite value_bind. cbn [value ret fst structure_id tag status multiplier
                             structure_closingDate realizedPnl legs].
    repeat split; try assumption.
    fold (value (mapM (refreshLeg spot vol rate) (legs s))).
    rewrite value_mapM.
    induction (legs s) as [|l ls IH]; cbn [map]; constructor;
      [apply sameContract_refreshLeg | exact IH].
  - cbn [value ret fst]. repeat split; try assumption.
    induction (legs s) as [|l ls IH]; constructor; [|exact IH].
    unfold sameContract. repeat split.
Qed.

Lemma sameBook_aggregates (s s' : Structure) :
  sameBook s s' ->
  forall m,
    calculatePnlInfoForStructure s' m = calculatePnlInfoForStructure s m
    /\ calculateTotalGreeks s' m = calculateTotalGreeks s m.
Proof.
  intros (_ & _ & Hst & Hm & _ & Hr & Hlegs) m.
  split.
  - unfold calculatePnlInfoForStructure, calculated.
    rewrite Hst, Hr.
    rewrite (reduceM_Forall2 (pnlStep s m) (pnlStep s' m) (legs s) (legs s')).
    + reflexivity.
    + eapply Forall2_impl; [|exact Hlegs].
      intros l l' Hc acc. now apply (sameContract_steps l l' Hc).
  - unfold calculateTotalGreeks.
    rewrite <- (reduceM_Forall2 (greeksStep m) (greeksStep m) (legs s) (legs s')).
    + inversion Hlegs; reflexivity.
    + eapply Forall2_impl; [|exact Hlegs].
      intros l l' Hc acc. now apply (sameContract_steps l l' Hc).
Qed.

(** The list-view aggregators read the spot and the rate of the market
    data, never its volatility. *)
Lemma aggregates_read_spot_and_rate (s : Structure) (m1 m2 : MarketData) :
  daxSpot m1 = daxSpot m2 ->
  riskFreeRate m1 = riskFreeRate m2 ->
  calculatePnlInfoForStructure s m1 = calculatePnlInfoForStructure s m2
  /\ calculateTotalGreeks s m1 = calculateTotalGreeks s m2.
Proof.
  intros Hspot Hrate.
  assert (Hp : forall acc l, pnlStep s m1 acc l = pnlStep s m2 acc l).
  { intros acc l. unfold pnlStep, listCurrentPrice. now rewrite Hspot, Hrate. }
  assert (Hg : forall acc l, greeksStep m1 acc l = greeksStep m2 acc l).
  { intros acc l. unfold greeksStep. now rewrite Hspot, Hrate. }
  assert (Hrefl : forall (step step' : PnlInfo -> OptionLeg -> Traced PnlInfo) ls,
             (forall acc l, step' acc l = step acc l) ->
             Forall2 (fun x x' => forall acc, step' acc x' = step acc x) ls ls).
  { intros step step' ls H. induction ls; constructor; auto. }
  assert (Hrefl' : forall (step step' : CalculatedGreeks -> OptionLeg
                                        -> Traced CalculatedGreeks) ls,
             (forall acc l, step' acc l = step acc l) ->
             Forall2 (fun x x' => forall acc, step' acc x' = step acc x) ls ls).
  { intros step step' ls H. induction ls; constructor; auto. }
  split.
  - unfold calculatePnlInfoForStructure, calculated.
    now rewrite (reduceM_Forall2 (pnlStep s m2) (pnlStep s m1) (legs s) (legs s)
                   (Hrefl _ _ _ Hp)).
  - unfold calculateTotalGreeks.
    now rewrite (reduceM_Forall2 (greeksStep m2) (greeksStep m1) (legs s) (legs s)
                   (Hrefl' _ _ _ Hg)).
Qed.

(** X16.  A live refresh rewrites only the live fields of the legs
    (currentPrice and currentIv): the store keeps the same structures in the
    same order, each with its header and, leg by leg, its contract.  The
    list-view aggregators never read the live fields: at any one market
    snapshot they compute the same P&L and Greeks, and build the same kernel
    objects, for the refreshed structure as for the original one.  The
    refresh also stores the fetched spot and volatility in the market data:
    what the list view computes afterwards is what it would have computed
    from the unrefreshed legs at the fetched spot (the fetched volatility
    does not enter), and it is what it computed before when the fetched spot
    is the stored one. *)
Theorem refresh_keeps_contracts_and_aggregates
  (fetched storeMarket : MarketData) (structures : list Structure) :
  let after := refreshedMarketData fetched storeMarket in
  let atFetchedSpot :=
    {| daxSpot := daxSpot fetched;
       daxVolatility := daxVolatility storeMarket;
       riskFreeRate := riskFreeRate storeMarket |} in
  Forall2
    (fun s s' =>
       sameBook s s'
       /\ (forall m,
             calculatePnlInfoForStructure s' m = calculatePnlInfoForStructure s m
             /\ calculateTotalGreeks s' m = calculateTotalGreeks s m)
       /\ calculatePnlInfoForStructure s' after
          = calculatePnlInfoForStructure s atFetchedSpot
       /\ calculateTotalGreeks s' after = calculateTotalGreeks s atFetchedSpot
       /\ (daxSpot fetched = daxSpot storeMarket ->
           calculatePnlInfoForStructure s' after
           = calculatePnlInfoForStructure s storeMarket
           /\ calculateTotalGreeks s' after = calculateTotalGreeks s storeMarket))
    structures
    (value (refreshDaxSpot fetched (riskFreeRate storeMarket) structures)).
Proof.
  cbv zeta. unfold refreshDaxSpot. rewrite value_mapM.
  induction structures as [|s ss IH]; cbn [map]; constructor; [|exact IH].
  pose proof (sameBook_refreshStructure (daxSpot fetched) (daxVolatility fetched)
                (riskFreeRate storeMarket) s) as Hb.
  pose proof (sameBook_aggregates _ _ Hb) as Hsame.
  split; [exact Hb|]. split; [exact Hsame|].
  destruct (Hsame (refreshedMarketData fetched storeMarket)) as [Hp Hg].
  rewrite Hp, Hg.
  split; [|split].
  - now apply aggregates_read_spot_and_rate.
  - now apply aggregates_read_spot_and_rate.
  - intros Hspot. now apply aggregates_read_spot_and_rate.
Qed.

Lemma find_map_id {A} (key : A -> string) (f : A -> A) (k : string) (l : list A) :
  (forall x, key (f x) = key x) ->
  find (fun x => String.eqb (key x) k) (map f l)
  = option_map f (find (fun x => String.eqb (key x) k) l).
Proof.
  intros Hkey. induction l as [|x l IH]; simpl; [reflexivity|].
  rewrite Hkey. destruct (String.eqb (key x) k); [reflexivity | exact IH].
Qed.

(** X17.  After a refresh that fetched a positive VDAX, the detail view in
    live mode values a leg with the VDAX instead of the leg's own implied
    volatility, provided the stored copy of the leg (found through the
    structure's and the leg's id in an Active structure) carries no closing
    date. *)
Theorem live_view_uses_refreshed_volatility
  (fetched : MarketData) (storeRate : Q) (store : list Structure)
  (local s0 : Structure) (spot0 : Q) (leg l0 : OptionLeg) :
  find (fun s => String.eqb (structure_id s) (structure_id local)) store = Some s0 ->
  status s0 = Active ->
  findLeg (id leg) (legs s0) = Some l0 ->
  closingDate l0 = None ->
  0 < daxVolatility fetched ->
  volatilityToUse
    {| localStructure := local;
       structures := value (refreshDaxSpot fetched storeRate store);
       isLiveMode := true;
       simulatedSpot := spot0 |} leg
  = daxVolatility fetched.
Proof.
  intros Hs Hact Hl Hopen Hvol.
  unfold volatilityToUse. cbn [localStructure structures isLiveMode].
  unfold refreshDaxSpot. rewrite value_mapM.
  rewrite (find_map_id structure_id
             (fun s => value (refreshStructure (daxSpot fetched)
                                (daxVolatility fetched) storeRate s))).
  2:{ intros s. apply (sameBook_refreshStructure _ _ _ s). }
  rewrite Hs. cbn [option_map].
  assert (Elegs : legs (value (refreshStructure (daxSpot fetched)
                                 (daxVolatility fetched) storeRate s0))
                  = map (fun l => value (refreshLeg (daxSpot fetched)
                                           (daxVolatility fetched) storeRate l))
                        (legs s0)).
  { unfold refreshStructure. rewrite Hact, value_bind. cbn [value ret fst legs].
    fold (value (mapM (refreshLeg (daxSpot fetched) (daxVolatility fetched)
                         storeRate) (legs s0))).
    apply value_mapM. }
  rewrite Elegs. unfold findLeg in *.
  rewrite (find_map_id id
             (fun l => value (refreshLeg (daxSpot fetched)
                                (daxVolatility fetched) storeRate l))).
  2:{ intros l. apply (sameContract_refreshLeg _ _ _ l). }
  rewrite Hl. cbn [option_map].
  unfold refreshLeg. rewrite Hopen, value_bind. cbn [value ret fst currentIv].
  apply Qltb_lt in Hvol. rewrite Hvol.
  assert (E : Qeq_bool (daxVolatility fetched) 0 = false).
  { destruct (Qeq_bool (daxVolatility fetched) 0) eqn:E; [|reflexivity].
    apply Qeq_bool_iff in E. apply Qltb_lt in Hvol. lra. }
  now rewrite E.
Qed.

End RefreshProperties.

Lemma live_view_uses_refreshed_volatility_witness :
  volatilityToUse
    {| localStructure := sampleStructure;
       structures := value (refreshDaxSpot sampleMarket (261 # 10000)
                              [sampleStructure]);
       isLiveMode := true;
       simulatedSpot := 24500 |} sampleOpenLeg
  = 18 # 100.
Proof.
  apply (live_view_uses_refreshed_volatility sampleMarket (261 # 10000)
           [sampleStructure] sampleStructure sampleStructure 24500
           sampleOpenLeg sampleOpenLeg); reflexivity.
Defined.

(* ------------------------------------------------------------------ *)
(** ** Deleting structures from the store *)

(** X18.  Deleting a list of ids from the store removes exactly the
    structures with those ids and keeps the others in their order; it is
    the same as deleting the ids one after the other, and deleting an id
    that is not in the store changes nothing. *)
Theorem delete_updates_compose (ids : list string) (structures : list Structure) :
  (forall s, In s (deleteStructures_update ids structures)
             <-> In s structures /\ ~ In (structure_id s) ids)
  /\ deleteStructures_update ids structures
     = fold_left (fun ss i => deleteStructure_update i ss) ids structures
  /\ (forall i, ~ In i (map structure_id structures) ->
                deleteStructure_update i structures = structures).
Proof.
  split; [|split].
  - intros s. unfold deleteStructures_update.
    rewrite filter_In, negb_true_iff.
    split; intros [Hin H]; (split; [assumption|]).
    + intros Hi.
      assert (existsb (String.eqb (structure_id s)) ids = true).
      { apply existsb_exists. exists (structure_id s).
        split; [assumption | apply String.eqb_refl]. }
      congruence.
    + destruct (existsb (String.eqb (structure_id s)) ids) eqn:E; [|reflexivity].
      apply existsb_exists in E. destruct E as (i & Hi & Ei).
      apply String.eqb_eq in Ei. subst i. contradiction.
  - revert structures. induction ids as [|i ids IH]; intros structures.
    + unfold deleteStructures_update. simpl.
      induction structures as [|s ss IHs]; simpl; [reflexivity | now rewrite IHs].
    + cbn [fold_left]. rewrite <- IH.
      unfold deleteStructures_update, deleteStructure_update.
      rewrite filter_filter_andb. apply filter_ext.
      intros s. cbn [existsb]. apply negb_orb.
  - intros i Hi. unfold deleteStructure_update.
    induction structures as [|s ss IHs]; simpl; [reflexivity|].
    simpl in Hi.
    destruct (String.eqb (structure_id s) i) eqn:E.
    + apply String.eqb_eq in E. tauto.
    + simpl. rewrite IHs; [reflexivity | tauto].
Qed.

(* ------------------------------------------------------------------ *)
(** ** Retrying and the market data fetch *)

Section RetryProperties.

Context {E T : Type}.
Variable fn : nat -> Outcome E T.
Variable maxRetries : nat.
Variable baseDelay : Q.

Local Abbreviation delaysUpTo :=
  (fun n => map (retryDelay baseDelay) (seq 0 n)).

Lemma withRetry_loop_success (remaining i : nat) (lastError : option E)
  (k : nat) (t : T) :
  (i + remaining)%nat = maxRetries ->
  (i <= k)%nat -> (k < maxRetries)%nat ->
  fn k = Fulfilled t ->
  (forall j, (i <= j)%nat -> (j < k)%nat -> exists e, fn j = Rejected e) ->
  withRetry_loop fn maxRetries baseDelay remaining i lastError (delaysUpTo i)
  = {| settled := Fulfilled t; attempts := S k; waits := delaysUpTo k |}.
Proof.
  revert i lastError.
  induction remaining as [|r IH]; intros i lastError Hsum Hik Hk Hfn Hrej.
  - lia.
  - cbn [withRetry_loop].
    destruct (Nat.eq_dec i k) as [-> | Hne].
    + now rewrite Hfn.
    + destruct (Hrej i) as (e & He); [lia | lia |]. rewrite He.
      assert (Hlt : (i <? maxRetries - 1)%nat = true) by (apply Nat.ltb_lt; lia).
      rewrite Hlt.
      replace (delaysUpTo i ++ [baseDelay * inject_Z (2 ^ Z.of_nat i)])
        with (delaysUpTo (S i)) by (now rewrite seq_S, map_app).
      apply IH; try lia; try assumption.
      intros j Hj1 Hj2. apply Hrej; lia.
Qed.

Lemma withRetry_loop_failure (remaining i : nat) (lastError : option E) :
  (i + remaining)%nat = maxRetries ->
  (forall j, (i <= j)%nat -> (j < maxRetries)%nat -> exists e, fn j = Rejected e) ->
  let run := withRetry_loop fn maxRetries baseDelay remaining i lastError
               (delaysUpTo (Nat.min i (maxRetries - 1)%nat)) in
  attempts run = maxRetries
  /\ waits run = delaysUpTo (maxRetries - 1)%nat
  /\ (remaining = 0%nat -> settled run = Rejected lastError)
  /\ (forall n e, maxRetries = S n -> (0 < remaining)%nat -> fn n = Rejected e ->
                  settled run = Rejected (Some e)).
Proof.
  cbv zeta. revert i lastError.
  induction remaining as [|r IH]; intros i lastError Hsum Hrej.
  - cbn [withRetry_loop attempts waits settled].
    replace (Nat.min i (maxRetries - 1)%nat) with (maxRetries - 1)%nat by lia.
    repeat split; lia.
  - cbn [withRetry_loop].
    destruct (Hrej i) as (e & He); [lia | lia |]. rewrite He.
    assert (Hw : (if (i <? maxRetries - 1)%nat
                  then delaysUpTo (Nat.min i (maxRetries - 1)%nat)
                       ++ [baseDelay * inject_Z (2 ^ Z.of_nat i)]
                  else delaysUpTo (Nat.min i (maxRetries - 1)%nat))
                 = delaysUpTo (Nat.min (S i) (maxRetries - 1)%nat)).
    { destruct (i <? maxRetries - 1)%nat eqn:Hlt.
      - apply Nat.ltb_lt in Hlt.
        replace (Nat.min i (maxRetries - 1)%nat) with i by lia.
        replace (Nat.min (S i) (maxRetries - 1)%nat) with (S i) by lia.
        now rewrite seq_S, map_app.
      - apply Nat.ltb_ge in Hlt. f_equal. f_equal. lia. }
    rewrite Hw.
    destruct (IH (S i) (Some e)) as (Ha & Hwt & H0 & Hn).
    { lia. }
    { intros j Hj1 Hj2. apply Hrej; lia. }
    split; [exact Ha|]. split; [exact Hwt|]. split; [lia|].
    intros n e' Hmax _ Hfn.
    destruct r as [|r'].
    + rewrite H0 by reflexivity.
      assert (n = i) by lia. subst n. congruence.
    + apply (Hn n e' Hmax); [lia | exact Hfn].
Qed.

Lemma retry_total_wait (n : nat) :
  Qsum (delaysUpTo n) == baseDelay * (inject_Z (2 ^ Z.of_nat n) - 1).
Proof.
  induction n as [|n IH].
  - simpl. rewrite Qsum_nil. ring.
  - rewrite seq_S, map_app, Qsum_app, IH. cbn [plus map].
    rewrite Qsum_cons, Qsum_nil. unfold retryDelay.
    rewrite Nat2Z.inj_succ, Z.pow_succ_r by lia.
    rewrite inject_Z_mult. ring.
Qed.

End RetryProperties.

(** X19.  [withRetry] calls its function until it succeeds, at most
    maxRetries times.  If the k-th call (counting from 0, k < maxRetries) is
    the first to succeed, its result is returned after k + 1 calls and k
    waits of baseDelay * 2^j (j = 0 .. k-1), baseDelay * (2^k - 1) in total.
    If all maxRetries calls fail, the error of the last call is rethrown
    after maxRetries calls and maxRetries - 1 waits, with no wait after the
    last failure; with maxRetries = 0 the function is never called and
    [undefined] is thrown. *)
Theorem withRetry_behaviour {E T : Type}
  (fn : nat -> Outcome E T) (maxRetries : nat) (baseDelay : Q) :
  let run := withRetry fn maxRetries baseDelay in
  (forall k t,
      (k < maxRetries)%nat ->
      fn k = Fulfilled t ->
      (forall j, (j < k)%nat -> exists e, fn j = Rejected e) ->
      settled run = Fulfilled t
      /\ attempts run = S k
      /\ waits run = map (retryDelay baseDelay) (seq 0 k)
      /\ Qsum (waits run) == baseDelay * (inject_Z (2 ^ Z.of_nat k) - 1))
  /\ ((forall j, (j < maxRetries)%nat -> exists e, fn j = Rejected e) ->
      attempts run = maxRetries
      /\ waits run = map (retryDelay baseDelay) (seq 0 (maxRetries - 1)%nat)
      /\ (maxRetries = 0%nat -> settled run = Rejected None)
      /\ (forall n e, maxRetries = S n -> fn n = Rejected e ->
                      settled run = Rejected (Some e))).
Proof.
  cbv zeta. unfold withRetry. split.
  - intros k t Hk Hfn Hrej.
    assert (Hrun : withRetry_loop fn maxRetries baseDelay maxRetries 0 None []
                   = {| settled := Fulfilled t; attempts := S k;
                        waits := map (retryDelay baseDelay) (seq 0 k) |}).
    { apply (withRetry_loop_success fn maxRetries baseDelay maxRetries 0 None k t);
        try lia; try assumption.
      intros j _ Hj. now apply Hrej. }
    rewrite Hrun. cbn [settled attempts waits].
    repeat split. apply retry_total_wait.
  - intros Hrej.
    destruct (withRetry_loop_failure fn maxRetries baseDelay maxRetries 0 None)
      as (Ha & Hw & H0 & Hn).
    { lia. }
    { intros j _ Hj. now apply Hrej. }
    cbn [Nat.min seq map] in Ha, Hw, H0, Hn.
    repeat split; try assumption.
    intros n e Hmax Hfn. apply (Hn n e Hmax); [lia | exact Hfn].
Qed.

Lemma withRetry_behaviour_witness :
  settled (yahooWithRetry flakyNetwork GDAXI corsproxy) = Fulfilled 24512
  /\ attempts (yahooWithRetry flakyNetwork GDAXI corsproxy) = 2%nat
  /\ waits (yahooWithRetry flakyNetwork GDAXI corsproxy)
     = map (retryDelay 1000) (seq 0 1)
  /\ Qsum (waits (yahooWithRetry flakyNetwork GDAXI corsproxy))
     == 1000 * (inject_Z (2 ^ Z.of_nat 1) - 1).
Proof.
  apply (withRetry_behaviour
           (fun k => fetchFromYahooViaProxy (flakyNetwork GDAXI corsproxy k))
           2 1000).
  - lia.
  - reflexivity.
  - intros j Hj. assert (j = 0%nat) by lia. subst j.
    exists (ErrProxy 503). reflexivity.
Defined.

Section FetchProperties.

Variable network : string -> string -> nat -> ProxyResponse.
Variable gemini : GeminiResponse.

Local Abbreviation request :=
  (fun symbol proxy k => fetchFromYahooViaProxy (network symbol proxy k)).

Lemma fetchFromYahooViaProxy_positive (response : ProxyResponse) (spot : Q) :
  fetchFromYahooViaProxy response = Fulfilled spot -> 0 < spot.
Proof.
  destruct response as [| | | |[p|]]; simpl; try discriminate.
  destruct (Qltb 0 p) eqn:E; [|discriminate].
  intros H. injection H as <-. now apply Qltb_lt.
Qed.

(** Two attempts: the first success wins, otherwise the second error. *)
Lemma yahooWithRetry_settled (symbol proxy : string) :
  settled (yahooWithRetry network symbol proxy)
  = match request symbol proxy 0%nat with
    | Fulfilled spot => Fulfilled spot
    | Rejected _ =>
        match request symbol proxy 1%nat with
        | Fulfilled spot => Fulfilled spot
        | Rejected e => Rejected (Some e)
        end
    end.
Proof.
  unfold yahooWithRetry, withRetry. cbn [withRetry_loop].
  destruct (fetchFromYahooViaProxy (network symbol proxy 0)); [|reflexivity].
  cbn [withRetry_loop].
  destruct (fetchFromYahooViaProxy (network symbol proxy 1)); reflexivity.
Qed.

Lemma yahooWithRetry_positive (symbol proxy : string) (spot : Q) :
  settled (yahooWithRetry network symbol proxy) = Fulfilled spot -> 0 < spot.
Proof.
  rewrite yahooWithRetry_settled.
  destruct (request symbol proxy 0%nat) eqn:E0.
  - destruct (request symbol proxy 1%nat) eqn:E1; [discriminate|].
    intros H. injection H as <-. exact (fetchFromYahooViaProxy_positive _ _ E1).
  - intros H. injection H as <-. exact (fetchFromYahooViaProxy_positive _ _ E0).
Qed.

Lemma yahooWithRetry_rejected (symbol proxy : string) :
  (exists e, settled (yahooWithRetry network symbol proxy) = Rejected e)
  <-> (forall k, (k < 2)%nat -> exists e, request symbol proxy k = Rejected e).
Proof.
  rewrite yahooWithRetry_settled. split.
  - intros (e & He) k Hk.
    destruct (request symbol proxy 0%nat) eqn:E0; [|discriminate].
    destruct (request symbol proxy 1%nat) eqn:E1; [|discriminate].
    destruct k as [|[|k]]; [eauto | eauto | lia].
  - intros H.
    destruct (H 0%nat) as (e0 & ->); [lia|].
    destruct (H 1%nat) as (e1 & ->); [lia|]. eauto.
Qed.

Lemma fetchDaxPriceViaGemini_range (spot : Q) :
  fetchDaxPriceViaGemini gemini = Some spot -> 10000 < spot /\ spot < 40000.
Proof.
  unfold fetchDaxPriceViaGemini.
  destruct gemini as [| |text]; try discriminate.
  destruct (parseFloat _) as [price|]; [|discriminate].
  destruct (Qltb 10000 price && Qltb price 40000) eqn:E; [|discriminate].
  intros H. injection H as <-.
  apply andb_true_iff in E. destruct E as [E1 E2].
  split; now apply Qltb_lt.
Qed.

End FetchProperties.

(** X20.  Whatever the network and the Gemini fallback answer, a market
    data record that is returned has a positive DAX spot and a volatility
    that is not negative.  A failure to fetch the VDAX never fails the
    fetch: nothing is returned exactly when all four DAX requests (two
    attempts through each proxy) fail and the Gemini fallback yields no
    price; and when those four requests fail, a record that is returned
    comes from Gemini, with a spot strictly between 10000 and 40000 and
    volatility 0. *)
Theorem fetchMarketData_outcomes
  (network : string -> string -> nat -> ProxyResponse) (gemini : GeminiResponse) :
  let daxFailed :=
    forall proxy k,
      proxy = corsproxy \/ proxy = allorigins -> (k < 2)%nat ->
      exists e, fetchFromYahooViaProxy (network GDAXI proxy k) = Rejected e in
  (forall r, fetchMarketData network gemini = Some r ->
             0 < fetched_daxSpot r /\ 0 <= fetched_daxVolatility r)
  /\ (fetchMarketData network gemini = None
      <-> daxFailed /\ fetchDaxPriceViaGemini gemini = None)
  /\ (daxFailed ->
      forall r, fetchMarketData network gemini = Some r ->
                10000 < fetched_daxSpot r /\ fetched_daxSpot r < 40000
                /\ fetched_daxVolatility r = 0).
Proof.
  cbv zeta.
  set (daxFailed :=
         forall proxy k,
           proxy = corsproxy \/ proxy = allorigins -> (k < 2)%nat ->
           exists e, fetchFromYahooViaProxy (network GDAXI proxy k) = Rejected e).
  assert (Hfailed : daxFailed <->
                    (exists e, settled (yahooWithRetry network GDAXI corsproxy)
                               = Rejected e)
                    /\ (exists e, settled (yahooWithRetry network GDAXI allorigins)
                                  = Rejected e)).
  { rewrite !yahooWithRetry_rejected. unfold daxFailed. split.
    - intros H. split; intros k Hk; apply H; auto.
    - intros [H1 H2] proxy k [-> | ->] Hk; auto. }
  assert (Hvol : forall v,
             match settled (yahooWithRetry network V1X corsproxy) with
             | Fulfilled vol => vol
             | Rejected _ =>
                 match settled (yahooWithRetry network V1X allorigins) with
                 | Fulfilled vol => vol
                 | Rejected _ => 0
                 end
             end = v -> 0 <= v).
  { intros v <-.
    destruct (settled (yahooWithRetry network V1X corsproxy)) eqn:E1.
    - destruct (settled (yahooWithRetry network V1X allorigins)) eqn:E2; [lra|].
      apply yahooWithRetry_positive in E2. lra.
    - apply yahooWithRetry_positive in E1. lra. }
  assert (Hgem : forall r,
             match fetchDaxPriceViaGemini gemini with
             | Some spot =>
                 if Qeq_bool spot 0 then None
                 else Some {| fetched_daxSpot := spot; fetched_daxVolatility := 0 |}
             | None => None
             end = Some r ->
             10000 < fetched_daxSpot r /\ fetched_daxSpot r < 40000
             /\ fetched_daxVolatility r = 0).
  { intros r. destruct (fetchDaxPriceViaGemini gemini) as [spot|] eqn:Eg;
      [|discriminate].
    destruct (Qeq_bool spot 0); [discriminate|].
    intros H. injection H as <-. cbn [fetched_daxSpot fetched_daxVolatility].
    destruct (fetchDaxPriceViaGemini_range gemini spot Eg). auto. }
  assert (Hgem0 : forall spot, fetchDaxPriceViaGemini gemini = Some spot ->
                               Qeq_bool spot 0 = false).
  { intros spot Eg. destruct (fetchDaxPriceViaGemini_range gemini spot Eg).
    destruct (Qeq_bool spot 0) eqn:E; [|reflexivity].
    apply Qeq_bool_iff in E. lra. }
  unfold fetchMarketData.
  destruct (settled (yahooWithRetry network GDAXI corsproxy)) as [e1|s1] eqn:E1.
  - destruct (settled (yahooWithRetry network GDAXI allorigins)) as [e2|s2] eqn:E2.
    + split; [|split].
      * intros r Hr. destruct (Hgem r Hr) as (H1 & H2 & H3). rewrite H3. split; lra.
      * split.
        -- intros Hn. split; [apply Hfailed; eauto|].
           destruct (fetchDaxPriceViaGemini gemini) as [spot|] eqn:Eg; [|reflexivity].
           rewrite (Hgem0 spot eq_refl) in Hn. discriminate.
        -- intros [_ ->]. reflexivity.
      * intros _ r Hr. now apply Hgem.
    + apply yahooWithRetry_positive in E2 as Hpos.
      split; [|split].
      * intros r Hr. injection Hr as <-.
        cbn [fetched_daxSpot fetched_daxVolatility].
        split; [assumption | now apply Hvol].
      * split; [discriminate|].
        intros [Hf _]. apply Hfailed in Hf. destruct Hf as [_ (e & He)]. congruence.
      * intros Hf. apply Hfailed in Hf. destruct Hf as [_ (e & He)]. congruence.
  - apply yahooWithRetry_positive in E1 as Hpos.
    split; [|split].
    + intros r Hr. injection Hr as <-.
      cbn [fetched_daxSpot fetched_daxVolatility].
      split; [assumption | now apply Hvol].
    + split; [discriminate|].
      intros [Hf _]. apply Hfailed in Hf. destruct Hf as [(e & He) _]. congruence.
    + intros Hf. apply Hfailed in Hf. destruct Hf as [(e & He) _]. congruence.
Qed.

Lemma fetchMarketData_outcomes_witness :
  exists r,
    fetchMarketData flakyNetwork NoApiKey = Some r
    /\ 0 < fetched_daxSpot r /\ 0 <= fetched_daxVolatility r.
Proof.
  exists {| fetched_daxSpot := 24512; fetched_daxVolatility := 0 |}.
  split; [reflexivity|].
  apply (fetchMarketData_outcomes flakyNetwork NoApiKey). reflexivity.
Defined.

(* ------------------------------------------------------------------ *)
(** ** The detail view: buckets, editing, closing, adding *)

Lemma Qsum_partition {A} (f : A -> Q) (keep part : A -> bool) (l : list A) :
  Qsum (map (fun x => if keep x then f x else 0) l)
  == Qsum (map f (filter (fun x => part x && keep x) l))
     + Qsum (map f (filter (fun x => negb (part x) && keep x) l)).
Proof.
  induction l as [|x l IH]; simpl.
  - rewrite Qsum_nil. ring.
  - rewrite Qsum_cons, IH.
    destruct (part x), (keep x); simpl; rewrite ?Qsum_cons; ring.
Qed.

Section DetailProperties.

Context {kernel : PricingKernel} {clock : Clock}.

(** X21.  The detail view's totals split exactly into its realized and
    unrealized buckets: the net P&L total is realized plus unrealized P&L,
    and the points total is realized plus unrealized points. *)
Theorem totals_split_into_buckets (view : DetailView) (m : MarketData) :
  let a := value (analysis view m) in
  pnl (totals a) == an_realizedPnl a + unrealizedPnl a
  /\ t_pnlPoints (totals a) == realizedPoints a + unrealizedPoints a.
Proof.
  cbv zeta. unfold analysis. rewrite value_bind.
  cbn [value ret fst totals an_realizedPnl unrealizedPnl realizedPoints
       unrealizedPoints].
  set (rows := fst (mapM (analyseLeg view m) (legs (localStructure view)))).
  split.
  - rewrite (fold_left_field _ pnl
               (fun r => if negb (rowDisabled view r) then la_netPnl r else 0)).
    + cbn [pnl initialTotals]. rewrite Qplus_0_l.
      apply (Qsum_partition la_netPnl (fun r => negb (rowDisabled view r)) isClosed).
    + intros acc curr. unfold totalsStep.
      destruct (rowDisabled view curr), (isClosed curr); simpl; ring.
  - rewrite (fold_left_field _ t_pnlPoints
               (fun r => if negb (rowDisabled view r) then pnlPoints r else 0)).
    + cbn [t_pnlPoints initialTotals]. rewrite Qplus_0_l.
      apply (Qsum_partition pnlPoints (fun r => negb (rowDisabled view r)) isClosed).
    + intros acc curr. unfold totalsStep.
      destruct (rowDisabled view curr), (isClosed curr); simpl; ring.
Qed.

Lemma missingPrice_false (s : Structure) :
  missingPrice s = false <-> Forall (fun l => isLegClosed l = true) (legs s).
Proof.
  unfold missingPrice. rewrite Forall_forall. split.
  - intros H l Hl. destruct (isLegClosed l) eqn:E; [reflexivity|].
    assert (existsb (fun l => negb (isLegClosed l)) (legs s) = true).
    { apply existsb_exists. exists l. split; [assumption | now rewrite E]. }
    congruence.
  - intros H. destruct (existsb _ (legs s)) eqn:E; [|reflexivity].
    apply existsb_exists in E. destruct E as (l & Hl & E).
    rewrite (H l Hl) in E. discriminate.
Qed.

(** X22.  When the close action goes through, every leg of the edited
    structure (disabled ones included) carries a non-zero closing price,
    and, for legs with distinct ids, the P&L handed over as realized is the
    sum over the enabled legs of (closingPrice - tradePrice) * quantity *
    multiplier minus commissions: a disabled leg has to be priced but does
    not count.  The amount is a function of the edited structure alone: the
    detail view totals the same amount for it whatever the market snapshot,
    the simulated spot, live mode and the store's copy of the structures
    (and the closed form does not involve the pricing kernel). *)
Theorem close_freezes_leg_level_pnl
  (confirmClose isStored isSaving : bool) (view : DetailView)
  (m : MarketData) (finalPnl : Q) :
  NoDup (map id (legs (localStructure view))) ->
  handleCloseAction confirmClose isStored isSaving view m = SaveAndClose finalPnl ->
  Forall (fun l => isLegClosed l = true) (legs (localStructure view))
  /\ finalPnl
     == Qsum (map (spec_netPnl (multiplier (localStructure view))
                     (fun l => orZero (closingPrice l)))
                  (enabledLegs (legs (localStructure view))))
  /\ (forall view' m',
        localStructure view' = localStructure view ->
        pnl (totals (value (analysis view' m'))) == finalPnl).
Proof.
  intros Hnd Hclose. unfold handleCloseAction in Hclose.
  destruct (negb confirmClose); [discriminate|].
  destruct (negb isStored || isSaving); [discriminate|].
  destruct (missingPrice (localStructure view)) eqn:Emiss; [discriminate|].
  injection Hclose as <-.
  apply missingPrice_false in Emiss.
  assert (Hall : forall l, In l (enabledLegs (legs (localStructure view))) ->
                           isLegClosed l = true).
  { intros l Hl. unfold enabledLegs in Hl. apply filter_In in Hl.
    rewrite Forall_forall in Emiss. apply Emiss. tauto. }
  split; [exact Emiss|].
  assert (Hdetail : forall v mm,
             localStructure v = localStructure view ->
             pnl (totals (value (analysis v mm)))
             == Qsum (map (spec_netPnl (multiplier (localStructure view))
                             (fun l => orZero (closingPrice l)))
                          (enabledLegs (legs (localStructure view))))).
  { intros v mm Ev.
    rewrite (totals_field v mm pnl la_netPnl);
      [|reflexivity| |rewrite Ev; exact Hnd].
    - rewrite Ev. apply Qsum_map_ext_in. intros l Hl.
      unfold analyseLeg. rewrite value_bind. cbn [value ret fst la_netPnl].
      rewrite (Hall l Hl), Ev. reflexivity.
    - intros acc curr. unfold totalsStep.
      destruct (rowDisabled v curr), (isClosed curr); simpl; ring. }
  split; [now apply Hdetail|].
  intros view' m' Ev.
  now rewrite (Hdetail view' m' Ev), (Hdetail view m eq_refl).
Qed.

End DetailProperties.

Lemma close_freezes_leg_level_pnl_witness :
  Forall (fun l => isLegClosed l = true)
         [sampleClosedLeg; sampleDisabledClosedLeg]
  /\ (80 - 120) * - (1) * 5 - (2 + 2) * Qabs (- (1))
     == Qsum (map (spec_netPnl 5 (fun l => orZero (closingPrice l)))
                  [sampleClosedLeg])
  /\ pnl (totals (value (analysis
                           {| localStructure :=
                                withLegs sampleStructure
                                  [sampleClosedLeg; sampleDisabledClosedLeg];
                              structures := [sampleStructure];
                              isLiveMode := false;
                              simulatedSpot := 26000 |}
                           sampleMarket)))
     == (80 - 120) * - (1) * 5 - (2 + 2) * Qabs (- (1)).
Proof.
  destruct (close_freezes_leg_level_pnl true true false
              {| localStructure :=
                   withLegs sampleStructure
                     [sampleClosedLeg; sampleDisabledClosedLeg];
                 structures := []; isLiveMode := true; simulatedSpot := 24000 |}
              sampleMarket
              ((80 - 120) * - (1) * 5 - (2 + 2) * Qabs (- (1))))
    as (Hall & Hsum & Hany).
  - repeat constructor; simpl; intuition discriminate.
  - vm_compute. reflexivity.
  - split; [exact Hall|]. split; [exact Hsum|].
    apply Hany. reflexivity.
Defined.

Section EditingProperties.

Context {kernel : PricingKernel} {clock : Clock}.

(** X23.  Editing a leg changes the legs with the given id only and keeps
    the number, order and ids of the legs; in read-only mode nothing
    changes.  Entering a closing price sets it on the leg and leaves the leg
    with a closing date (its own, or today's when it had none), so the live
    refresh no longer reprices the leg or contacts the kernel for it. *)
Theorem handleLegChange_effect
  (today : Z) (ident : string) (edit : LegEdit) (s : Structure) :
  handleLegChange true today ident edit s = s
  /\ map id (legs (handleLegChange false today ident edit s)) = map id (legs s)
  /\ Forall2
       (fun l l' =>
          (id l <> ident -> l' = l)
          /\ (forall v,
                id l = ident -> edit = SetClosingPrice (Some v) ->
                closingPrice l' = Some v
                /\ closingDate l'
                   = Some (match closingDate l with
                           | Some d => d
                           | None => today
                           end)
                /\ forall spot vol rate,
                     refreshLeg spot vol rate l' = ret l'))
       (legs s) (legs (handleLegChange false today ident edit s)).
Proof.
  split; [reflexivity|].
  unfold handleLegChange. cbn [legs withLegs].
  split.
  - rewrite map_map. apply map_ext. intros l.
    destruct (String.eqb (id l) ident); [|reflexivity].
    unfold stampClosingDate.
    destruct edit as [| | | | |[v|]| | | | |]; try reflexivity.
    destruct (closingDate (applyEdit (SetClosingPrice (Some v)) l)); reflexivity.
  - induction (legs s) as [|l ls IH]; cbn [map]; constructor; [|exact IH].
    split.
    + intros Hne. apply String.eqb_neq in Hne. now rewrite Hne.
    + intros v Hid ->. apply String.eqb_eq in Hid. rewrite Hid.
      unfold stampClosingDate.
      replace (closingDate (applyEdit (SetClosingPrice (Some v)) l))
        with (closingDate l) by reflexivity.
      destruct (closingDate l) as [d|] eqn:Ed.
      * repeat split.
        -- cbn [applyEdit closingDate]. exact Ed.
        -- intros spot vol rate. unfold refreshLeg.
           cbn [applyEdit closingDate]. now rewrite Ed.
      * repeat split.
Qed.

Lemma scaled_floor_close (x k : Q) :
  0 < k ->
  Qabs (inject_Z (Qfloor (x * k + (1 # 2))) / k - x) <= (1 # 2) / k.
Proof.
  intros Hk.
  pose proof (Qfloor_le (x * k + (1 # 2))) as H1.
  pose proof (Qlt_floor (x * k + (1 # 2))) as H2.
  rewrite inject_Z_plus in H2. change (inject_Z 1) with 1 in H2.
  set (n := inject_Z (Qfloor (x * k + (1 # 2)))) in *.
  assert (Hn : n / k - x == (n - x * k) / k) by (field; lra).
  rewrite Hn.
  apply Qabs_Qle_condition. split.
  - apply Qle_shift_div_l; [exact Hk|].
    assert (E : - ((1 # 2) / k) * k == - (1 # 2)) by (field; lra).
    rewrite E. lra.
  - apply Qle_shift_div_r; [exact Hk|].
    assert (E : (1 # 2) / k * k == 1 # 2) by (field; lra).
    rewrite E. lra.
Qed.

Lemma toFixed2_close (x : Q) : Qabs (toFixed2 x - x) <= 1 # 200.
Proof.
  unfold toFixed2.
  destruct (Qltb x 0) eqn:E.
  - pose proof (scaled_floor_close (- x) 100 ltac:(reflexivity)) as H.
    apply Qabs_Qle_condition in H. destruct H as [H1 H2].
    set (y := inject_Z (Qfloor (- x * 100 + (1 # 2))) / 100) in *.
    change ((1 # 2) / 100) with (1 # 200) in *.
    apply Qabs_Qle_condition. split; lra.
  - pose proof (scaled_floor_close x 100 ltac:(reflexivity)) as H.
    now change ((1 # 2) / 100) with (1 # 200) in H.
Qed.

Lemma Math_round_25 (x : Q) :
  Qabs (Math_round (x / 25) * 25 - x) <= 25 # 2
  /\ exists n : Z, Math_round (x / 25) * 25 = inject_Z n * 25.
Proof.
  unfold Math_round. split.
  - pose proof (Qfloor_le (x / 25 + (1 # 2))) as H1.
    pose proof (Qlt_floor (x / 25 + (1 # 2))) as H2.
    rewrite inject_Z_plus in H2. change (inject_Z 1) with 1 in H2.
    set (n := inject_Z (Qfloor (x / 25 + (1 # 2)))) in *.
    assert (Hx : x / 25 == x * (1 # 25)) by field.
    rewrite Hx in H1, H2.
    apply Qabs_Qle_condition. split; lra.
  - now exists (Qfloor (x / 25 + (1 # 2))).
Qed.

(** X24.  Adding a leg appends exactly one leg and keeps the others; in
    read-only mode nothing is added.  The new leg is an enabled, open, long
    call of quantity 1, struck at the multiple of 25
    nearest to the simulated spot (at most 12.5 away), and its trade price
    is the kernel's fair value rounded to the cent: valued by the detail
    view with the leg's own volatility it starts within half a cent of zero
    points P&L. *)
Theorem addLeg_appends_fair_leg
  (settings : Settings) (newId : string) (defaultExpiry : Z)
  (view : DetailView) (m : MarketData) :
  value (addLeg true settings newId defaultExpiry view m) = localStructure view
  /\ exists newLeg,
       legs (value (addLeg false settings newId defaultExpiry view m))
       = legs (localStructure view) ++ [newLeg]
       /\ id newLeg = newId
       /\ isDisabled newLeg = false /\ isLegClosed newLeg = false
       /\ closingDate newLeg = None
       /\ optionType newLeg = Call /\ quantity newLeg = 1
       /\ (exists n : Z, strike newLeg = inject_Z n * 25)
       /\ Qabs (strike newLeg - simulatedSpot view) <= 25 # 2
       /\ (forall view',
             simulatedSpot view' = simulatedSpot view ->
             volatilityToUse view' newLeg = impliedVolatility newLeg ->
             Qabs (pnlPoints (value (analyseLeg view' m newLeg))) <= 1 # 200).
Proof.
  split; [reflexivity|].
  exists (value (newLegOf settings newId defaultExpiry view m)).
  split.
  { unfold addLeg. cbn [negb]. rewrite value_bind. reflexivity. }
  unfold newLegOf. rewrite value_bind.
  cbn [value ret fst id isDisabled isLegClosed enabled closingPrice closingDate
       optionType quantity strike].
  destruct (Math_round_25 (simulatedSpot view)) as [Hnear Hmult].
  repeat split; try assumption.
  intros view' Hspot Hvol.
  unfold analyseLeg. rewrite value_bind.
  cbn [value ret fst pnlPoints] in *.
  rewrite Hvol.
  cbn [isLegClosed closingPrice tradePrice quantity strike expiryDate
       impliedVolatility optionType].
  unfold calculateLegFairValue. rewrite value_bind.
  cbn [value ret fst construct strike expiryDate impliedVolatility optionType].
  rewrite Hspot.
  set (fair := price Call
                 (new_BlackScholes (simulatedSpot view)
                    (Math_round (simulatedSpot view / 25) * 25)
                    (getTimeToExpiry defaultExpiry) (riskFreeRate m) 15)).
  pose proof (toFixed2_close fair) as Hc.
  apply Qabs_Qle_condition in Hc. apply Qabs_Qle_condition.
  destruct Hc as [Hc1 Hc2]. split; lra.
Qed.

End EditingProperties.

Lemma addLeg_appends_fair_leg_witness :
  exists newLeg,
    legs (value (addLeg false {| defaultOpeningCommission := 2;
                                 defaultClosingCommission := 2 |}
                   "n1" days30 sampleView sampleMarket))
    = sampleLegs ++ [newLeg]
    /\ Qabs (pnlPoints (value (analyseLeg sampleView sampleMarket newLeg)))
       <= 1 # 200.
Proof.
  destruct (addLeg_appends_fair_leg
              {| defaultOpeningCommission := 2; defaultClosingCommission := 2 |}
              "n1" days30 sampleView sampleMarket)
    as (_ & newLeg & Hlegs & _ & _ & _ & _ & _ & _ & _ & _ & Hpnl).
  exists newLeg. split; [exact Hlegs|].
  apply Hpnl; [reflexivity|].
  apply volatilityToUse_not_live. reflexivity.
Defined.
